(** * The task dispatcher of uglifyjs-webpack-plugin (src/uglify/index.js)

    A shallow embedding of the class exported by [src/uglify/index.js]: its
    constructor, the lazily installed [worker] and [runTasks], together with
    the part of the JavaScript runtime they rely on (truthiness, property
    reads, [JSON.stringify] with a replacer, promise continuations), and of
    what the constructor of the plugin ([src/index.js]) does before it
    hands [options.parallel] to the dispatcher.

    Conventions.
    - JavaScript values are trees ([value]); numbers are the integers, and
      the not-a-number result of a conversion is [None].
    - A JSON text is represented by its document tree ([json]); a blob read
      from the cache is either such a text or bytes that [JSON.parse]
      rejects.
    - Asynchrony is explicit: every continuation handed to the runtime
      ([cacache.get(..).then], the worker farm callback,
      [cacache.put(..).then]) is stored in [pending]; the runtime fires them
      one at a time, in any order ([fire], [run]). *)

From Stdlib Require Import ZArith Lia.
From stdpp Require Import gmap strings list pretty.

Local Open Scope Z_scope.
Set Warnings "-register-all".

(** ** Values *)

Module JS.

Inductive value : Type :=
| VUndefined
| VNull
| VBool (b : bool)
| VNum (n : Z)
| VStr (s : string)
| VRegExp (source : string)
| VFun (source : string)
| VArr (elems : list value)
| VObj (props : list (string * value)).

(** The result of evaluating an expression that may throw. *)
Inductive completion (A : Type) : Type :=
| Return (a : A)
| Throw (e : value).
Arguments Return {A} a.
Arguments Throw {A} e.

(** ToBoolean: [undefined], [null], [false], [0] and the empty string are
    falsy, every other value is truthy. *)
Definition truthy (v : value) : bool :=
  match v with
  | VUndefined | VNull => false
  | VBool b => b
  | VNum n => negb (n =? 0)
  | VStr s => negb (String.eqb s "")
  | VRegExp _ | VFun _ | VArr _ | VObj _ => true
  end.

(** First binding of [key] in a property list. *)
Fixpoint assoc {A : Type} (key : string) (props : list (string * A)) : option A :=
  match props with
  | [] => None
  | (k, a) :: rest => if String.eqb k key then Some a else assoc key rest
  end.

(** The exception of a property read on [undefined] or [null]. *)
Definition TypeError : value :=
  VObj [("name", VStr "TypeError");
        ("message", VStr "Cannot read property of undefined or null")].

(** [v.key] for the keys the dispatcher reads ([error], [cache], [workers],
    [cacheKey]): an own property of an object, [undefined] where there is
    none, and a [TypeError] on [undefined] and [null]. *)
Definition get (v : value) (key : string) : completion value :=
  match v with
  | VUndefined | VNull => Throw TypeError
  | VObj props => Return (default VUndefined (assoc key props))
  | _ => Return VUndefined
  end.

(** Nesting depth of a value. *)
Fixpoint height (v : value) : nat :=
  match v with
  | VArr elems => S (foldr Nat.max 0%nat (map height elems))
  | VObj props => S (foldr Nat.max 0%nat (map (λ kv, match kv with (_, x) => height x end) props))
  | _ => 0%nat
  end.

End JS.
Export JS.

(** ** JSON *)

Module JSON.

Inductive json : Type :=
| JNull
| JBool (b : bool)
| JNum (n : Z)
| JStr (s : string)
| JArr (elems : list json)
| JObj (members : list (string * json)).

(** Members of an object: a property whose serialization is [undefined] is
    left out. [None] is the exhausted recursion budget. *)
Fixpoint SerializeJSONObject (ser : string → value → option (option json))
    (props : list (string * value)) : option (list (string * json)) :=
  match props with
  | [] => Some []
  | (k, v) :: rest =>
      match ser k v, SerializeJSONObject ser rest with
      | Some (Some j), Some members => Some ((k, j) :: members)
      | Some None, Some members => Some members
      | _, _ => None
      end
  end.

(** Elements of an array: the key is the index, and an element whose
    serialization is [undefined] becomes [null]. *)
Fixpoint SerializeJSONArray (ser : string → value → option (option json))
    (index : nat) (elems : list value) : option (list json) :=
  match elems with
  | [] => Some []
  | v :: rest =>
      match ser (pretty index) v, SerializeJSONArray ser (S index) rest with
      | Some r, Some js => Some (default JNull r :: js)
      | _, _ => None
      end
  end.

(** SerializeJSONProperty of ECMA-262 for a replacer function: the replacer
    is applied to the held value first, then the outcome is serialized.
    The inner option is the [undefined] result ([undefined] and functions
    have no JSON form); a regular expression is an object without enumerable
    properties. The recursion is bounded by [fuel] because a replacer may
    return ever larger values. *)
Fixpoint SerializeJSONProperty (fuel : nat) (replacer : string → value → value)
    (key : string) (held : value) : option (option json) :=
  match fuel with
  | O => None
  | S fuel' =>
      match replacer key held with
      | VUndefined | VFun _ => Some None
      | VNull => Some (Some JNull)
      | VBool b => Some (Some (JBool b))
      | VNum n => Some (Some (JNum n))
      | VStr s => Some (Some (JStr s))
      | VRegExp _ => Some (Some (JObj []))
      | VArr elems =>
          match SerializeJSONArray (SerializeJSONProperty fuel' replacer) 0 elems with
          | Some js => Some (Some (JArr js))
          | None => None
          end
      | VObj props =>
          match SerializeJSONObject (SerializeJSONProperty fuel' replacer) props with
          | Some members => Some (Some (JObj members))
          | None => None
          end
      end
  end.

(** [JSON.stringify(v, replacer)]; [None] is [undefined]. The budget
    [S (height v)] is enough for every replacer that returns its argument
    or a primitive ([enough_fuel] below). *)
Definition stringify_with (replacer : string → value → value) (v : value) : option json :=
  default None (SerializeJSONProperty (S (height v)) replacer "" v).

(** [JSON.stringify(v)]. *)
Definition stringify (v : value) : option json :=
  stringify_with (λ _ x, x) v.

(** The value denoted by a JSON text in which no object repeats a member,
    as in every text that [JSON.stringify] writes. *)
Fixpoint value_of (j : json) : value :=
  match j with
  | JNull => VNull
  | JBool b => VBool b
  | JNum n => VNum n
  | JStr s => VStr s
  | JArr elems => VArr (map value_of elems)
  | JObj members => VObj (map (λ kj, match kj with (k, x) => (k, value_of x) end) members)
  end.

(** What a read of the cache store hands over. *)
Inductive blob : Type :=
| Text (doc : json)
| Garbled (bytes : string).

(** [JSON.parse(data)]; [None] is the SyntaxError it throws. *)
Definition parse (data : blob) : option value :=
  match data with
  | Text doc => Some (value_of doc)
  | Garbled _ => None
  end.

End JSON.

(** ** The dispatcher's surroundings *)

(** What the constructor reads from the platform: [os.cpus().length], the
    [find-cache-dir] package (which answers with a path or [null]) and the
    conversion of a string to a number. *)
Record platform : Type := {
  cpus : nat;
  findCacheDir : string → value;
  StringToNumber : string → option Z
}.

(** What [runTasks] calls into. [minify] and [encode] are the modules
    [./minify] and [./serialization], imported by the source and taken as
    parameters here. The three remaining fields say how the asynchronous
    operations issued for the task at a given index settle:
    [cacache_get i] is [Some data] when the promise of [cacache.get] is
    fulfilled and [None] when it is rejected (missing key, failed read);
    [workerFarm i request] is the pair [(error, data)] the farm passes to
    the callback; [cacache_put i] tells whether the promise of
    [cacache.put] is fulfilled. *)
Record environment : Type := {
  minify : value → completion value;
  encode : string → value → value;
  cacache_get : nat → option JSON.blob;
  workerFarm : nat → option JSON.json → value * value;
  cacache_put : nat → bool
}.

(** A task is an object; it is represented by its properties. *)
Definition task : Type := list (string * value).

(** [task.cacheKey] *)
Definition cacheKey (t : task) : value :=
  default VUndefined (assoc "cacheKey" t).

(** ** constructor *)

(** The fields [this.cache] and [this.workers]. *)
Record dispatcher : Type := {
  cache : value;
  workers : Z
}.

(** [Number(v)]; [None] is NaN. An array converts through its string form:
    empty to [0], a single element like that element's string, longer ones
    to NaN; the string forms of objects, functions and regular expressions
    are not numeric. *)
Fixpoint ToNumber (p : platform) (v : value) : option Z :=
  match v with
  | VUndefined => None
  | VNull => Some 0
  | VBool b => Some (if b then 1 else 0)
  | VNum n => Some n
  | VStr s => StringToNumber p s
  | VRegExp _ | VFun _ | VObj _ => None
  | VArr [] => Some 0
  | VArr [x] =>
      match x with
      | VUndefined | VNull => Some 0
      | VBool _ => None
      | _ => ToNumber p x
      end
  | VArr _ => None
  end.

(** [v === true] *)
Definition is_true (v : value) : bool :=
  match v with
  | VBool true => true
  | _ => false
  end.

(** [Number(v) || 0] *)
Definition number_or_zero (p : platform) (v : value) : Z :=
  match ToNumber p v with
  | Some n => if n =? 0 then 0 else n
  | None => 0
  end.

(** [constructor(parallel = {})]. The destructuring of [options] throws on
    [null]. *)
Definition constructor (p : platform) (parallel : value) : completion dispatcher :=
  let parallel := match parallel with VUndefined => VObj [] | _ => parallel end in
  let options :=
    match parallel with
    | VBool b => VObj [("cache", VBool b); ("workers", VBool b)]
    | _ => parallel
    end in
  match get options "cache", get options "workers" with
  | Return cache, Return workers =>
      Return
        {| cache := if is_true cache
                    then findCacheDir p "uglifyjs-webpack-plugin"
                    else cache;
           workers := if is_true workers
                      then Z.of_nat (cpus p) - 1
                      else Z.min (number_or_zero p workers) (Z.of_nat (cpus p) - 1) |}
  | Throw e, _ => Throw e
  | _, Throw e => Throw e
  end.

(** ** runTasks *)

(** Which closure [this.worker] holds once the method [worker] ran. *)
Inductive worker_kind : Type :=
| FarmWorker
| InlineWorker.

(** A continuation waiting in the runtime for the task at some index. *)
Inductive kont : Type :=
| KGet
| KFarm (request : option JSON.json)
| KPut (result : value).

(** The store of one call of [runTasks]: the variables [toRun] and
    [results], the invocations of [callback] so far (each with the array it
    was handed), the continuations waiting in the runtime, the closure
    installed in [this.worker], the indices of the tasks handed to
    [this.worker], and the arguments of the calls of [cacache.put]. *)
Record state : Type := {
  toRun : Z;
  results : list (option value);
  called : list (value * list (option value));
  pending : gmap nat kont;
  installed : option worker_kind;
  invoked : list nat;
  puts : list (value * value * option JSON.json)
}.

(** [a[index] = data] on an array with holes: a write past the end extends
    the array, leaving holes in between. *)
Definition array_set (a : list (option value)) (index : nat) (data : value)
    : list (option value) :=
  if decide (index < length a)%nat
  then <[index := Some data]> a
  else a ++ replicate (index - length a) None ++ [Some data].

(** [step(index, data)]. The callback given to [runTasks] is recorded
    with its arguments and taken to return: what follows an exception of
    that callback is not part of the model. *)
Definition step (index : nat) (data : value) (st : state) : state :=
  let toRun' := toRun st - 1 in
  let results' := array_set (results st) index data in
  {| toRun := toRun';
     results := results';
     called := if toRun' =? 0 then called st ++ [(VNull, results')] else called st;
     pending := pending st;
     installed := installed st;
     invoked := invoked st;
     puts := puts st |}.

(** What the callback given to [this.worker] decides to do. *)
Inductive action : Type :=
| Deliver (result : value)
| Store (result : value) (data : option JSON.json).

(** The body of [(error, data) => ...] up to its effect: [done()] at once,
    or [cacache.put(..).then(done, done)]. Reading [result.error] throws
    when [result] is [undefined] or [null]; the read happens only when a
    cache is configured. *)
Definition on_worker (d : dispatcher) (error data : value) : completion action :=
  let result := if truthy error then VObj [("error", error)] else data in
  if truthy (cache d) then
    match get result "error" with
    | Throw e => Throw e
    | Return err =>
        if negb (truthy err)
        then Return (Store result (JSON.stringify data))
        else Return (Deliver result)
    end
  else Return (Deliver result).

Definition wait (index : nat) (k : kont) (st : state) : state :=
  {| toRun := toRun st; results := results st; called := called st;
     pending := <[index := k]> (pending st);
     installed := installed st; invoked := invoked st; puts := puts st |}.

Definition resume (index : nat) (st : state) : state :=
  {| toRun := toRun st; results := results st; called := called st;
     pending := delete index (pending st);
     installed := installed st; invoked := invoked st; puts := puts st |}.

(** The effect of the callback: [step] now, or the call of [cacache.put]
    whose promise runs [done] both when fulfilled and when rejected. *)
Definition perform (d : dispatcher) (t : task) (index : nat) (a : action)
    (st : state) : state :=
  match a with
  | Deliver result => step index result st
  | Store result data =>
      let st' := wait index (KPut result) st in
      {| toRun := toRun st'; results := results st'; called := called st';
         pending := pending st'; installed := installed st';
         invoked := invoked st';
         puts := puts st' ++ [(cache d, cacheKey t, data)] |}
  end.

(** The closure for [this.workers > 0] is chosen by the first call. *)
Definition choose (d : dispatcher) : worker_kind :=
  if 0 <? workers d then FarmWorker else InlineWorker.

(** The inline closure: [try { cb(null, minify(opt)) } catch (errors)
    { cb(errors) }]. The [catch] also receives what [cb] itself throws,
    which in the model is the TypeError of reading [result.error]: the
    callback given to [runTasks], which [cb] reaches through [step] when it
    does not wait for a cache write, is taken to return. *)
Definition inline (d : dispatcher) (e : environment) (t : task) : completion action :=
  match minify e (VObj t) with
  | Return result =>
      match on_worker d VNull result with
      | Return a => Return a
      | Throw errors => on_worker d errors VUndefined
      end
  | Throw errors => on_worker d errors VUndefined
  end.

(** The request of the farm closure: [JSON.stringify(opt, encode)]. *)
Definition request (e : environment) (t : task) : option JSON.json :=
  JSON.stringify_with (encode e) (VObj t).

(** [this.worker(task, cb)]: the method [worker] installs the closure on the
    first call, later calls reach the closure directly. The second
    component is the exception that escapes, if any. *)
Definition worker (d : dispatcher) (e : environment) (t : task) (index : nat)
    (st : state) : state * option value :=
  let kind := default (choose d) (installed st) in
  let st1 :=
    {| toRun := toRun st; results := results st; called := called st;
       pending := pending st; installed := Some kind;
       invoked := invoked st ++ [index]; puts := puts st |} in
  match kind with
  | FarmWorker => (wait index (KFarm (request e t)) st1, None)
  | InlineWorker =>
      match inline d e t with
      | Return a => (perform d t index a st1, None)
      | Throw ex => (st1, Some ex)
      end
  end.

(** [enqueue()] *)
Definition enqueue (d : dispatcher) (e : environment) (t : task) (index : nat)
    (st : state) : state * option value :=
  worker d e t index st.

(** The body of [tasks.forEach((task, index) => ...)]. *)
Definition dispatch (d : dispatcher) (e : environment) (t : task) (index : nat)
    (st : state) : state * option value :=
  if truthy (cache d)
  then (wait index KGet st, None)
  else enqueue d e t index st.

(** [forEach] from [index] on; an exception ends the loop. *)
Fixpoint forEach (d : dispatcher) (e : environment) (index : nat)
    (tasks : list task) (st : state) : state * option value :=
  match tasks with
  | [] => (st, None)
  | t :: rest =>
      match dispatch d e t index st with
      | (st', None) => forEach d e (S index) rest st'
      | (st', Some ex) => (st', Some ex)
      end
  end.

(** [runTasks(tasks, callback)] on a new dispatcher, up to its return: the
    store it leaves and the exception it throws, if any. [callback] is the
    recorder [called]; it does not throw. *)
Definition runTasks (d : dispatcher) (e : environment) (tasks : list task)
    : state * option value :=
  match tasks with
  | [] =>
      ({| toRun := 0; results := []; called := [(VNull, [])]; pending := ∅;
          installed := None; invoked := []; puts := [] |}, None)
  | _ =>
      forEach d e 0 tasks
        {| toRun := Z.of_nat (length tasks); results := []; called := [];
           pending := ∅; installed := None; invoked := []; puts := [] |}
  end.

(** The runtime runs the continuation waiting for task [i]. [None]: there
    is none.
    - [KGet]: [then(({ data }) => step(index, JSON.parse(data)), enqueue)].
      [enqueue] handles the rejection of [cacache.get] only: an exception
      thrown by the fulfilment handler rejects the promise that [then]
      returned, which nobody observes. The same holds for an exception that
      escapes [enqueue].
    - [KFarm]: the farm calls [cb(error, data)]; an exception of [cb]
      escapes into the farm and nothing remains to run for the task.
    - [KPut]: [then(done, done)]. *)
Definition fire (d : dispatcher) (e : environment) (tasks : list task)
    (i : nat) (st : state) : option state :=
  match tasks !! i, pending st !! i with
  | Some t, Some k =>
      let st := resume i st in
      Some
        match k with
        | KGet =>
            match cacache_get e i with
            | Some data =>
                match JSON.parse data with
                | Some v => step i v st
                | None => st
                end
            | None => fst (enqueue d e t i st)
            end
        | KFarm req =>
            match on_worker d (fst (workerFarm e i req)) (snd (workerFarm e i req)) with
            | Return a => perform d t i a st
            | Throw _ => st
            end
        | KPut result =>
            if cacache_put e i then step i result st else step i result st
        end
  | _, _ => None
  end.

(** The runtime fires the continuations named by the schedule, in order. *)
Fixpoint run (d : dispatcher) (e : environment) (tasks : list task)
    (schedule : list nat) (st : state) : option state :=
  match schedule with
  | [] => Some st
  | i :: rest =>
      match fire d e tasks i st with
      | Some st' => run d e tasks rest st'
      | None => None
      end
  end.

(** A whole execution: the call of [runTasks], then the schedule. *)
Definition execute (d : dispatcher) (e : environment) (tasks : list task)
    (schedule : list nat) : option state :=
  run d e tasks schedule (fst (runTasks d e tasks)).

(** ** The outcome of a task, continuation-free *)

(** The definitions of this part are not taken from the source. They say,
    task by task and without any store, what result a task is due; the
    properties below compare the store that [runTasks] and the runtime
    build with them. *)

(** The result an [action] leads to; an exception leads to none. *)
Definition delivered (a : completion action) : option value :=
  match a with
  | Return (Deliver result) => Some result
  | Return (Store result _) => Some result
  | Throw _ => None
  end.

(** The outcome of handing task [i] to [this.worker]. *)
Definition computed (d : dispatcher) (e : environment) (i : nat) (t : task)
    : option value :=
  match choose d with
  | FarmWorker =>
      delivered (on_worker d (fst (workerFarm e i (request e t)))
                             (snd (workerFarm e i (request e t))))
  | InlineWorker => delivered (inline d e t)
  end.

(** The outcome of task [i]: the stored result when the cache answers, the
    computed one otherwise. [None]: an exception escaped and nothing is
    ever recorded for the task. *)
Definition outcome (d : dispatcher) (e : environment) (i : nat) (t : task)
    : option value :=
  if truthy (cache d) then
    match cacache_get e i with
    | Some data => JSON.parse data
    | None => computed d e i t
    end
  else computed d e i t.

(** The outcomes of a batch, slot by slot. *)
Definition outcomes (d : dispatcher) (e : environment) (tasks : list task)
    : list (option value) :=
  imap (outcome d e) tasks.

(** [a[i]]; [None] for a hole and past the end. *)
Definition slot (a : list (option value)) (i : nat) : option value :=
  mjoin (a !! i).

(** The number of elements of [a] that are not holes. *)
Fixpoint filled (a : list (option value)) : nat :=
  match a with
  | [] => 0%nat
  | Some _ :: rest => S (filled rest)
  | None :: rest => filled rest
  end.

(** Task [i] is handed to [this.worker] only if its cache read is rejected
    or no cache is configured. *)
Definition misses (d : dispatcher) (e : environment) (i : nat) : Prop :=
  truthy (cache d) = true → cacache_get e i = None.

(** What a waiting continuation promises about the outcome of its task. *)
Definition kont_ok (d : dispatcher) (e : environment) (i : nat) (t : task)
    (k : kont) : Prop :=
  match k with
  | KGet => truthy (cache d) = true
  | KFarm req =>
      choose d = FarmWorker ∧ req = request e t ∧ misses d e i
  | KPut result =>
      truthy (cache d) = true ∧ misses d e i ∧ computed d e i t = Some result
  end.

(** The standing of task [i] once the first [n] tasks went through the body
    of [forEach]: waiting with an empty slot; or settled, its slot holding
    its outcome; or not reached yet. The task was handed to [this.worker]
    exactly when it is past its cache read and that read missed. *)
Definition task_ok (d : dispatcher) (e : environment) (n : nat) (st : state)
    (i : nat) (t : task) : Prop :=
  match pending st !! i with
  | Some k =>
      (i < n)%nat ∧ slot (results st) i = None ∧ kont_ok d e i t k ∧
      (i ∈ invoked st ↔ k ≠ KGet)
  | None =>
      if decide (i < n)%nat
      then slot (results st) i = outcome d e i t ∧
           (i ∈ invoked st ↔ misses d e i)
      else slot (results st) i = None ∧ i ∉ invoked st
  end.

(** The invariant of the store once the first [n] tasks went through the
    body of [forEach]. *)
Record invariant (d : dispatcher) (e : environment) (tasks : list task)
    (n : nat) (st : state) : Prop := {
  inv_bound : (n ≤ length tasks)%nat;
  inv_tasks : ∀ i t, tasks !! i = Some t → task_ok d e n st i t;
  inv_dom : ∀ i, is_Some (pending st !! i) → (i < length tasks)%nat;
  inv_length : (length (results st) ≤ n)%nat;
  inv_toRun : toRun st = Z.of_nat (length tasks) - Z.of_nat (filled (results st));
  inv_called : called st = if toRun st =? 0 then [(VNull, results st)] else [];
  inv_installed : installed st = None ∨ installed st = Some (choose d);
  inv_invoked_once : NoDup (invoked st)
}.

(** How a transition for task [i] may extend the log of worker calls. *)
Definition logs (st st' : state) (i : nat) : Prop :=
  invoked st' = invoked st ∨ (invoked st' = invoked st ++ [i] ∧ i ∉ invoked st).

(** No continuation is waiting. *)
Definition quiescent (st : state) : Prop := pending st = ∅.

(** ** The modules that are not part of the sources *)

(** Modelled from the spec: the replacer [encode] of
    [src/uglify/serialization.js], which is missing; the encoding uses
    "explicit tagging for non-primitive value kinds", such as
    "regular-expression style matchers". A regular expression and a
    function become tagged strings, every other value is returned as it
    is. *)
Definition tagging_encode (key : string) (v : value) : value :=
  match v with
  | VRegExp source => VStr ("<RegExp " +:+ source +:+ ">")
  | VFun source => VStr ("<Function " +:+ source +:+ ">")
  | _ => v
  end.

(** A replacer that returns its argument or a value without parts. *)
Definition shallow (replacer : string → value → value) : Prop :=
  ∀ key v, replacer key v = v ∨ height (replacer key v) = 0%nat.

(** The two directions across the execution boundary of the worker farm:
    how the unit decodes a request, and how an answer of the unit arrives
    at the caller. *)
Record boundary : Type := {
  decode : option JSON.json → value;
  answer : value → value
}.

(** Modelled from the spec: the worker unit [src/uglify/worker.js] behind
    the farm, which is missing: the "Task payload is serialized to a
    transport-neutral form, decoded inside the unit, passed to the Compute
    Function, and the Result (or thrown error) is serialized back". *)
Definition worker_unit (b : boundary) (compute : value → completion value)
    (req : option JSON.json) : value * value :=
  match compute (decode b req) with
  | Return result => (VNull, answer b result)
  | Throw errors => (answer b errors, VUndefined)
  end.


(** A value that JSON can carry: no [undefined], no function, no regular
    expression anywhere in it. *)
Fixpoint plain (v : value) : bool :=
  match v with
  | VUndefined | VRegExp _ | VFun _ => false
  | VNull | VBool _ | VNum _ | VStr _ => true
  | VArr elems => forallb plain elems
  | VObj props => forallb (λ kv, match kv with (_, x) => plain x end) props
  end.


(** ** The plugin's constructor, as far as the dispatcher is concerned *)

(** The error of [schema-utils] for options that the schema rejects. *)
Definition ValidationError : value :=
  VObj [("name", VStr "ValidationError")].

(** [constructor(options = {})] of [UglifyJsPlugin] keeps [options.parallel]
    as it is, after [validateOptions(schema, options, ..)]. The schema
    ([options.json]) is not part of the sources; [valid] stands for what it
    accepts. *)
Definition plugin_parallel (valid : value → bool) (options : value)
    : completion value :=
  let options := match options with VUndefined => VObj [] | _ => options end in
  if valid options then get options "parallel" else Throw ValidationError.

(** [new Uglify(this.options.parallel)] in [apply]. *)
Definition plugin_dispatcher (p : platform) (valid : value → bool) (options : value)
    : completion dispatcher :=
  match plugin_parallel valid options with
  | Return parallel => constructor p parallel
  | Throw e => Throw e
  end.

(** ** How much is left to run *)

(** The number of continuations that can still run for a task, from the
    one that is waiting on: after the cache read come the farm and the
    cache write. *)
Definition kont_weight (k : kont) : nat :=
  match k with
  | KGet => 3%nat
  | KFarm _ => 2%nat
  | KPut _ => 1%nat
  end.

Definition weigh (m : gmap nat kont) : nat :=
  map_fold (λ _ k acc, (kont_weight k + acc)%nat) 0%nat m.

Definition weight (st : state) : nat := weigh (pending st).

(** ** Notions used in the statements *)



(** The error that the worker reports for task [i], if it reports one. *)
Definition compute_error (d : dispatcher) (e : environment) (i : nat) (t : task)
    : option value :=
  match choose d with
  | InlineWorker =>
      match minify e (VObj t) with
      | Throw errors => if truthy errors then Some errors else None
      | Return _ => None
      end
  | FarmWorker =>
      if truthy (fst (workerFarm e i (request e t)))
      then Some (fst (workerFarm e i (request e t)))
      else None
  end.

(** Two batches and their environments that differ at most at index [i]. *)
Definition agree_except (i : nat) (e e' : environment) (tasks tasks' : list task)
    : Prop :=
  minify e' = minify e ∧ encode e' = encode e ∧
  ∀ j, j ≠ i →
    tasks' !! j = tasks !! j ∧ cacache_get e' j = cacache_get e j ∧
    workerFarm e' j = workerFarm e j.

(** A replacer that tags regular expressions and functions with a value
    without parts and returns every other value as it is. *)
Definition tagging (replacer : string → value → value) : Prop :=
  ∀ key v,
    match v with
    | VRegExp _ | VFun _ => height (replacer key v) = 0%nat
    | _ => replacer key v = v
    end.

(** The request for a task leaves the cache key out. *)
Definition request_excludes_cacheKey (e : environment) (t : task) : Prop :=
  ∀ members, request e t = Some (JSON.JObj members) → assoc "cacheKey" members = None.

(** Construction fails for a negative worker count. *)
Definition rejects_negative_workers (p : platform) : Prop :=
  ∀ cache workers d,
    workers < 0 →
    constructor p (VObj [("cache", cache); ("workers", VNum workers)]) ≠ Return d.

(** The dispatcher [d] with the worker count [n]. *)
Definition with_workers (d : dispatcher) (n : Z) : dispatcher :=
  {| cache := cache d; workers := n |}.

(** [v] is [undefined] or [null]. *)
Definition nullish (v : value) : bool :=
  match v with
  | VUndefined | VNull => true
  | _ => false
  end.

(** The entry of a task that is computed, told from what the Compute
    Function or the farm answers: an error is recorded as [{ error }], and
    otherwise the data is the entry. With a cache, data that is [undefined]
    or [null] cannot be asked for its [error]: the inline worker records
    the TypeError of that read when it comes from the call in its [try]
    block, and nothing is recorded when it comes from the farm or from the
    call in the [catch] block. *)
Definition computed_entry (d : dispatcher) (e : environment) (i : nat) (t : task)
    : option value :=
  if 0 <? workers d then
    let answered := workerFarm e i (request e t) in
    if truthy answered.1 then Some (VObj [("error", answered.1)])
    else if truthy (cache d) && nullish answered.2 then None
    else Some answered.2
  else
    match minify e (VObj t) with
    | Return result =>
        if truthy (cache d) && nullish result
        then Some (VObj [("error", TypeError)])
        else Some result
    | Throw errors =>
        if truthy errors then Some (VObj [("error", errors)])
        else if truthy (cache d) then None
        else Some VUndefined
    end.

(** The entry of a task in the results: what the cache holds for it, read
    as JSON, when a cache is configured and the read is fulfilled, and what
    is computed for it otherwise. A task has no entry when the cache holds
    bytes for it that are not JSON. *)
Definition entry (d : dispatcher) (e : environment) (i : nat) (t : task)
    : option value :=
  if truthy (cache d) then
    match cacache_get e i with
    | Some (JSON.Text doc) => Some (JSON.value_of doc)
    | Some (JSON.Garbled _) => None
    | None => computed_entry d e i t
    end
  else computed_entry d e i t.

(** The entries of a batch, in the order of its tasks. *)
Definition entries (d : dispatcher) (e : environment) (tasks : list task)
    : list (option value) :=
  imap (entry d e) tasks.

(** Every task of the batch has an entry. *)
Definition complete (d : dispatcher) (e : environment) (tasks : list task) : bool :=
  forallb (λ o, bool_decide (is_Some o)) (entries d e tasks).

(** A missing argument and [false] give a worker count of zero. *)
Definition false_gives_zero_workers (p : platform) : Prop :=
  ∀ d, constructor p (VBool false) = Return d ∨ constructor p VUndefined = Return d →
       workers d = 0.


(** ** Batches used in the examples *)

Definition task_of (key input : string) : task :=
  [("cacheKey", VStr key); ("input", VStr input)].

Definition syntax_error : value :=
  VObj [("message", VStr "Unexpected token"); ("line", VNum 1); ("col", VNum 2)].

(** A Compute Function for the examples: it answers with the input as the
    code, and throws on the input [y=]. *)
Definition sample_minify (opt : value) : completion value :=
  match get opt "input" with
  | Return (VStr input) =>
      if String.eqb input "y=" then Throw syntax_error
      else Return (VObj [("code", VStr input)])
  | _ => Throw (VObj [("message", VStr "no input")])
  end.

(** A boundary that reads the request as plain JSON and hands every answer
    over as it is. *)
Definition json_boundary : boundary :=
  {| decode := λ req, match req with
                      | Some doc => JSON.value_of doc
                      | None => VUndefined
                      end;
     answer := λ v, v |}.

(** An environment around [sample_minify] for a given behaviour of the
    cache reads; the writes of the cache fail for the even indices. *)
Definition sample_environment (reads : nat → option JSON.blob) : environment :=
  {| minify := sample_minify;
     encode := tagging_encode;
     cacache_get := reads;
     workerFarm := λ _ req, worker_unit json_boundary sample_minify req;
     cacache_put := Nat.odd |}.

Definition three_tasks : list task :=
  [task_of "A" "x=1;"; task_of "B" "y=2;"; task_of "C" "z=3;"].

(** The second task is in the cache, the other two are not. *)
Definition second_cached (i : nat) : option JSON.blob :=
  match i with
  | 1%nat => Some (JSON.Text (JSON.JObj [("code", JSON.JStr "cached")]))
  | _ => None
  end.

Definition farm_with_cache : dispatcher :=
  {| cache := VStr "node_modules/.cache/uglifyjs-webpack-plugin"; workers := 2 |}.

Definition inline_with_cache : dispatcher :=
  {| cache := VStr "node_modules/.cache/uglifyjs-webpack-plugin"; workers := 0 |}.

Definition inline_without_cache : dispatcher :=
  {| cache := VBool false; workers := 0 |}.

Definition farm_without_cache : dispatcher :=
  {| cache := VBool false; workers := 2 |}.

(** The cache reads settle last to first, then the farm answers for the
    third and the first task, then their cache writes settle. *)
Definition inverted_schedule : list nat := [2; 1; 0; 2; 0; 0; 2]%nat.

(** The cache holds bytes for the first task that are not JSON; the other
    tasks are not in the cache. *)
Definition first_garbled (i : nat) : option JSON.blob :=
  match i with
  | 0%nat => Some (JSON.Garbled "{")
  | _ => None
  end.

Definition nothing_cached (i : nat) : option JSON.blob := None.

Definition two_tasks : list task :=
  [task_of "A" "x=1;"; task_of "B" "y=2;"].

Definition one_task : list task := [task_of "A" "x=1;"].

(** The second task of this batch does not parse. *)
Definition faulty_tasks : list task :=
  [task_of "A" "x=1;"; task_of "B" "y="; task_of "C" "z=3;"].

(** Four processors, a cache directory below the package, and decimal
    digits read as a number. *)
Definition sample_platform : platform :=
  {| cpus := 4;
     findCacheDir := λ name, VStr ("node_modules/.cache/" +:+ name);
     StringToNumber := λ s, if String.eqb s "2" then Some 2 else None |}.

(** With the inline worker every task finishes before the next one moves:
    read, then write, for the first and the third task. *)
Definition inline_schedule : list nat := [0; 0; 1; 2; 2]%nat.

(** A result as the Compute Function returns it for a unit without error
    and without source map. *)
Definition sample_result : list (string * value) :=
  [("error", VUndefined); ("map", VUndefined); ("code", VStr "x=1;");
   ("warnings", VArr [VStr "Dropping unused variable a [0:1,4]"]);
   ("extractedComments", VArr [])].

(** The cache holds bytes for the second task that are not JSON; the other
    tasks are not in the cache. *)
Definition second_garbled (i : nat) : option JSON.blob :=
  match i with
  | 1%nat => Some (JSON.Garbled "{")
  | _ => None
  end.

(** The reads settle in the order of the tasks, then the farm answers for
    the first and the third task, then their cache writes settle. *)
Definition straight_schedule : list nat := [0; 1; 2; 0; 2; 0; 2]%nat.

(** A machine that reports no processor. *)
Definition no_processors : platform :=
  {| cpus := 0;
     findCacheDir := λ name, VStr ("node_modules/.cache/" +:+ name);
     StringToNumber := λ _, None |}.



(** ** exit *)

(** [exit()]: [workerFarm.end(this.workerFarm)] is called when
    [this.workerFarm] is set, which the method [worker] does exactly when
    it installs the farm closure. The result tells whether the farm is
    ended. *)
Definition exit (st : state) : bool :=
  match installed st with
  | Some FarmWorker => true
  | _ => false
  end.

(** ** Notions used in the further properties *)

(** What a call of [cacache.put] in a batch is about: the cache location
    of the dispatcher, the key of a task that missed the cache, and the
    text of the result computed for it, which has no truthy [error]. *)
Definition put_ok (d : dispatcher) (e : environment) (tasks : list task)
    (p : value * value * option JSON.json) : Prop :=
  ∃ i t r err,
    tasks !! i = Some t ∧ misses d e i ∧ truthy (cache d) = true ∧
    computed d e i t = Some r ∧
    get r "error" = Return err ∧ truthy err = false ∧
    p = (cache d, cacheKey t, JSON.stringify r).

(** A closure is installed exactly when some task was handed to
    [this.worker], and only tasks of the batch are. *)
Definition tracked (tasks : list task) (st : state) : Prop :=
  (installed st = None ↔ invoked st = []) ∧
  ∀ j, j ∈ invoked st → (j < length tasks)%nat.

(** The properties of a result as the Compute Function returns it: each
    is [undefined] (a missing [error], a missing [map]) or plain. *)
Definition record_like (props : list (string * value)) : bool :=
  forallb (λ kv, match kv with
                 | (_, VUndefined) => true
                 | (_, x) => plain x
                 end) props.

(** * The plugin (src/index.js) *)

(** ** Strings *)

Definition newline : string := String (Ascii.ascii_of_nat 10) "".

(** [String(v)], as a template literal applies it: decimal digits for a
    number (an integer below 10^21, which is printed without exponent),
    the text of a function or of a regular expression (in the
    plugin a regular expression is represented by its literal, slashes and
    flags included), the elements joined by commas for an array
    ([undefined] and [null] give the empty string there), and
    [[object Object]] for an object. *)
Fixpoint ToString (v : value) : string :=
  match v with
  | VUndefined => "undefined"
  | VNull => "null"
  | VBool b => if b then "true" else "false"
  | VNum n => pretty n
  | VStr s => s
  | VRegExp literal => literal
  | VFun source => source
  | VArr elems =>
      String.concat ","
        (map (λ x, match x with
                   | VUndefined | VNull => ""
                   | _ => ToString x
                   end) elems)
  | VObj _ => "[object Object]"
  end.

(** [new Error(message)] *)
Definition Error (message : string) : value :=
  VObj [("name", VStr "Error"); ("message", VStr message)].

(** Sequencing of evaluations that may throw. *)
Definition and_then {A B : Type} (c : completion A) (k : A → completion B)
    : completion B :=
  match c with
  | Return a => k a
  | Throw e => Throw e
  end.

Notation "'let!' x ':=' c 'in' k" := (and_then c (λ x, k))
  (at level 10, x name, c at level 100, k at level 200).

(** ** The collaborators of the plugin *)

(** A [SourceMapConsumer]: [originalPositionFor({ line, column })] as a
    function of the two properties, and the object as the data it is when
    it is a property of a task. *)
Record consumer : Type := {
  originalPositionFor : value → value → completion value;
  consumer_data : value
}.

(** An object on which [shorten] is called: [Some f] when it has the
    method, as a [RequestShortener] does; [None] when it has none, so that
    the call throws. *)
Definition shortener : Type := option (value → completion value).

(** [requestShortener.shorten(source)] *)
Definition shorten (requestShortener : shortener) (source : value) : completion value :=
  match requestShortener with
  | Some f => f source
  | None => Throw TypeError
  end.

(** ** buildError *)

(** [static buildError(err, file, sourceMap, requestShortener)] *)
Definition buildError (err : value) (file : string) (sourceMap : option consumer)
    (requestShortener : shortener) : completion value :=
  let! line := get err "line" in
  if truthy line then
    let! col := get err "col" in
    let! original :=
      match sourceMap with
      | None => Return VUndefined
      | Some map => originalPositionFor map line col
      end in
    let! source := if truthy original then get original "source" else Return original in
    if truthy source then
      let! message := get err "message" in
      let! short := shorten requestShortener source in
      let! oline := get original "line" in
      let! ocolumn := get original "column" in
      Return (Error (file +:+ " from UglifyJs" +:+ newline +:+ ToString message
                     +:+ " [" +:+ ToString short +:+ ":" +:+ ToString oline +:+ ","
                     +:+ ToString ocolumn +:+ "][" +:+ file +:+ ":" +:+ ToString line
                     +:+ "," +:+ ToString col +:+ "]"))
    else
      let! message := get err "message" in
      Return (Error (file +:+ " from UglifyJs" +:+ newline +:+ ToString message
                     +:+ " [" +:+ file +:+ ":" +:+ ToString line +:+ ","
                     +:+ ToString col +:+ "]"))
  else
    let! stack := get err "stack" in
    if truthy stack then
      Return (Error (file +:+ " from UglifyJs" +:+ newline +:+ ToString stack))
    else
      let! message := get err "message" in
      Return (Error (file +:+ " from UglifyJs" +:+ newline +:+ ToString message)).

(** ** buildWarnings *)

(** What [warningRegex], [/\[.+:([0-9]+),([0-9]+)\]/], finds in a warning:
    the text before the match, the numbers of the two groups, and the text
    after the match. *)
Record position_tag : Type := {
  before : string;
  tag_line : Z;
  tag_column : Z;
  after : string
}.

(** [a !== file] for a string [file] *)
Definition differs_from (a : value) (file : string) : bool :=
  match a with
  | VStr s => negb (String.eqb s file)
  | _ => true
  end.

(** The callback of [warnings.reduce], from the accumulator [acc] on.
    [exec] is [warningRegex.exec]; where it finds nothing, reading
    [match[1]] throws. [warning.replace(warningRegex, '')] is the text
    around the match. *)
Fixpoint reduce_warnings (exec : string → option position_tag) (file : string)
    (map : consumer) (warningsFilter : value → completion value)
    (requestShortener : shortener) (acc : list string) (warnings : list string)
    : completion (list string) :=
  match warnings with
  | [] => Return acc
  | warning :: rest =>
      match exec warning with
      | None => Throw TypeError
      | Some tag =>
          let! original :=
            originalPositionFor map (VNum (tag_line tag)) (VNum (tag_column tag)) in
          let! source := if truthy original then get original "source" else Return original in
          let! keep :=
            if truthy source && differs_from source file
            then warningsFilter source
            else Return (VBool false) in
          let! acc' :=
            if truthy keep then
              let! short := shorten requestShortener source in
              let! oline := get original "line" in
              let! ocolumn := get original "column" in
              Return (acc ++ [before tag +:+ after tag +:+ "[" +:+ ToString short
                              +:+ ":" +:+ ToString oline +:+ "," +:+ ToString ocolumn
                              +:+ "]"])
            else Return acc in
          reduce_warnings exec file map warningsFilter requestShortener acc' rest
      end
  end.

(** [static buildWarnings(warnings, file, sourceMap, warningsFilter,
    requestShortener)] *)
Definition buildWarnings (exec : string → option position_tag)
    (warnings : list string) (file : string) (sourceMap : option consumer)
    (warningsFilter : value → completion value) (requestShortener : shortener)
    : completion (list string) :=
  match sourceMap with
  | None => Return warnings
  | Some map => reduce_warnings exec file map warningsFilter requestShortener [] warnings
  end.

(** What makes [buildWarnings] keep a warning, and the text it keeps. *)
Definition kept (exec : string → option position_tag) (file : string)
    (map : consumer) (warningsFilter : value → completion value)
    (requestShortener : shortener) (warning out : string) : Prop :=
  ∃ tag original source short oline ocolumn,
    exec warning = Some tag ∧
    originalPositionFor map (VNum (tag_line tag)) (VNum (tag_column tag))
      = Return original ∧
    truthy original = true ∧ get original "source" = Return source ∧
    truthy source = true ∧ differs_from source file = true ∧
    (∃ keep, warningsFilter source = Return keep ∧ truthy keep = true) ∧
    shorten requestShortener source = Return short ∧
    get original "line" = Return oline ∧ get original "column" = Return ocolumn ∧
    out = before tag +:+ after tag +:+ "[" +:+ ToString short +:+ ":"
          +:+ ToString oline +:+ "," +:+ ToString ocolumn +:+ "]".

(** What [buildWarnings] makes of a warning: the text it keeps, or
    nothing when there is no text that it could keep. *)
Definition rewritten (exec : string → option position_tag) (file : string)
    (map : consumer) (warningsFilter : value → completion value)
    (requestShortener : shortener) (warning : string) (text : option string)
    : Prop :=
  match text with
  | Some out => kept exec file map warningsFilter requestShortener warning out
  | None => ∀ out, ¬ kept exec file map warningsFilter requestShortener warning out
  end.

(** *** Samples *)

(** A matcher that knows the position of one warning. *)
Definition sample_exec (warning : string) : option position_tag :=
  if String.eqb warning "Dropping unused variable a [main.js:1,4]"
  then Some {| before := "Dropping unused variable a "; tag_line := 1;
               tag_column := 4; after := "" |}
  else None.

Definition sample_warnings : list string :=
  ["Dropping unused variable a [main.js:1,4]"].

(** A source map that sends every position to one place in [src/a.js]. *)
Definition sample_consumer : consumer :=
  {| originalPositionFor := λ _ _,
       Return (VObj [("source", VStr "src/a.js"); ("line", VNum 10);
                     ("column", VNum 2)]);
     consumer_data := VObj [("file", VStr "main.js")] |}.

(** A matcher that knows the positions of two warnings, a source map that
    sends the second one into [node_modules], and a filter that accepts
    the sources below [src] that it knows. *)
Definition mixed_exec (warning : string) : option position_tag :=
  if String.eqb warning "Condition always true [main.js:7,0]"
  then Some {| before := "Condition always true "; tag_line := 7;
               tag_column := 0; after := "" |}
  else sample_exec warning.

Definition mixed_warnings : list string :=
  ["Dropping unused variable a [main.js:1,4]"; "Condition always true [main.js:7,0]"].

Definition mixed_consumer : consumer :=
  {| originalPositionFor := λ line column,
       match line with
       | VNum 7 => Return (VObj [("source", VStr "node_modules/x.js");
                                 ("line", VNum 1); ("column", VNum 0)])
       | _ => originalPositionFor sample_consumer line column
       end;
     consumer_data := consumer_data sample_consumer |}.

Definition sample_filter (source : value) : completion value :=
  match source with
  | VStr s => Return (VBool (String.eqb s "src/a.js"))
  | _ => Return (VBool false)
  end.

(** ** The constructor of the plugin *)

(** The own enumerable properties that an object spread [...v] copies: the
    properties of an object, the elements of an array and the characters
    of a string under their indices, and nothing for any other value. *)
Definition own_properties (v : value) : list (string * value) :=
  match v with
  | VObj props => props
  | VArr elems => imap (λ i x, (pretty i, x)) elems
  | VStr s => imap (λ i c, (pretty i, VStr (String c ""))) (String.list_ascii_of_string s)
  | _ => []
  end.

(** [{ ...base, key: v }] on property lists: an existing key keeps its
    place and takes the new value, a new key goes to the end. *)
Fixpoint define (key : string) (v : value) (props : list (string * value))
    : list (string * value) :=
  match props with
  | [] => [(key, v)]
  | (k, x) :: rest =>
      if String.eqb k key then (k, v) :: rest else (k, x) :: define key v rest
  end.

(** [{ ...base, ...more }] *)
Definition spread (base more : list (string * value)) : list (string * value) :=
  foldl (λ acc kv, define kv.1 kv.2 acc) base more.

(** The fields of [this.options]. *)
Record plugin : Type := {
  test : value;
  warningsFilter : value;
  extractComments : value;
  sourceMap : value;
  parallel : value;
  uglifyOptions : value
}.

(** [this.options] as a value. *)
Definition options_value (this : plugin) : value :=
  VObj [("test", test this); ("warningsFilter", warningsFilter this);
        ("extractComments", extractComments this); ("sourceMap", sourceMap this);
        ("parallel", parallel this); ("uglifyOptions", uglifyOptions this)].

(** A destructured property with a default: the default replaces
    [undefined] only. *)
Definition or_default (v fallback : value) : value :=
  match v with
  | VUndefined => fallback
  | _ => v
  end.

(** The comments that are kept by default. *)
Definition default_comments : value := VRegExp "/^\**!|@preserve|@license|@cc_on/".

(** [constructor(options = {})] of [UglifyJsPlugin]. [valid] stands for
    what the schema accepts. *)
Definition UglifyJsPlugin (valid : value → bool) (options : value)
    : completion plugin :=
  let options := or_default options (VObj []) in
  if valid options then
    let! uglifyOptions := get options "uglifyOptions" in
    let! test := get options "test" in
    let! warningsFilter := get options "warningsFilter" in
    let! extractComments := get options "extractComments" in
    let! sourceMap := get options "sourceMap" in
    let! parallel := get options "parallel" in
    Return
      {| test := or_default test (VRegExp "/\.js$/i");
         warningsFilter := or_default warningsFilter (VFun "() => true");
         extractComments := extractComments;
         sourceMap := sourceMap;
         parallel := parallel;
         uglifyOptions :=
           VObj (spread [("output", VObj [("comments", default_comments)])]
                   (own_properties (or_default uglifyOptions (VObj [])))) |}
  else Throw ValidationError.

(** ** apply *)

(** The sources of [webpack-sources], as far as the plugin makes and tests
    them. [Emitted] is a source of any other class. *)
Inductive source : Type :=
| Emitted (id : nat)
| RawSource (code : value)
| SourceMapSource (code : value) (name : string) (map original innerMap : value)
| ConcatSource (children : list (string + source)).

(** [a instanceof ConcatSource] *)
Definition is_concat (a : source) : bool :=
  match a with
  | ConcatSource _ => true
  | _ => false
  end.

(** What the plugin uses and does not define: the modules it imports and
    the engine.
    - [matchObject file] is [ModuleFilenameHelpers.matchObject(this.options,
      file)].
    - [asset_source], [asset_map] and [asset_sourceAndMap] are the methods
      [source()], [map()] and [sourceAndMap()] of a source; the last is
      [None] for a source without that method.
    - [SourceMapConsumer] is the constructor of [source-map].
    - [call source v] applies the function with that source to [v].
    - [versions] are [versions.uglify] and [versions.plugin].
    - [JSON_text] is the text of a JSON document as a string, and
      [JSON_parse_text] is [JSON.parse] on a string.
    - [warningRegex_exec] is [warningRegex.exec].
    - [read_of_undefined] is the TypeError of reading a property of
      [undefined].
    - [RequestShortener context] is the object [new
      RequestShortener(context)]. *)
Record host : Type := {
  matchObject : string → bool;
  asset_source : source → completion value;
  asset_map : source → completion value;
  asset_sourceAndMap : source → option (completion value);
  SourceMapConsumer : value → completion consumer;
  call : string → value → completion value;
  versions : value * value;
  JSON_text : JSON.json → string;
  JSON_parse_text : string → completion value;
  warningRegex_exec : string → option position_tag;
  read_of_undefined : value;
  RequestShortener : value → shortener
}.

(** The compilation: [assets] maps a name to a source object, objects
    being told apart by their number, and [objects] says what each object
    is; [errors] and [warnings] are the two arrays;
    [additionalChunkAssets] may be missing; [compilation_shorten] is what
    the compilation answers to [shorten]: it has no such method when it is
    [None]. *)
Record compilation : Type := {
  assets : gmap string nat;
  objects : nat → source;
  fresh : nat;
  errors : list value;
  warnings : list value;
  additionalChunkAssets : option (list string);
  compilation_shorten : shortener
}.

(** [compilation.assets[name]] *)
Definition asset (c : compilation) (name : string) : option source :=
  objects c <$> assets c !! name.

(** [compilation.errors.push(err)] *)
Definition push_error (err : value) (c : compilation) : compilation :=
  {| assets := assets c; objects := objects c; fresh := fresh c;
     errors := errors c ++ [err]; warnings := warnings c;
     additionalChunkAssets := additionalChunkAssets c;
     compilation_shorten := compilation_shorten c |}.

(** [compilation.warnings.push(w)] *)
Definition push_warning (w : value) (c : compilation) : compilation :=
  {| assets := assets c; objects := objects c; fresh := fresh c;
     errors := errors c; warnings := warnings c ++ [w];
     additionalChunkAssets := additionalChunkAssets c;
     compilation_shorten := compilation_shorten c |}.

(** [compilation.assets[name] = a] for a new object [a]. *)
Definition assign (name : string) (a : source) (c : compilation) : compilation :=
  {| assets := <[name := fresh c]> (assets c);
     objects := λ o, if decide (o = fresh c) then a else objects c o;
     fresh := S (fresh c);
     errors := errors c; warnings := warnings c;
     additionalChunkAssets := additionalChunkAssets c;
     compilation_shorten := compilation_shorten c |}.

(** [a.add(x); a.add(y)] on the object [o]: the object itself changes,
    under every name that holds it. *)
Definition add_children (o : nat) (more : list (string + source)) (c : compilation)
    : compilation :=
  {| assets := assets c;
     objects := λ o',
       if decide (o' = o) then
         match objects c o with
         | ConcatSource children => ConcatSource (children ++ more)
         | a => a
         end
       else objects c o';
     fresh := fresh c;
     errors := errors c; warnings := warnings c;
     additionalChunkAssets := additionalChunkAssets c;
     compilation_shorten := compilation_shorten c |}.

(** What the body of [forEach] keeps of a file for the callback of
    [runTasks], and the task it pushes. *)
Record prepared : Type := {
  p_file : string;
  p_input : value;
  p_sourceMap : option consumer;
  p_inputSourceMap : value;
  p_commentsFile : value;
  p_task : task
}.

(** The variables of one call of the [optimize-chunk-assets] handler. *)
Record build : Type := {
  comp : compilation;
  tasks_built : list prepared;
  uglifiedAssets : gset nat
}.

(** The first part of the [try] block: [input], [inputSourceMap] and
    [sourceMap]. An exception leaves [sourceMap] unset. *)
Definition read_asset (h : host) (this : plugin) (a : option source)
    : completion (value * value * option consumer) :=
  match a with
  | None => Throw (read_of_undefined h)
  | Some a =>
      if truthy (sourceMap this) then
        let! both :=
          match asset_sourceAndMap h a with
          | Some sourceAndMap =>
              let! sm := sourceAndMap in
              let! inputSourceMap := get sm "map" in
              let! input := get sm "source" in
              Return (input, inputSourceMap)
          | None =>
              let! inputSourceMap := asset_map h a in
              let! input := asset_source h a in
              Return (input, inputSourceMap)
          end in
        let! consumer := SourceMapConsumer h both.2 in
        Return (both.1, both.2, Some consumer)
      else
        let! input := asset_source h a in
        Return (input, VUndefined, None)
  end.

(** [commentsFile] *)
Definition comments_file (h : host) (this : plugin) (file : string)
    : completion value :=
  if truthy (extractComments this) then
    let! filename := get (extractComments this) "filename" in
    match (if truthy filename then filename else VStr (file +:+ ".LICENSE")) with
    | VFun source => call h source (VStr file)
    | name => Return name
    end
  else Return (VBool false).

(** [cacheKey] *)
Definition cache_key (h : host) (e : environment) (this : plugin)
    (outputPath : value) (file : string) (input : value) : value :=
  match JSON.stringify_with (encode e)
          (VObj [("uglify-es", (versions h).1);
                 ("uglifyjs-webpack-plugin", (versions h).2);
                 ("uglifyjs-webpack-plugin-options", options_value this);
                 ("path", VStr (ToString outputPath +:+ "/" +:+ file));
                 ("input", input)]) with
  | Some doc => VStr (JSON_text h doc)
  | None => VUndefined
  end.

(** The object pushed on [tasks]. *)
Definition task_object (this : plugin) (key : value) (file : string)
    (input : value) (sm : option consumer) (inputSourceMap commentsFile : value)
    : task :=
  [("cacheKey", key); ("file", VStr file); ("input", input);
   ("sourceMap", match sm with Some c => consumer_data c | None => VUndefined end);
   ("inputSourceMap", inputSourceMap); ("commentsFile", commentsFile);
   ("extractComments", extractComments this);
   ("uglifyOptions", uglifyOptions this)].

Definition with_comp (c : compilation) (b : build) : build :=
  {| comp := c; tasks_built := tasks_built b; uglifiedAssets := uglifiedAssets b |}.

(** The [catch] block: [compilation.errors.push(UglifyJsPlugin.buildError(
    error, file, sourceMap, compilation, requestShortener))]. [buildError]
    has four parameters: its [requestShortener] is the fourth argument,
    [compilation], and the fifth argument is not looked at. *)
Definition report (error : value) (file : string) (sm : option consumer)
    (requestShortener : shortener) (b : build) : completion build :=
  let! err := buildError error file sm (compilation_shorten (comp b)) in
  Return (with_comp (push_error err (comp b)) b).

(** [uglifiedAssets.has(compilation.assets[file])] *)
Definition is_uglified (b : build) (file : string) : bool :=
  match assets (comp b) !! file with
  | Some o => bool_decide (o ∈ uglifiedAssets b)
  | None => false
  end.

(** The body of [forEach((file) => ...)]. *)
Definition prepare (h : host) (e : environment) (this : plugin)
    (outputPath : value) (requestShortener : shortener) (file : string) (b : build)
    : completion build :=
  if is_uglified b file then Return b
  else
    match read_asset h this (asset (comp b) file) with
    | Throw error => report error file None requestShortener b
    | Return (input, inputSourceMap, sm) =>
        match comments_file h this file with
        | Throw error => report error file sm requestShortener b
        | Return commentsFile =>
            Return
              {| comp := comp b;
                 tasks_built :=
                   tasks_built b ++
                   [{| p_file := file; p_input := input; p_sourceMap := sm;
                       p_inputSourceMap := inputSourceMap;
                       p_commentsFile := commentsFile;
                       p_task := task_object this
                                   (cache_key h e this outputPath file input)
                                   file input sm inputSourceMap commentsFile |}];
                 uglifiedAssets := uglifiedAssets b |}
        end
    end.

(** The files that the handler goes through:
    [chunks.reduce((acc, chunk) => acc.concat(chunk.files || []), [])
    .concat(compilation.additionalChunkAssets || []).filter(matchObject)].
    A chunk is given by its [files], which may be missing. *)
Definition files_of (h : host) (chunks : list (option (list string)))
    (c : compilation) : list string :=
  filter (λ file, matchObject h file = true)
    (foldl (λ acc chunk, acc ++ default [] chunk) [] chunks
     ++ default [] (additionalChunkAssets c)).

(** [forEach] over the files; an exception that escapes ends it. *)
Fixpoint prepare_all (h : host) (e : environment) (this : plugin)
    (outputPath : value) (requestShortener : shortener) (files : list string)
    (b : build) : completion build :=
  match files with
  | [] => Return b
  | file :: rest =>
      let! b' := prepare h e this outputPath requestShortener file b in
      prepare_all h e this outputPath requestShortener rest b'
  end.

(** What the task of a prepared file is: the object pushed for the values
    kept. *)
Definition well_prepared (h : host) (e : environment) (this : plugin)
    (outputPath : value) (p : prepared) : Prop :=
  p_task p = task_object this (cache_key h e this outputPath (p_file p) (p_input p))
               (p_file p) (p_input p) (p_sourceMap p) (p_inputSourceMap p)
               (p_commentsFile p).

(** ** The callback of runTasks *)

(** A result, as the callback reads it. [warnings] is [None] when the
    property is falsy. The callback is modelled for the results whose
    [warnings] and [extractedComments] are arrays of strings, which is
    what [minify] builds. *)
Record result : Type := {
  r_error : value;
  r_map : value;
  r_code : value;
  r_warnings : option (list string);
  r_extractedComments : list string
}.

(** An array of strings. *)
Definition strings_of (v : value) : option (list string) :=
  match v with
  | VArr elems =>
      mapM (λ x, match x with
                 | VStr s => Some s
                 | _ => None
                 end) elems
  | _ => None
  end.

(** [const { error, map, code, warnings, extractedComments } = data] for
    an object [data]. With an [error] the callback looks at nothing
    else. *)
Definition result_of (data : value) : option result :=
  match data with
  | VObj props =>
      let field key := default VUndefined (assoc key props) in
      if truthy (field "error") then
        Some {| r_error := field "error"; r_map := field "map";
                r_code := field "code"; r_warnings := None;
                r_extractedComments := [] |}
      else
        warnings ← (if truthy (field "warnings")
                     then Some <$> strings_of (field "warnings")
                     else Some None);
        extractedComments ← strings_of (field "extractedComments");
        Some {| r_error := field "error"; r_map := field "map";
                r_code := field "code"; r_warnings := warnings;
                r_extractedComments := extractedComments |}
  | _ => None
  end.

(** A call of an option that should be a function. *)
Definition apply_value (h : host) (f : value) (arg : value) : completion value :=
  match f with
  | VFun source => call h source arg
  | _ => Throw TypeError
  end.

(** The banner put before the output, if any: [None] when
    [extractComments.banner] is [false] or the banner is falsy. *)
Definition banner_of (h : host) (this : plugin) (commentsFile : value)
    : completion (option string) :=
  let! b := get (extractComments this) "banner" in
  match b with
  | VBool false => Return None
  | _ =>
      let! banner :=
        match (if truthy b then b
               else VStr ("For license information please see "
                          +:+ ToString commentsFile)) with
        | VFun source => call h source commentsFile
        | text => Return text
        end in
      Return (if truthy banner
              then Some ("/*! " +:+ ToString banner +:+ " */" +:+ newline)
              else None)
  end.

(** The source made of the extracted comments. *)
Definition comments_source (extractedComments : list string) : source :=
  RawSource (VStr (String.concat (newline +:+ newline) extractedComments
                   +:+ newline)).

(** Writing the comments under the name [commentsFile]: into the object
    that is there when it is a [ConcatSource], into a new [ConcatSource]
    around the object that is there when it is of another class, and as a
    new asset under a new name. *)
Definition write_comments (name : string) (commentsSource : source)
    (c : compilation) : compilation :=
  match assets c !! name with
  | Some o =>
      if is_concat (objects c o)
      then add_children o [inl newline; inr commentsSource] c
      else assign name
             (ConcatSource [inr (objects c o); inl newline; inr commentsSource]) c
  | None => assign name commentsSource c
  end.

(** [if (commentsFile && extractedComments.length > 0) { ... }]: the
    output, with its banner, and the compilation. *)
Definition extract (h : host) (this : plugin) (commentsFile : value)
    (extractedComments : list string) (outputSource : source) (c : compilation)
    : completion (source * compilation) :=
  if truthy commentsFile && negb (bool_decide (extractedComments = [])) then
    let! banner := banner_of h this commentsFile in
    Return (match banner with
            | Some text => ConcatSource [inl text; inr outputSource]
            | None => outputSource
            end,
            write_comments (ToString commentsFile)
              (comments_source extractedComments) c)
  else Return (outputSource, c).

(** [uglifiedAssets.add(compilation.assets[file] = outputSource)] *)
Definition replace_asset (file : string) (outputSource : source) (b : build)
    : build :=
  {| comp := assign file outputSource (comp b);
     tasks_built := tasks_built b;
     uglifiedAssets := {[fresh (comp b)]} ∪ uglifiedAssets b |}.

(** [if (warnings) { ... }] *)
Definition warn (h : host) (this : plugin) (requestShortener : shortener)
    (p : prepared) (r : result) (b : build) : completion build :=
  match r_warnings r with
  | None => Return b
  | Some warnings =>
      let! warnArr :=
        buildWarnings (warningRegex_exec h) warnings (p_file p) (p_sourceMap p)
          (apply_value h (warningsFilter this)) requestShortener in
      Return (if bool_decide (warnArr = []) then b
              else with_comp
                     (push_warning
                        (Error (p_file p +:+ " from UglifyJs" +:+ newline
                                +:+ String.concat newline warnArr))
                        (comp b)) b)
  end.

(** The body of [results.forEach((data, index) => ...)], for the task [p]
    and the result [r]. *)
Definition process (h : host) (this : plugin) (requestShortener : shortener)
    (p : prepared) (r : result) (b : build) : completion build :=
  if truthy (r_error r) then
    report (r_error r) (p_file p) (p_sourceMap p) requestShortener b
  else
    let! outputSource :=
      if truthy (r_map r) then
        let! map := JSON_parse_text h (ToString (r_map r)) in
        Return (SourceMapSource (r_code r) (p_file p) map (p_input p)
                  (p_inputSourceMap p))
      else Return (RawSource (r_code r)) in
    let! out := extract h this (p_commentsFile p) (r_extractedComments r)
                  outputSource (comp b) in
    warn h this requestShortener p r (replace_asset (p_file p) out.1 (with_comp out.2 b)).

(** [results.forEach] from [index] on: a hole of the array is passed
    over, and a result without a task makes the destructuring throw. *)
Fixpoint process_all (h : host) (this : plugin) (requestShortener : shortener)
    (index : nat) (results : list (option result)) (b : build) : completion build :=
  match results with
  | [] => Return b
  | None :: rest => process_all h this requestShortener (S index) rest b
  | Some r :: rest =>
      match tasks_built b !! index with
      | None => Throw (read_of_undefined h)
      | Some p =>
          let! b' := process h this requestShortener p r b in
          process_all h this requestShortener (S index) rest b'
      end
  end.

(** The callback [(tasksError, results) => ...]. The boolean says whether
    [uglify.exit()] and [callback()] were reached. *)
Definition finish (h : host) (this : plugin) (requestShortener : shortener)
    (tasksError : value) (results : list (option result)) (b : build)
    : completion (build * bool) :=
  if truthy tasksError then
    Return (with_comp (push_error tasksError (comp b)) b, false)
  else
    let! b' := process_all h this requestShortener 0 results b in
    Return (b', true).

(** The results that the dispatcher passes, as the callback reads them;
    [None] when one of them is outside the results modelled. *)
Definition results_of (results : list (option value)) : option (list (option result)) :=
  mapM (λ slot, match slot with
                | None => Some None
                | Some data => Some <$> result_of data
                end) results.

(** The handler of [optimize-chunk-assets] up to the return of
    [runTasks]: the dispatcher, the tasks and the state of the batch. *)
Definition optimize_chunk_assets (h : host) (pf : platform) (e : environment)
    (this : plugin) (outputPath context : value)
    (chunks : list (option (list string))) (c : compilation)
    : completion (dispatcher * build * state) :=
  let requestShortener := RequestShortener h context in
  let! d := constructor pf (parallel this) in
  let! b := prepare_all h e this outputPath requestShortener (files_of h chunks c)
              {| comp := c; tasks_built := []; uglifiedAssets := ∅ |} in
  Return (d, b, (runTasks d e (map p_task (tasks_built b))).1).

(** The number of results with an error. *)
Definition failures (results : list (option result)) : nat :=
  length (filter (λ slot, from_option (λ r, truthy (r_error r)) false slot = true)
            results).

(** What the inline worker hands to its callback for a task: the result
    of [minify], or what [minify] threw under [error]. *)
Definition minified (e : environment) (t : task) : value :=
  match minify e (VObj t) with
  | Return result => result
  | Throw errors => if truthy errors then VObj [("error", errors)] else VUndefined
  end.

(** The source made for a result without error: with the source map of
    the result when it has one. *)
Definition output_of (p : prepared) (r : result) (output : source) : Prop :=
  if truthy (r_map r)
  then ∃ map, output = SourceMapSource (r_code r) (p_file p) map (p_input p)
                         (p_inputSourceMap p)
  else output = RawSource (r_code r).

(** ** A build used in the examples *)

(** The text of a document, without escapes in the strings. *)
Fixpoint sample_text (doc : JSON.json) : string :=
  let quoted s := String (Ascii.ascii_of_nat 34) s
                  +:+ String (Ascii.ascii_of_nat 34) "" in
  match doc with
  | JSON.JNull => "null"
  | JSON.JBool b => if b then "true" else "false"
  | JSON.JNum n => pretty n
  | JSON.JStr s => quoted s
  | JSON.JArr elems => "[" +:+ String.concat "," (map sample_text elems) +:+ "]"
  | JSON.JObj members =>
      "{" +:+ String.concat ","
                (map (λ member, match member with
                                | (key, x) => quoted key +:+ ":" +:+ sample_text x
                                end) members)
      +:+ "}"
  end.

(** A host that matches the two scripts, reads the code of a raw source,
    has one source map for everything and answers every call with [true]. *)
Definition sample_host : host :=
  {| matchObject := λ file, String.eqb file "main.js" || String.eqb file "vendor.js";
     asset_source := λ a, match a with
                          | RawSource code => Return code
                          | _ => Throw (Error "not a raw source")
                          end;
     asset_map := λ _, Return VNull;
     asset_sourceAndMap := λ _, None;
     SourceMapConsumer := λ _, Return sample_consumer;
     call := λ _ _, Return (VBool true);
     versions := (VStr "3.1.3", VStr "1.0.0");
     JSON_text := sample_text;
     JSON_parse_text := λ _, Return (VObj [("version", VNum 3)]);
     warningRegex_exec := sample_exec;
     read_of_undefined := TypeError;
     RequestShortener := λ _, Some (λ source, Return source) |}.

(** The options that the constructor leaves for the options [{}], with a
    given [extractComments]. *)
Definition sample_plugin (extractComments : value) : plugin :=
  {| test := VRegExp "/\.js$/i";
     warningsFilter := VFun "() => true";
     extractComments := extractComments;
     sourceMap := VUndefined;
     parallel := VUndefined;
     uglifyOptions := VObj [("output", VObj [("comments", default_comments)])] |}.

(** A script, a style sheet and a file of licenses that is a
    [ConcatSource] and has two names. [vendor.js] is an additional chunk
    asset for which the compilation holds nothing. *)
Definition sample_compilation : compilation :=
  {| assets := {[ "main.js" := 0%nat; "style.css" := 1%nat;
                  "main.js.LICENSE" := 2%nat; "licenses.txt" := 2%nat ]};
     objects := λ o, match o with
                     | 0%nat => RawSource (VStr "x=1;")
                     | 1%nat => RawSource (VStr "body{}")
                     | 2%nat => ConcatSource [inl "MIT"]
                     | _ => Emitted o
                     end;
     fresh := 3%nat;
     errors := [];
     warnings := [];
     additionalChunkAssets := Some ["vendor.js"];
     compilation_shorten := None |}.

(** The first script is a file of two chunks. *)
Definition sample_chunks : list (option (list string)) :=
  [Some ["main.js"; "style.css"]; None; Some ["main.js"]].

(** The variables of the handler with no task and no uglified asset. *)
Definition initial_build (c : compilation) : build :=
  {| comp := c; tasks_built := []; uglifiedAssets := ∅ |}.

(** The build after the preparation of the files, with comments to
    extract: two tasks for [main.js] and an error for [vendor.js]. *)
Definition sample_build : build :=
  match prepare_all sample_host (sample_environment nothing_cached)
          (sample_plugin (VBool true)) (VStr "dist")
          (RequestShortener sample_host (VStr "/app"))
          (files_of sample_host sample_chunks sample_compilation)
          (initial_build sample_compilation) with
  | Return b => b
  | Throw _ => initial_build sample_compilation
  end.

(** A task for [main.js] with a source map. *)
Definition mapped_task : prepared :=
  {| p_file := "main.js"; p_input := VStr "x=1;"; p_sourceMap := Some sample_consumer;
     p_inputSourceMap := VNull; p_commentsFile := VBool false; p_task := [] |}.

(** A result with one comment, and a result with an error that has a
    position. *)
Definition commented_result : result :=
  {| r_error := VUndefined; r_map := VUndefined; r_code := VStr "x=1;";
     r_warnings := None; r_extractedComments := ["/*! MIT */"] |}.

Definition failed_result : result :=
  {| r_error := syntax_error; r_map := VUndefined; r_code := VUndefined;
     r_warnings := None; r_extractedComments := [] |}.

(** A Compute Function that answers with every property of a result: the
    input as the code, and one extracted comment. It throws on the input
    [y=]. *)
Definition complete_minify (opt : value) : completion value :=
  match get opt "input" with
  | Return (VStr input) =>
      if String.eqb input "y=" then Throw syntax_error
      else Return (VObj [("error", VUndefined); ("map", VUndefined);
                         ("code", VStr input); ("warnings", VUndefined);
                         ("extractedComments", VArr [VStr "/*! MIT */"])])
  | _ => Throw (VObj [("message", VStr "no input")])
  end.

Definition complete_environment : environment :=
  {| minify := complete_minify;
     encode := tagging_encode;
     cacache_get := nothing_cached;
     workerFarm := λ _ req, worker_unit json_boundary complete_minify req;
     cacache_put := Nat.odd |}.

(** * Properties *)

(** ** Arrays with holes *)

Section arrays.
Implicit Types (a : list (option value)) (i j : nat) (v : value).

Lemma slot_array_set a i v j :
  slot (array_set a i v) j = if decide (i = j) then Some v else slot a j.
Proof.
  unfold slot, array_set. destruct (decide (i < length a)%nat) as [Hlt|Hge].
  - destruct (decide (i = j)) as [->|Hne].
    + by rewrite list_lookup_insert_eq.
    + by rewrite list_lookup_insert_ne.
  - destruct (decide (i = j)) as [<-|Hne].
    + rewrite lookup_app_r by lia. rewrite lookup_app_r; rewrite length_replicate; [|lia].
      by replace (i - length a - (i - length a))%nat with 0%nat by lia.
    + destruct (decide (j < length a)%nat).
      * by rewrite lookup_app_l.
      * rewrite lookup_app_r by lia. rewrite (lookup_ge_None_2 a j) by lia.
        destruct (decide (j < i)%nat).
        -- rewrite lookup_app_l by (rewrite length_replicate; lia).
           rewrite lookup_replicate_2 by lia. done.
        -- rewrite lookup_ge_None_2; [done|].
           rewrite length_app, length_replicate. simpl. lia.
Qed.

Lemma length_array_set a i v :
  length (array_set a i v) = Nat.max (length a) (S i).
Proof.
  unfold array_set. case_decide.
  - rewrite length_insert. lia.
  - rewrite !length_app, length_replicate. simpl. lia.
Qed.

Lemma filled_app a b : filled (a ++ b) = (filled a + filled b)%nat.
Proof. induction a as [|[x|] a IH]; simpl; lia. Qed.

Lemma filled_replicate_None n : filled (replicate n None) = 0%nat.
Proof. induction n as [|n IH]; [done|]. exact IH. Qed.

Lemma filled_le_length a : (filled a ≤ length a)%nat.
Proof. induction a as [|[x|] a IH]; simpl; lia. Qed.

Lemma filled_insert a i v :
  (i < length a)%nat → slot a i = None →
  filled (<[i := Some v]> a) = S (filled a).
Proof.
  revert i. induction a as [|x a IH]; intros i Hlt Hslot; simpl in *; [lia|].
  destruct i as [|i].
  - unfold slot in Hslot. simpl in Hslot. by destruct x.
  - assert (Hi : (i < length a)%nat) by lia.
    specialize (IH i Hi Hslot). simpl. destruct x; simpl; rewrite IH; done.
Qed.

Lemma filled_array_set a i v :
  slot a i = None → filled (array_set a i v) = S (filled a).
Proof.
  intros Hslot. unfold array_set. case_decide.
  - by apply filled_insert.
  - rewrite !filled_app, filled_replicate_None. simpl. lia.
Qed.

(** An array without holes is as long as its number of filled elements. *)
Lemma filled_full a i :
  filled a = length a → (i < length a)%nat → is_Some (slot a i).
Proof.
  revert i. induction a as [|x a IH]; intros i Hfull Hlt; simpl in *; [lia|].
  pose proof (filled_le_length a) as Hle.
  destruct x as [x|]; [|lia].
  destruct i as [|i]; [by eexists|].
  apply IH; lia.
Qed.

End arrays.

(** ** The invariant is kept *)

Section invariant.
Context (d : dispatcher) (e : environment) (tasks : list task).
Implicit Types (st : state) (i j n : nat) (t : task) (k : kont) (v : value).

Lemma filled_lt_bound (a : list (option value)) i n :
  (length a ≤ n)%nat → (i < n)%nat → slot a i = None → (filled a < n)%nat.
Proof.
  intros Hlen Hi Hslot. pose proof (filled_le_length a) as Hle.
  destruct (decide (filled a = length a)) as [Hfull|]; [|lia].
  destruct (decide (i < length a)%nat) as [Hlt|]; [|lia].
  destruct (filled_full a i Hfull Hlt) as [x Hx]. congruence.
Qed.

(** The three variables of [step] after one more result is recorded. *)
Lemma step_counts st i v n :
  toRun st = Z.of_nat (length tasks) - Z.of_nat (filled (results st)) →
  called st = (if toRun st =? 0 then [(VNull, results st)] else []) →
  (length (results st) ≤ n)%nat → (n ≤ length tasks)%nat → (i < n)%nat →
  slot (results st) i = None →
  toRun (step i v st)
    = Z.of_nat (length tasks) - Z.of_nat (filled (results (step i v st))) ∧
  called (step i v st)
    = (if toRun (step i v st) =? 0 then [(VNull, results (step i v st))] else []) ∧
  (length (results (step i v st)) ≤ n)%nat.
Proof.
  intros HtoRun Hcalled Hlen Hn Hi Hslot.
  pose proof (filled_lt_bound _ _ _ Hlen Hi Hslot) as Hlt.
  simpl. rewrite filled_array_set by done. rewrite length_array_set.
  split_and!; [lia| |lia].
  rewrite Hcalled. destruct (toRun st =? 0) eqn:Hz; [lia|].
  by destruct (toRun st - 1 =? 0).
Qed.

Lemma task_ok_frame n n' st st' j t :
  pending st' !! j = pending st !! j →
  slot (results st') j = slot (results st) j →
  (j ∈ invoked st' ↔ j ∈ invoked st) →
  ((j < n)%nat ↔ (j < n')%nat) →
  task_ok d e n st j t → task_ok d e n' st' j t.
Proof.
  unfold task_ok. intros -> -> Hinv Hn.
  destruct (pending st !! j) as [k|].
  - rewrite Hinv. tauto.
  - do 2 case_decide; rewrite ?Hinv; tauto.
Qed.

(** A transition that touches task [i] only. *)
Lemma invariant_update n n' i t st st' :
  invariant d e tasks n st → tasks !! i = Some t →
  (n' ≤ length tasks)%nat →
  (∀ j, j ≠ i → (j < n)%nat ↔ (j < n')%nat) →
  (∀ j, j ≠ i → pending st' !! j = pending st !! j) →
  (∀ j, j ≠ i → slot (results st') j = slot (results st) j) →
  (∀ j, j ≠ i → j ∈ invoked st' ↔ j ∈ invoked st) →
  task_ok d e n' st' i t →
  (length (results st') ≤ n')%nat →
  toRun st' = Z.of_nat (length tasks) - Z.of_nat (filled (results st')) →
  called st' = (if toRun st' =? 0 then [(VNull, results st')] else []) →
  (installed st' = None ∨ installed st' = Some (choose d)) →
  NoDup (invoked st') →
  invariant d e tasks n' st'.
Proof.
  intros Hinv Ht Hn' Hnn Hpend Hslot Hinvk Hi Hlen HtoRun Hcalled Hinst Hnodup.
  split; try done.
  - intros j tj Htj. destruct (decide (j = i)) as [->|Hne].
    + by simplify_eq.
    + eapply task_ok_frame; [by apply Hpend|by apply Hslot|by apply Hinvk|by apply Hnn|].
      by apply (inv_tasks _ _ _ _ _ Hinv).
  - intros j Hj. destruct (decide (j = i)) as [->|Hne].
    + by eapply lookup_lt_Some.
    + rewrite Hpend in Hj by done. by apply (inv_dom _ _ _ _ _ Hinv).
Qed.


Lemma logs_frame st st' i j :
  logs st st' i → j ≠ i → j ∈ invoked st' ↔ j ∈ invoked st.
Proof.
  intros [->|[-> _]] Hne; [done|]. rewrite elem_of_app, list_elem_of_singleton. tauto.
Qed.

Lemma logs_NoDup st st' i :
  logs st st' i → NoDup (invoked st) → NoDup (invoked st').
Proof.
  intros [->|[-> Hni]] Hnd; [done|]. apply NoDup_app. split_and!; [done| |apply NoDup_singleton].
  intros x Hx. rewrite list_elem_of_singleton. by intros ->.
Qed.

(** Task [i] settles with the result [v]. *)
Lemma invariant_settle n n' i t st st' v :
  invariant d e tasks n st → tasks !! i = Some t →
  (n' ≤ length tasks)%nat → (i < n')%nat →
  (∀ j, j ≠ i → (j < n)%nat ↔ (j < n')%nat) →
  slot (results st) i = None →
  outcome d e i t = Some v →
  results st' = array_set (results st) i v →
  toRun st' = toRun st - 1 →
  called st' = (if toRun st - 1 =? 0
                then called st ++ [(VNull, array_set (results st) i v)]
                else called st) →
  pending st' = delete i (pending st) →
  logs st st' i → (i ∈ invoked st' ↔ misses d e i) →
  (installed st' = None ∨ installed st' = Some (choose d)) →
  invariant d e tasks n' st'.
Proof.
  intros Hinv Ht Hn' Hi Hnn Hslot Hout Hres HtoRun Hcalled Hpend Hlogs Hinvk Hinst.
  assert (Hlen : (length (results st) ≤ n')%nat).
  { pose proof (inv_length _ _ _ _ _ Hinv) as Hl.
    destruct (decide (n ≤ n')%nat); [lia|].
    destruct (decide (i = n')) as [->|Hne]; [lia|].
    specialize (Hnn n' (not_eq_sym Hne)). lia. }
  destruct (step_counts st i v n' (inv_toRun _ _ _ _ _ Hinv)
              (inv_called _ _ _ _ _ Hinv) Hlen Hn' Hi Hslot) as (Hc1 & Hc2 & Hc3).
  simpl in Hc1, Hc2, Hc3.
  eapply invariant_update; try done.
  - intros j Hne. rewrite Hpend. by apply lookup_delete_ne.
  - intros j Hne. rewrite Hres, slot_array_set. by case_decide.
  - intros j Hne. by eapply logs_frame.
  - unfold task_ok. rewrite Hpend, lookup_delete_eq. rewrite decide_True by done.
    rewrite Hres, slot_array_set, decide_True by done. by rewrite Hout.
  - by rewrite Hres.
  - by rewrite HtoRun, Hres.
  - by rewrite HtoRun, Hres, Hcalled.
  - eapply logs_NoDup; [done|]. by apply (inv_invoked_once _ _ _ _ _ Hinv).
Qed.

(** Task [i] goes on waiting, with the continuation [k]. *)
Lemma invariant_park n n' i t st st' k :
  invariant d e tasks n st → tasks !! i = Some t →
  (n' ≤ length tasks)%nat → (i < n')%nat →
  (∀ j, j ≠ i → (j < n)%nat ↔ (j < n')%nat) →
  slot (results st) i = None →
  kont_ok d e i t k →
  results st' = results st → toRun st' = toRun st → called st' = called st →
  pending st' = <[i := k]> (delete i (pending st)) →
  logs st st' i → (i ∈ invoked st' ↔ k ≠ KGet) →
  (installed st' = None ∨ installed st' = Some (choose d)) →
  invariant d e tasks n' st'.
Proof.
  intros Hinv Ht Hn' Hi Hnn Hslot Hk Hres HtoRun Hcalled Hpend Hlogs Hinvk Hinst.
  assert (Hlen : (length (results st) ≤ n')%nat).
  { pose proof (inv_length _ _ _ _ _ Hinv) as Hl.
    destruct (decide (n ≤ n')%nat); [lia|].
    destruct (decide (i = n')) as [->|Hne]; [lia|].
    specialize (Hnn n' (not_eq_sym Hne)). lia. }
  eapply invariant_update; try done.
  - intros j Hne. rewrite Hpend. rewrite lookup_insert_ne by done. by apply lookup_delete_ne.
  - intros j Hne. by rewrite Hres.
  - intros j Hne. by eapply logs_frame.
  - unfold task_ok. rewrite Hpend, lookup_insert_eq. by rewrite Hres.
  - by rewrite Hres.
  - rewrite HtoRun, Hres. by apply (inv_toRun _ _ _ _ _ Hinv).
  - rewrite HtoRun, Hres, Hcalled. by apply (inv_called _ _ _ _ _ Hinv).
  - eapply logs_NoDup; [done|]. by apply (inv_invoked_once _ _ _ _ _ Hinv).
Qed.

(** Nothing remains to run for task [i], and nothing was recorded. *)
Lemma invariant_drop n n' i t st st' :
  invariant d e tasks n st → tasks !! i = Some t →
  (n' ≤ length tasks)%nat → (i < n')%nat →
  (∀ j, j ≠ i → (j < n)%nat ↔ (j < n')%nat) →
  slot (results st) i = None →
  outcome d e i t = None →
  results st' = results st → toRun st' = toRun st → called st' = called st →
  pending st' = delete i (pending st) →
  logs st st' i → (i ∈ invoked st' ↔ misses d e i) →
  (installed st' = None ∨ installed st' = Some (choose d)) →
  invariant d e tasks n' st'.
Proof.
  intros Hinv Ht Hn' Hi Hnn Hslot Hout Hres HtoRun Hcalled Hpend Hlogs Hinvk Hinst.
  assert (Hlen : (length (results st) ≤ n')%nat).
  { pose proof (inv_length _ _ _ _ _ Hinv) as Hl.
    destruct (decide (n ≤ n')%nat); [lia|].
    destruct (decide (i = n')) as [->|Hne]; [lia|].
    specialize (Hnn n' (not_eq_sym Hne)). lia. }
  eapply invariant_update; try done.
  - intros j Hne. rewrite Hpend. by apply lookup_delete_ne.
  - intros j Hne. by rewrite Hres.
  - intros j Hne. by eapply logs_frame.
  - unfold task_ok. rewrite Hpend, lookup_delete_eq. rewrite decide_True by done.
    by rewrite Hres, Hslot, Hout.
  - by rewrite Hres.
  - rewrite HtoRun, Hres. by apply (inv_toRun _ _ _ _ _ Hinv).
  - rewrite HtoRun, Hres, Hcalled. by apply (inv_called _ _ _ _ _ Hinv).
  - eapply logs_NoDup; [done|]. by apply (inv_invoked_once _ _ _ _ _ Hinv).
Qed.

(** *** The callback of the worker *)

Lemma on_worker_no_cache error data :
  truthy (cache d) = false →
  on_worker d error data
    = Return (Deliver (if truthy error then VObj [("error", error)] else data)).
Proof. unfold on_worker. by intros ->. Qed.

Lemma on_worker_store error data result blob :
  on_worker d error data = Return (Store result blob) → truthy (cache d) = true.
Proof.
  unfold on_worker. destruct (truthy (cache d)); [done|]. discriminate.
Qed.

Lemma inline_no_cache t :
  truthy (cache d) = false → ∃ result, inline d e t = Return (Deliver result).
Proof.
  intros Hc. unfold inline.
  destruct (minify e (VObj t)); rewrite !on_worker_no_cache by done; eauto.
Qed.

Lemma inline_store t result blob :
  inline d e t = Return (Store result blob) → truthy (cache d) = true.
Proof.
  unfold inline. destruct (minify e (VObj t)) as [r|ex].
  - destruct (on_worker d VNull r) as [a|ex] eqn:Hw.
    + intros [= ->]. by eapply on_worker_store.
    + apply on_worker_store.
  - apply on_worker_store.
Qed.

Lemma outcome_misses i t :
  misses d e i → outcome d e i t = computed d e i t.
Proof.
  unfold misses, outcome. destruct (truthy (cache d)); [|done].
  intros ->; done.
Qed.

Lemma not_misses i data :
  truthy (cache d) = true → cacache_get e i = Some data → ¬ misses d e i.
Proof. unfold misses. intros Hc Hg Hm. specialize (Hm Hc). congruence. Qed.

(** *** enqueue *)

Lemma enqueue_invariant n n' i t st :
  invariant d e tasks n st → tasks !! i = Some t →
  (n' ≤ length tasks)%nat → (i < n')%nat →
  (∀ j, j ≠ i → (j < n)%nat ↔ (j < n')%nat) →
  slot (results st) i = None → i ∉ invoked st → misses d e i →
  invariant d e tasks n' (enqueue d e t i (resume i st)).1.
Proof.
  intros Hinv Ht Hn' Hi Hnn Hslot Hni Hmiss.
  assert (Hkind : default (choose d) (installed (resume i st)) = choose d).
  { simpl. by destruct (inv_installed _ _ _ _ _ Hinv) as [->| ->]. }
  assert (Hin : i ∈ invoked st ++ [i]).
  { rewrite elem_of_app, list_elem_of_singleton. by right. }
  unfold enqueue, worker. rewrite Hkind.
  pose proof (outcome_misses i t Hmiss) as Hout. unfold computed in Hout.
  destruct (choose d) eqn:Hchoose; simpl.
  - eapply (invariant_park n n' i t st _ (KFarm (request e t))); try done.
    + by right.
    + right. by rewrite Hchoose.
  - destruct (inline d e t) as [[result|result blob]|ex] eqn:Hinl; simpl.
    + eapply (invariant_settle n n' i t st _ result); try done.
      * by right.
      * right. by rewrite Hchoose.
    + eapply (invariant_park n n' i t st _ (KPut result)); try done.
      * split_and!; [by eapply inline_store|done|].
        unfold computed. by rewrite Hchoose, Hinl.
      * by right.
      * right. by rewrite Hchoose.
    + eapply (invariant_drop n n' i t st); try done.
      * by right.
      * right. by rewrite Hchoose.
Qed.

(** *** The runtime fires a continuation *)

Lemma fire_invariant i st st' :
  invariant d e tasks (length tasks) st → fire d e tasks i st = Some st' →
  invariant d e tasks (length tasks) st'.
Proof.
  intros Hinv. unfold fire.
  destruct (tasks !! i) as [t|] eqn:Ht; [|done].
  destruct (pending st !! i) as [k|] eqn:Hk; [|done].
  intros [= <-].
  pose proof (inv_tasks _ _ _ _ _ Hinv i t Ht) as Hok.
  pose proof (inv_installed _ _ _ _ _ Hinv) as Hinst.
  unfold task_ok in Hok. rewrite Hk in Hok. destruct Hok as (Hi & Hslot & Hkont & Hinvk).
  destruct k as [|req|result]; simpl in Hkont.
  - assert (Hni : i ∉ invoked st) by tauto.
    destruct (cacache_get e i) as [data|] eqn:Hget.
    + pose proof (not_misses i data Hkont Hget) as Hnm.
      assert (Hout : outcome d e i t = JSON.parse data).
      { unfold outcome. by rewrite Hkont, Hget. }
      destruct (JSON.parse data) as [v|] eqn:Hparse.
      * eapply (invariant_settle _ _ i t st _ v); try done. by left.
      * eapply (invariant_drop _ _ i t st); try done. by left.
    + eapply (enqueue_invariant (length tasks)); try done.
      unfold misses. by intros _.
  - destruct Hkont as (Hchoose & -> & Hmiss).
    assert (Hin : i ∈ invoked st) by (apply Hinvk; done).
    pose proof (outcome_misses i t Hmiss) as Hout. unfold computed in Hout.
    rewrite Hchoose in Hout.
    destruct (on_worker d _ _) as [[result|result blob]|ex] eqn:Hw; simpl in Hout.
    + eapply (invariant_settle _ _ i t st _ result); try done. by left.
    + eapply (invariant_park _ _ i t st _ (KPut result)); try done.
      * split_and!; [by eapply on_worker_store|done|].
        unfold computed. by rewrite Hchoose, Hw.
      * by left.
    + eapply (invariant_drop _ _ i t st); try done. by left.
  - destruct Hkont as (Hc & Hmiss & Hcomp).
    assert (Hin : i ∈ invoked st) by (apply Hinvk; done).
    assert (Hout : outcome d e i t = Some result) by (by rewrite outcome_misses).
    destruct (cacache_put e i);
      (eapply (invariant_settle _ _ i t st _ result); try done; by left).
Qed.

Lemma run_invariant schedule st st' :
  invariant d e tasks (length tasks) st → run d e tasks schedule st = Some st' →
  invariant d e tasks (length tasks) st'.
Proof.
  revert st. induction schedule as [|i schedule IH]; intros st Hinv; simpl.
  - by intros [= <-].
  - destruct (fire d e tasks i st) as [st1|] eqn:Hfire; [|done].
    apply IH. by eapply fire_invariant.
Qed.

(** *** The loop of runTasks *)

Lemma resume_idle i st : pending st !! i = None → resume i st = st.
Proof.
  intros Hnone. destruct st. unfold resume. simpl in *. f_equal. by apply delete_id.
Qed.

Lemma dispatch_invariant n t st :
  invariant d e tasks n st → tasks !! n = Some t →
  invariant d e tasks (S n) (dispatch d e t n st).1 ∧ (dispatch d e t n st).2 = None.
Proof.
  intros Hinv Ht.
  pose proof (lookup_lt_Some _ _ _ Ht) as Hlt.
  pose proof (inv_tasks _ _ _ _ _ Hinv n t Ht) as Hok. unfold task_ok in Hok.
  destruct (pending st !! n) as [k|] eqn:Hk; [lia|].
  rewrite decide_False in Hok by lia. destruct Hok as [Hslot Hni].
  assert (Hnn : ∀ j, j ≠ n → (j < n)%nat ↔ (j < S n)%nat) by (intros; lia).
  unfold dispatch. destruct (truthy (cache d)) eqn:Hc; simpl.
  - split; [|done].
    eapply (invariant_park n (S n) n t st _ KGet); try done.
    + lia.
    + simpl. by rewrite insert_delete_eq.
    + by left.
    + by apply (inv_installed _ _ _ _ _ Hinv).
  - assert (Hmiss : misses d e n) by (unfold misses; congruence).
    split.
    + rewrite <- (resume_idle n st Hk) at 1. eapply (enqueue_invariant n); try done; lia.
    + unfold enqueue, worker. destruct (default (choose d) (installed st)); [done|].
      destruct (inline_no_cache t Hc) as [result ->]. done.
Qed.

Lemma forEach_invariant rest n st :
  (∀ j t, rest !! j = Some t → tasks !! (n + j)%nat = Some t) →
  (n + length rest = length tasks)%nat →
  invariant d e tasks n st →
  invariant d e tasks (length tasks) (forEach d e n rest st).1 ∧
  (forEach d e n rest st).2 = None.
Proof.
  revert n st. induction rest as [|t rest IH]; intros n st Hrest Hlen Hinv; simpl in *.
  - replace (length tasks) with n by lia. done.
  - assert (Ht : tasks !! n = Some t).
    { specialize (Hrest 0%nat t eq_refl). by rewrite Nat.add_0_r in Hrest. }
    destruct (dispatch_invariant n t st Hinv Ht) as [Hinv' Hnone].
    destruct (dispatch d e t n st) as [st1 [ex|]]; simpl in *; [done|].
    apply IH; [|lia|done].
    intros j tj Hj. specialize (Hrest (S j) tj Hj).
    by replace (S n + j)%nat with (n + S j)%nat by lia.
Qed.

End invariant.

(** [runTasks] returns without an exception and leaves a store that
    satisfies the invariant. *)
Lemma runTasks_invariant d e tasks :
  invariant d e tasks (length tasks) (runTasks d e tasks).1 ∧
  (runTasks d e tasks).2 = None.
Proof.
  destruct tasks as [|t0 rest].
  - split; [|done]. split; simpl; try done.
    + intros i Hi. rewrite lookup_empty in Hi. by destruct Hi.
    + by left.
    + constructor.
  - unfold runTasks. apply forEach_invariant; [done|done|].
    split; simpl; try done.
    + lia.
    + intros i t Ht. unfold task_ok. cbn [pending results invoked]. rewrite lookup_empty.
      case_decide; [lia|]. split; [done|]. apply not_elem_of_nil.
    + intros i Hi. rewrite lookup_empty in Hi. by destruct Hi.
    + by left.
    + constructor.
Qed.

(** Every store an execution reaches satisfies the invariant. *)
Lemma execute_invariant d e tasks schedule st :
  execute d e tasks schedule = Some st →
  invariant d e tasks (length tasks) st.
Proof.
  unfold execute. apply run_invariant. apply runTasks_invariant.
Qed.

(** ** Every execution comes to rest *)

Section progress.
Context (d : dispatcher) (e : environment) (tasks : list task).
Implicit Types (st : state) (i : nat) (k : kont) (m : gmap nat kont).

Lemma weigh_delete m i k :
  m !! i = Some k → weigh m = (kont_weight k + weigh (delete i m))%nat.
Proof.
  intros Hk. unfold weigh.
  rewrite (map_fold_delete_L (λ _ k acc, (kont_weight k + acc)%nat) 0%nat i k m);
    [done| |done].
  intros; lia.
Qed.

Lemma weigh_insert m i k :
  m !! i = None → weigh (<[i := k]> m) = (kont_weight k + weigh m)%nat.
Proof.
  intros Hk. unfold weigh.
  rewrite (map_fold_insert_L (λ _ k acc, (kont_weight k + acc)%nat) 0%nat i k m);
    [done| |done].
  intros; lia.
Qed.

Lemma weigh_replace m i k k' :
  m !! i = Some k →
  (weigh (<[i := k']> (delete i m)) + kont_weight k = weigh m + kont_weight k')%nat.
Proof.
  intros Hk. rewrite weigh_insert by apply lookup_delete_eq.
  rewrite (weigh_delete m i k Hk). lia.
Qed.

Lemma fire_weight i st st' :
  fire d e tasks i st = Some st' → (weight st' < weight st)%nat.
Proof.
  unfold fire. destruct (tasks !! i) as [t|]; [|done].
  destruct (pending st !! i) as [k|] eqn:Hk; [|done].
  intros [= <-]. unfold weight.
  pose proof (weigh_delete _ _ _ Hk) as Hdel.
  assert (Hput : ∀ r, (weigh (<[i := KPut r]> (delete i (pending st))) + kont_weight k
                       = weigh (pending st) + 1)%nat).
  { intros r. by rewrite (weigh_replace _ i k (KPut r) Hk). }
  assert (Hfarm : ∀ r, (weigh (<[i := KFarm r]> (delete i (pending st))) + kont_weight k
                       = weigh (pending st) + 2)%nat).
  { intros r. by rewrite (weigh_replace _ i k (KFarm r) Hk). }
  destruct k as [|req|result]; simpl in Hdel, Hput, Hfarm.
  - destruct (cacache_get e i) as [data|].
    + destruct (JSON.parse data); simpl; lia.
    + unfold enqueue, worker. destruct (default (choose d) _); simpl.
      * specialize (Hfarm (request e t)). lia.
      * destruct (inline d e t) as [[r|r blob]|ex]; simpl; [lia| |lia].
        specialize (Hput r). lia.
  - destruct (on_worker d _ _) as [[r|r blob]|ex]; simpl; [lia| |lia].
    specialize (Hput r). lia.
  - destruct (cacache_put e i); simpl; lia.
Qed.

(** A waiting continuation of a reachable store can be fired. *)
Lemma fire_enabled i k st :
  invariant d e tasks (length tasks) st → pending st !! i = Some k →
  is_Some (fire d e tasks i st).
Proof.
  intros Hinv Hk.
  assert (Hi : (i < length tasks)%nat) by (apply (inv_dom _ _ _ _ _ Hinv); eauto).
  destruct (lookup_lt_is_Some_2 tasks i Hi) as [t Ht].
  unfold fire. rewrite Ht, Hk. eauto.
Qed.

Lemma comes_to_rest st :
  invariant d e tasks (length tasks) st →
  ∃ more st', run d e tasks more st = Some st' ∧ quiescent st' ∧
              (length more ≤ weight st)%nat.
Proof.
  remember (weight st) as w eqn:Hw. revert st Hw.
  induction (lt_wf w) as [w _ IH]. intros st -> Hinv.
  destruct (map_choose_or_empty (pending st)) as [(i & k & Hk)|Hempty].
  - destruct (fire_enabled i k st Hinv Hk) as [st1 Hfire].
    pose proof (fire_weight i st st1 Hfire) as Hlt.
    destruct (IH (weight st1) Hlt st1 eq_refl) as (more & st' & Hrun & Hq & Hlen).
    { by eapply fire_invariant. }
    exists (i :: more), st'. simpl. rewrite Hfire. split_and!; [done|done|lia].
  - exists [], st. split_and!; [done|done|simpl; lia].
Qed.

Lemma run_app s1 s2 st :
  run d e tasks (s1 ++ s2) st
  = match run d e tasks s1 st with
    | Some st' => run d e tasks s2 st'
    | None => None
    end.
Proof.
  revert st. induction s1 as [|i s1 IH]; intros st; simpl; [done|].
  destruct (fire d e tasks i st); [apply IH|done].
Qed.

End progress.

(** Every execution can be continued until no continuation is waiting. *)
Lemma execution_comes_to_rest d e tasks schedule st :
  execute d e tasks schedule = Some st →
  ∃ more st', execute d e tasks (schedule ++ more) = Some st' ∧ quiescent st'.
Proof.
  intros Hexec. pose proof (execute_invariant _ _ _ _ _ Hexec) as Hinv.
  destruct (comes_to_rest d e tasks st Hinv) as (more & st' & Hrun & Hq & _).
  exists more, st'. split; [|done].
  unfold execute in *. by rewrite run_app, Hexec.
Qed.

(** ** What the invariant says about the callback *)

Section consequences.
Context (d : dispatcher) (e : environment) (tasks : list task).
Implicit Types (st : state) (i j n : nat) (t : task) (k : kont) (v : value).

Lemma slot_Some (a : list (option value)) i v :
  slot a i = Some v ↔ a !! i = Some (Some v).
Proof.
  unfold slot. destruct (a !! i) as [[x|]|]; simpl; split; intros; simplify_eq; done.
Qed.

Lemma filled_all (a : list (option value)) n :
  (∀ i, (i < n)%nat → is_Some (slot a i)) → (n ≤ filled a)%nat.
Proof.
  revert n. induction a as [|x a IH]; intros n Hall.
  - destruct n as [|n]; [done|]. destruct (Hall 0%nat) as [? ?]; [lia|done].
  - destruct n as [|n]; [lia|].
    assert (Hx : is_Some x). { destruct (Hall 0%nat) as [v Hv]; [lia|]. destruct x; [eauto|done]. }
    destruct Hx as [v ->]. simpl.
    assert ((n ≤ filled a)%nat); [|lia].
    apply IH. intros i Hi. apply (Hall (S i)). lia.
Qed.

(** Once [toRun] is zero every task has its outcome in its slot, and no
    continuation is left. *)
Lemma invariant_complete st :
  invariant d e tasks (length tasks) st → toRun st = 0 →
  length (results st) = length tasks ∧
  (∀ i t, tasks !! i = Some t →
     ∃ v, outcome d e i t = Some v ∧ results st !! i = Some (Some v)) ∧
  pending st = ∅.
Proof.
  intros Hinv Hzero.
  pose proof (inv_toRun _ _ _ _ _ Hinv) as HtoRun.
  pose proof (inv_length _ _ _ _ _ Hinv) as Hlen.
  pose proof (filled_le_length (results st)) as Hle.
  assert (Hfull : filled (results st) = length (results st)) by lia.
  assert (Hslots : ∀ i t, tasks !! i = Some t →
            ∃ v, slot (results st) i = Some v ∧ pending st !! i = None ∧
                 outcome d e i t = Some v).
  { intros i t Ht. pose proof (lookup_lt_Some _ _ _ Ht) as Hi.
    destruct (filled_full (results st) i Hfull) as [v Hv]; [lia|].
    pose proof (inv_tasks _ _ _ _ _ Hinv i t Ht) as Hok. unfold task_ok in Hok.
    destruct (pending st !! i) as [k|].
    - destruct Hok as (_ & Hnone & _). congruence.
    - rewrite decide_True in Hok by done. destruct Hok as [Hout _].
      exists v. split_and!; [done|done|congruence]. }
  split_and!.
  - lia.
  - intros i t Ht. destruct (Hslots i t Ht) as (v & Hv & _ & Hout).
    exists v. split; [done|]. by apply slot_Some.
  - apply map_eq. intros i. rewrite lookup_empty.
    destruct (pending st !! i) as [k|] eqn:Hk; [|done].
    assert (Hi : (i < length tasks)%nat) by (apply (inv_dom _ _ _ _ _ Hinv); eauto).
    destruct (lookup_lt_is_Some_2 tasks i Hi) as [t Ht].
    destruct (Hslots i t Ht) as (v & _ & Hnone & _). congruence.
Qed.

(** The callback is invoked at most once, with [null] and the array
    [results] as it is from then on. *)
Lemma invariant_called st :
  invariant d e tasks (length tasks) st →
  (called st = [] ∧ toRun st ≠ 0) ∨ (called st = [(VNull, results st)] ∧ toRun st = 0).
Proof.
  intros Hinv. rewrite (inv_called _ _ _ _ _ Hinv).
  destruct (toRun st =? 0) eqn:Hz; [right|left]; split; try done; lia.
Qed.

Lemma outcomes_lookup i :
  outcomes d e tasks !! i = outcome d e i <$> tasks !! i.
Proof. unfold outcomes. apply list_lookup_imap. Qed.

(** What the callback is handed is the list of the outcomes, slot by slot. *)
Lemma invariant_results st :
  invariant d e tasks (length tasks) st → toRun st = 0 →
  results st = outcomes d e tasks.
Proof.
  intros Hinv Hzero. destruct (invariant_complete st Hinv Hzero) as (Hlen & Hall & _).
  apply list_eq. intros i. rewrite outcomes_lookup.
  destruct (tasks !! i) as [t|] eqn:Ht; simpl.
  - destruct (Hall i t Ht) as (v & -> & ->). done.
  - apply lookup_ge_None_2. apply lookup_ge_None_1 in Ht. lia.
Qed.

(** A store without waiting continuations: every slot holds the outcome of
    its task, and the callback was invoked exactly when every task has an
    outcome. *)
Lemma invariant_quiescent st :
  invariant d e tasks (length tasks) st → quiescent st →
  (∀ i t, tasks !! i = Some t → slot (results st) i = outcome d e i t) ∧
  ((∀ i t, tasks !! i = Some t → is_Some (outcome d e i t)) →
     called st = [(VNull, outcomes d e tasks)]) ∧
  (∀ i t, tasks !! i = Some t → outcome d e i t = None → called st = []).
Proof.
  intros Hinv Hq.
  assert (Hslots : ∀ i t, tasks !! i = Some t → slot (results st) i = outcome d e i t).
  { intros i t Ht. pose proof (lookup_lt_Some _ _ _ Ht) as Hi.
    pose proof (inv_tasks _ _ _ _ _ Hinv i t Ht) as Hok. unfold task_ok in Hok.
    rewrite Hq, lookup_empty in Hok. rewrite decide_True in Hok by done. tauto. }
  pose proof (inv_toRun _ _ _ _ _ Hinv) as HtoRun.
  pose proof (inv_length _ _ _ _ _ Hinv) as Hlen.
  split_and!; [done| |].
  - intros Hall.
    assert (Hfilled : (length tasks ≤ filled (results st))%nat).
    { apply filled_all. intros i Hi.
      destruct (lookup_lt_is_Some_2 tasks i Hi) as [t Ht].
      rewrite (Hslots i t Ht). by eapply Hall. }
    pose proof (filled_le_length (results st)) as Hle.
    assert (Hzero : toRun st = 0) by lia.
    rewrite (inv_called _ _ _ _ _ Hinv), Hzero. simpl.
    by rewrite (invariant_results st Hinv Hzero).
  - intros i t Ht Hnone.
    destruct (invariant_called st Hinv) as [[Hc _]|[_ Hzero]]; [done|].
    destruct (invariant_complete st Hinv Hzero) as (_ & Hall & _).
    destruct (Hall i t Ht) as (v & Hv & _). congruence.
Qed.

End consequences.

(** ** JSON.stringify with a tagging replacer *)

Section stringify.
Import JSON.
Implicit Types (v : value) (props : list (string * value)) (key : string).

Lemma foldr_max_ge (l : list nat) (x : nat) :
  x ∈ l → (x ≤ foldr Nat.max 0 l)%nat.
Proof.
  induction l as [|y l IH]; intros Hin.
  - by apply elem_of_nil in Hin.
  - apply elem_of_cons in Hin as [->|Hin]; simpl; [lia|].
    specialize (IH Hin). lia.
Qed.

Lemma height_element v elems : v ∈ elems → (height v < height (VArr elems))%nat.
Proof.
  intros Hin. simpl. apply Nat.lt_succ_r. apply foldr_max_ge.
  apply list_elem_of_fmap. by exists v.
Qed.

Lemma height_property key v props :
  (key, v) ∈ props → (height v < height (VObj props))%nat.
Proof.
  intros Hin. simpl. apply Nat.lt_succ_r. apply foldr_max_ge.
  apply list_elem_of_fmap. by exists (key, v).
Qed.

Lemma SerializeJSONArray_total ser index elems :
  (∀ key v, v ∈ elems → is_Some (ser key v)) →
  is_Some (SerializeJSONArray ser index elems).
Proof.
  revert index. induction elems as [|v elems IH]; intros index Hall; simpl; [eauto|].
  destruct (Hall (pretty index) v) as [r ->]; [apply list_elem_of_here|].
  destruct (IH (S index)) as [js ->]; [|eauto].
  intros key x Hx. apply Hall. by apply list_elem_of_further.
Qed.

Lemma SerializeJSONObject_total ser props :
  (∀ key v, (key, v) ∈ props → is_Some (ser key v)) →
  is_Some (SerializeJSONObject ser props).
Proof.
  induction props as [|[k v] props IH]; intros Hall; simpl; [eauto|].
  destruct (Hall k v) as [r ->]; [apply list_elem_of_here|].
  destruct IH as [members ->].
  { intros key x Hx. apply Hall. by apply list_elem_of_further. }
  destruct r; eauto.
Qed.

(** A property that serializes to a JSON value is a member of the object,
    under its key. *)
Lemma SerializeJSONObject_assoc ser props members key v j :
  SerializeJSONObject ser props = Some members →
  assoc key props = Some v → ser key v = Some (Some j) →
  assoc key members = Some j.
Proof.
  revert members. induction props as [|[k x] props IH]; intros members; simpl; [done|].
  destruct (ser k x) as [r|] eqn:Hser; [|by destruct (SerializeJSONObject ser props)].
  destruct (SerializeJSONObject ser props) as [rest|] eqn:Hrest; [|by destruct r as [?|]].
  destruct (String.eqb k key) eqn:Hk.
  - apply String.eqb_eq in Hk as ->. intros Hm [= ->] Hj.
    rewrite Hj in Hser. injection Hser as <-. injection Hm as <-.
    simpl. by rewrite String.eqb_refl.
  - intros Hm Hv Hj. specialize (IH rest eq_refl Hv Hj).
    destruct r as [j'|]; injection Hm as <-; [|done].
    simpl. by rewrite Hk.
Qed.

(** The budget of [stringify_with] is never exhausted by a tagging
    replacer. *)
Lemma enough_fuel replacer fuel key v :
  tagging replacer → (height v < fuel)%nat →
  is_Some (SerializeJSONProperty fuel replacer key v).
Proof.
  intros Htag. revert key v. induction fuel as [|fuel IH]; intros key v Hlt; [lia|].
  pose proof (Htag key v) as Hv. simpl.
  destruct v as [| |b|n|s|source|source|elems|props]; try (rewrite Hv; eauto).
  - destruct (replacer key (VRegExp source)); simpl in Hv; eauto; discriminate.
  - destruct (replacer key (VFun source)); simpl in Hv; eauto; discriminate.
  - destruct (SerializeJSONArray_total (SerializeJSONProperty fuel replacer) 0 elems)
      as [js ->]; [|eauto].
    intros k x Hx. apply IH. pose proof (height_element x elems Hx). lia.
  - destruct (SerializeJSONObject_total (SerializeJSONProperty fuel replacer) props)
      as [members ->]; [|eauto].
    intros k x Hx. apply IH. pose proof (height_property k x props Hx). lia.
Qed.

Lemma assoc_elem {A} key (props : list (string * A)) a :
  assoc key props = Some a → (key, a) ∈ props.
Proof.
  induction props as [|[k x] props IH]; simpl; [done|].
  destruct (String.eqb k key) eqn:Hk.
  - apply String.eqb_eq in Hk as ->. intros [= ->]. apply list_elem_of_here.
  - intros Ha. apply list_elem_of_further. by apply IH.
Qed.

(** With a tagging replacer the text of an object is an object, and a
    property that holds a string is a member of it. *)
Lemma stringify_with_object replacer props key s :
  tagging replacer → assoc key props = Some (VStr s) →
  ∃ members, stringify_with replacer (VObj props) = Some (JObj members) ∧
             assoc key members = Some (JStr s).
Proof.
  intros Htag Hkey. unfold stringify_with.
  remember (height (VObj props)) as h eqn:Hh.
  cbn [SerializeJSONProperty]. rewrite (Htag "" (VObj props)).
  destruct (SerializeJSONObject_total (SerializeJSONProperty h replacer) props)
    as [members Hm].
  { intros k x Hx. apply enough_fuel; [done|]. subst h. by eapply height_property. }
  rewrite Hm. exists members. split; [done|].
  eapply SerializeJSONObject_assoc; [done|done|].
  assert (Hpos : (0 < h)%nat) by (subst h; simpl; lia).
  destruct h as [|h]; [lia|]. simpl. by rewrite (Htag key (VStr s)).
Qed.

Lemma tagging_encode_tagging : tagging tagging_encode.
Proof. intros key v. by destruct v. Qed.

Lemma identity_tagging : tagging (λ _ x, x).
Proof. intros key v. by destruct v. Qed.

(** The budgets of [stringify_with], for a tagging replacer, and of
    [stringify] are enough. *)
Lemma stringify_with_budget replacer v :
  tagging replacer →
  is_Some (SerializeJSONProperty (S (height v)) replacer "" v).
Proof. intros Htag. apply enough_fuel; [done|lia]. Qed.

Lemma stringify_budget v :
  is_Some (SerializeJSONProperty (S (height v)) (λ _ x, x) "" v).
Proof. apply stringify_with_budget, identity_tagging. Qed.

End stringify.

(** ** Values that survive serialization *)

Section round_trip.
Import JSON.
Implicit Types (v : value) (props : list (string * value)) (key : string).

Lemma SerializeJSONArray_plain f index elems :
  (∀ key x, x ∈ elems → ∃ doc, f key x = Some (Some doc) ∧ value_of doc = x) →
  ∃ js, SerializeJSONArray f index elems = Some js ∧ map value_of js = elems.
Proof.
  revert index. induction elems as [|x elems IH]; intros index Hall; simpl; [by exists []|].
  destruct (Hall (pretty index) x) as (doc & -> & Hdoc); [apply list_elem_of_here|].
  destruct (IH (S index)) as (js & -> & Hjs).
  { intros key y Hy. apply Hall. by apply list_elem_of_further. }
  exists (doc :: js). simpl. by rewrite Hdoc, Hjs.
Qed.

Lemma SerializeJSONObject_plain f props :
  (∀ key x, (key, x) ∈ props → ∃ doc, f key x = Some (Some doc) ∧ value_of doc = x) →
  ∃ members, SerializeJSONObject f props = Some members ∧
    map (λ kj, match kj with (k, j) => (k, value_of j) end) members = props.
Proof.
  induction props as [|[k x] props IH]; intros Hall; simpl; [by exists []|].
  destruct (Hall k x) as (doc & -> & Hdoc); [apply list_elem_of_here|].
  destruct IH as (members & -> & Hm).
  { intros key y Hy. apply Hall. by apply list_elem_of_further. }
  exists ((k, doc) :: members). simpl. by rewrite Hdoc, Hm.
Qed.

Lemma plain_element x elems : forallb plain elems = true → x ∈ elems → plain x = true.
Proof.
  intros Hall Hx. rewrite forallb_forall in Hall. apply Hall. by apply list_elem_of_In.
Qed.

(** The text of a plain value denotes the value, for every tagging
    replacer. *)
Lemma serialize_plain_with replacer fuel key v :
  tagging replacer → (height v < fuel)%nat → plain v = true →
  ∃ doc, SerializeJSONProperty fuel replacer key v = Some (Some doc) ∧ value_of doc = v.
Proof.
  intros Htag. revert key v.
  induction fuel as [|fuel IH]; intros key v Hlt Hplain; [lia|].
  pose proof (Htag key v) as Hv.
  destruct v as [| |b|n|s|source|source|elems|props]; try done; simpl; rewrite Hv.
  - by exists JNull.
  - by exists (JBool b).
  - by exists (JNum n).
  - by exists (JStr s).
  - destruct (SerializeJSONArray_plain (SerializeJSONProperty fuel replacer) 0 elems)
      as (js & -> & Hjs).
    { intros k x Hx. apply IH.
      - pose proof (height_element x elems Hx). lia.
      - by eapply plain_element. }
    exists (JArr js). simpl. by rewrite Hjs.
  - destruct (SerializeJSONObject_plain (SerializeJSONProperty fuel replacer) props)
      as (members & -> & Hm).
    { intros k x Hx. apply IH.
      - pose proof (height_property k x props Hx). lia.
      - simpl in Hplain. rewrite forallb_forall in Hplain.
        apply (Hplain (k, x)). by apply list_elem_of_In. }
    exists (JObj members). simpl. by rewrite Hm.
Qed.

Lemma serialize_plain fuel key v :
  (height v < fuel)%nat → plain v = true →
  ∃ doc, SerializeJSONProperty fuel (λ _ x, x) key v = Some (Some doc) ∧ value_of doc = v.
Proof. apply serialize_plain_with, identity_tagging. Qed.


Lemma stringify_plain v :
  plain v = true →
  ∃ doc, stringify v = Some doc ∧ parse (Text doc) = Some v.
Proof.
  intros Hplain. unfold stringify, stringify_with.
  destruct (serialize_plain (S (height v)) "" v) as (doc & -> & Hdoc); [lia|done|].
  exists doc. simpl. by rewrite Hdoc.
Qed.

(** The members of the text of a result, property by property: an
    [undefined] property is left out, a plain one is kept. *)
Lemma SerializeJSONObject_record f props :
  (∀ key x, (key, x) ∈ props →
     (x = VUndefined ∧ f key x = Some None) ∨
     (∃ doc, f key x = Some (Some doc) ∧ value_of doc = x)) →
  NoDup props.*1 →
  ∃ members, SerializeJSONObject f props = Some members ∧
    (∀ key, key ∉ props.*1 → assoc key members = None) ∧
    ∀ key, default VUndefined (value_of <$> assoc key members)
           = default VUndefined (assoc key props).
Proof.
  induction props as [|[k x] props IH]; intros Hall Hnd; simpl.
  { exists []. done. }
  apply NoDup_cons in Hnd as [Hk Hnd].
  destruct IH as (members & -> & Hkeys & Hreads); [|done|].
  { intros key y Hy. apply Hall. by apply list_elem_of_further. }
  destruct (Hall k x) as [[-> ->]|(doc & -> & Hdoc)]; [apply list_elem_of_here| |].
  - exists members. split_and!; [done| |].
    + intros key Hkey. apply Hkeys. intros Hin. apply Hkey. by apply list_elem_of_further.
    + intros key. destruct (String.eqb k key) eqn:Heq.
      * apply String.eqb_eq in Heq as ->. by rewrite (Hkeys key Hk).
      * apply Hreads.
  - exists ((k, doc) :: members). split_and!; [done| |].
    + intros key Hkey. simpl. destruct (String.eqb k key) eqn:Heq.
      * apply String.eqb_eq in Heq as ->. destruct Hkey. apply list_elem_of_here.
      * apply Hkeys. intros Hin. apply Hkey. by apply list_elem_of_further.
    + intros key. simpl. destruct (String.eqb k key) eqn:Heq; [by rewrite <- Hdoc|].
      apply Hreads.
Qed.

Lemma stringify_record props :
  NoDup props.*1 → record_like props = true →
  ∃ members, stringify (VObj props) = Some (JObj members) ∧
    ∀ key, get (value_of (JObj members)) key = get (VObj props) key.
Proof.
  intros Hnd Hrec. unfold stringify, stringify_with.
  remember (height (VObj props)) as h eqn:Hh. cbn [SerializeJSONProperty].
  destruct (SerializeJSONObject_record (SerializeJSONProperty h (λ _ x, x)) props) as (members & -> & _ & Hreads);
    [|done|].
  { intros key x Hx.
    assert (Hx' : match x with VUndefined => true | _ => plain x end = true).
    { unfold record_like in Hrec. rewrite forallb_forall in Hrec.
      apply (Hrec (key, x)). by apply list_elem_of_In. }
    pose proof (height_property key x props Hx) as Hlt. rewrite <- Hh in Hlt.
    destruct h as [|h]; [lia|].
    destruct x as [| |b|n|s|source|source|elems|ps];
      first [by left | right; by apply serialize_plain]. }
  exists members. split; [done|]. intros key. simpl. f_equal.
  rewrite <- Hreads. clear. induction members as [|[k j] members IH]; simpl; [done|].
  by destruct (String.eqb k key).
Qed.

End round_trip.

(** ** Order of the results *)

Lemma runTasks_results_in_order_aux d e tasks schedule st err rs :
  execute d e tasks schedule = Some st → (err, rs) ∈ called st →
  err = VNull ∧ rs = outcomes d e tasks ∧
  ∀ i t, tasks !! i = Some t →
    ∃ v, outcome d e i t = Some v ∧ rs !! i = Some (Some v).
Proof.
  intros Hexec Hin.
  pose proof (execute_invariant _ _ _ _ _ Hexec) as Hinv.
  destruct (invariant_called d e tasks st Hinv) as [[Hc _]|[Hc Hzero]];
    rewrite Hc in Hin.
  - by apply elem_of_nil in Hin.
  - apply list_elem_of_singleton in Hin. injection Hin as -> ->.
    destruct (invariant_complete d e tasks st Hinv Hzero) as (Hlen & Hall & _).
    split_and!; [done| |done].
    by apply invariant_results.
Qed.

(** The outcome of a task is its entry. *)
Lemma outcome_entry d e i t : outcome d e i t = entry d e i t.
Proof.
  assert (Hc : computed d e i t = computed_entry d e i t).
  { unfold computed, computed_entry, choose.
    destruct (0 <? workers d).
    - unfold on_worker.
      destruct (workerFarm e i (request e t)) as [error data]. simpl.
      destruct (truthy error) eqn:Herr.
      + destruct (truthy (cache d)); [|done]. simpl. by rewrite Herr.
      + destruct (truthy (cache d)); [|done].
        destruct data as [| | | | | | | |props]; simpl; try done.
        by destruct (negb (truthy (default VUndefined (assoc "error" props)))).
    - unfold inline, on_worker. simpl.
      destruct (minify e (VObj t)) as [result|errors].
      + destruct (truthy (cache d)); [|done].
        destruct result as [| | | | | | | |props]; simpl; try done.
        by destruct (negb (truthy (default VUndefined (assoc "error" props)))).
      + destruct (truthy errors) eqn:Herr.
        * destruct (truthy (cache d)); [|done]. simpl. by rewrite Herr.
        * by destruct (truthy (cache d)). }
  unfold outcome, entry. rewrite Hc.
  destruct (truthy (cache d)); [|done].
  by destruct (cacache_get e i) as [[doc|bytes]|].
Qed.

Lemma outcomes_entries d e tasks : outcomes d e tasks = entries d e tasks.
Proof.
  unfold outcomes, entries. apply imap_ext. intros i t _. apply outcome_entry.
Qed.

Lemma complete_true d e tasks :
  complete d e tasks = true ↔ ∀ i t, tasks !! i = Some t → is_Some (entry d e i t).
Proof.
  unfold complete, entries. rewrite forallb_forall. split.
  - intros Hall i t Ht.
    assert (Hin : In (entry d e i t) (imap (entry d e) tasks)).
    { apply list_elem_of_In, list_elem_of_lookup. exists i.
      by rewrite list_lookup_imap, Ht. }
    apply Hall in Hin. by apply bool_decide_eq_true_1 in Hin.
  - intros Hall o Ho. apply list_elem_of_In, list_elem_of_lookup in Ho as [i Hi].
    rewrite list_lookup_imap in Hi.
    destruct (tasks !! i) as [t|] eqn:Ht; [|done]. injection Hi as <-.
    apply bool_decide_eq_true_2. by eapply Hall.
Qed.

Lemma complete_false d e tasks i t :
  tasks !! i = Some t → entry d e i t = None → complete d e tasks = false.
Proof.
  intros Ht Hnone. destruct (complete d e tasks) eqn:Hc; [|done].
  rewrite complete_true in Hc. destruct (Hc i t Ht) as [v Hv]. congruence.
Qed.

(** What the callback has received when nothing is waiting any more. *)
Lemma called_at_rest d e tasks schedule st :
  execute d e tasks schedule = Some st → quiescent st →
  (∀ i t, tasks !! i = Some t → slot (results st) i = entry d e i t) ∧
  called st = if complete d e tasks then [(VNull, entries d e tasks)] else [].
Proof.
  intros Hexec Hq.
  pose proof (execute_invariant _ _ _ _ _ Hexec) as Hinv.
  destruct (invariant_quiescent d e tasks st Hinv Hq) as (Hslots & Hall & Hnone).
  split.
  - intros i t Ht. rewrite <- outcome_entry. by apply Hslots.
  - destruct (complete d e tasks) eqn:Hc.
    + rewrite <- outcomes_entries. apply Hall. intros i t Ht.
      rewrite outcome_entry. rewrite complete_true in Hc. by eapply Hc.
    + destruct (decide (Forall is_Some (entries d e tasks))) as [Hsome|Hnot].
      * assert (Htrue : complete d e tasks = true); [|congruence].
        apply complete_true. intros i t Ht. rewrite Forall_lookup in Hsome.
        apply (Hsome i). unfold entries. by rewrite list_lookup_imap, Ht.
      * apply not_Forall_Exists in Hnot; [|apply _].
        apply Exists_exists in Hnot as (o & Ho & Hno).
        apply list_elem_of_lookup in Ho as [i Hi]. unfold entries in Hi.
        rewrite list_lookup_imap in Hi.
        destruct (tasks !! i) as [t|] eqn:Ht; [|done]. injection Hi as <-.
        apply (Hnone i t Ht). rewrite outcome_entry.
        destruct (entry d e i t); [|done]. exfalso. apply Hno. eauto.
Qed.

Lemma invocation_carries_entries d e tasks schedule st err rs :
  execute d e tasks schedule = Some st → (err, rs) ∈ called st →
  err = VNull ∧ length rs = length tasks ∧ rs = entries d e tasks ∧
  ∀ i t, tasks !! i = Some t →
    ∃ v, entry d e i t = Some v ∧ rs !! i = Some (Some v).
Proof.
  intros Hexec Hin.
  destruct (runTasks_results_in_order_aux d e tasks schedule st err rs Hexec Hin)
    as (-> & -> & Hall).
  split_and!; [done| |apply outcomes_entries|].
  - unfold outcomes. by rewrite length_imap.
  - intros i t Ht. destruct (Hall i t Ht) as (v & Hv & Hrs).
    exists v. by rewrite <- outcome_entry.
Qed.

(** C1, where the code departs from it. Whatever the order in which the
    continuations run, an invocation of the callback carries [null] and an
    array with exactly one entry per task, the entry at index [i] being
    the entry of task [i]: what the cache holds for it, or what is computed
    for it, an error as [{ error }]. For the empty batch the callback has
    been invoked, with an empty array, by the time [runTasks] returns.
    Every execution can be continued until nothing is waiting, and then
    the callback has received the entries if every task has one. But it
    has received nothing at all if some task has none, and that is so
    whenever the cache holds bytes for a task that are not JSON. *)
Theorem results_in_task_order_or_none d e :
  called (runTasks d e []).1 = [(VNull, [])] ∧
  (∀ tasks schedule st,
     execute d e tasks schedule = Some st →
     (∀ err rs, (err, rs) ∈ called st →
        err = VNull ∧ length rs = length tasks ∧ rs = entries d e tasks ∧
        ∀ i t, tasks !! i = Some t →
          ∃ v, entry d e i t = Some v ∧ rs !! i = Some (Some v)) ∧
     (∃ more st', execute d e tasks (schedule ++ more) = Some st' ∧ quiescent st') ∧
     (quiescent st →
        called st = if complete d e tasks then [(VNull, entries d e tasks)] else [])) ∧
  (∀ tasks i t bytes,
     tasks !! i = Some t → truthy (cache d) = true →
     cacache_get e i = Some (JSON.Garbled bytes) →
     complete d e tasks = false).
Proof.
  split_and!; [done| |].
  - intros tasks schedule st Hexec. split_and!.
    + intros err rs Hin. by eapply invocation_carries_entries.
    + by apply (execution_comes_to_rest d e tasks schedule st).
    + intros Hq. by destruct (called_at_rest d e tasks schedule st Hexec Hq).
  - intros tasks i t bytes Ht Hc Hget. apply (complete_false d e tasks i t Ht).
    unfold entry. by rewrite Hc, Hget.
Qed.

Lemma results_in_task_order_or_none_witness :
  let e := sample_environment second_garbled in
  ∃ st,
    execute farm_with_cache e three_tasks straight_schedule = Some st ∧
    quiescent st ∧
    results st = [Some (VObj [("code", VStr "x=1;")]); None;
                  Some (VObj [("code", VStr "z=3;")])] ∧
    called st = [].
Proof.
  intros e.
  destruct (execute farm_with_cache e three_tasks straight_schedule)
    as [st|] eqn:Hexec; [|by vm_compute in Hexec].
  exists st.
  assert (Hq : quiescent st) by (vm_compute in Hexec; by injection Hexec as <-).
  destruct (results_in_task_order_or_none farm_with_cache e) as (_ & Hall & Hgarbled).
  destruct (Hall three_tasks straight_schedule st Hexec) as (_ & _ & Hrest).
  split_and!; [done|done| |].
  - vm_compute in Hexec. by injection Hexec as <-.
  - rewrite (Hrest Hq).
    by rewrite (Hgarbled three_tasks 1%nat (task_of "B" "y=2;") "{").
Defined.

(** ** The cache answers *)

Lemma fulfilled_read d e tasks schedule st i t data :
  execute d e tasks schedule = Some st → tasks !! i = Some t →
  truthy (cache d) = true → cacache_get e i = Some data →
  (i ∉ invoked st) ∧
  (∀ v, JSON.parse data = Some v →
     (pending st !! i = None → results st !! i = Some (Some v)) ∧
     (∀ err rs, (err, rs) ∈ called st → rs !! i = Some (Some v))).
Proof.
  intros Hexec Ht Hc Hget.
  pose proof (execute_invariant _ _ _ _ _ Hexec) as Hinv.
  pose proof (not_misses d e i data Hc Hget) as Hnm.
  pose proof (lookup_lt_Some _ _ _ Ht) as Hi.
  assert (Hout : outcome d e i t = JSON.parse data).
  { unfold outcome. by rewrite Hc, Hget. }
  pose proof (inv_tasks _ _ _ _ _ Hinv i t Ht) as Hok. unfold task_ok in Hok.
  split.
  - destruct (pending st !! i) as [k|].
    + destruct Hok as (_ & _ & Hk & Hinvk). destruct k; simpl in Hk.
      * intros Hin. by apply Hinvk in Hin.
      * tauto.
      * tauto.
    + rewrite decide_True in Hok by done. tauto.
  - intros v Hparse. split.
    + intros Hnone. rewrite Hnone in Hok. rewrite decide_True in Hok by done.
      apply slot_Some. destruct Hok as [-> _]. congruence.
    + intros err rs Hin.
      destruct (runTasks_results_in_order_aux d e tasks schedule st err rs Hexec Hin)
        as (_ & _ & Hall).
      destruct (Hall i t Ht) as (v' & Hv' & ->). congruence.
Qed.

(** C2. With a cache configured, a task whose cache read is fulfilled is
    never handed to [this.worker], in no store of no execution; and once its
    continuation has run, the value that [JSON.parse] makes of the stored
    data is the content of its slot, hence its entry in what the callback
    receives. *)
Theorem cache_hit_bypasses_worker d e tasks schedule st i t data :
  execute d e tasks schedule = Some st → tasks !! i = Some t →
  truthy (cache d) = true → cacache_get e i = Some data →
  (i ∉ invoked st) ∧
  (∀ v, JSON.parse data = Some v →
     (pending st !! i = None → results st !! i = Some (Some v)) ∧
     (∀ err rs, (err, rs) ∈ called st → rs !! i = Some (Some v))).
Proof. apply fulfilled_read. Qed.

Lemma cache_hit_bypasses_worker_witness :
  let e := sample_environment second_cached in
  let v := VObj [("code", VStr "cached")] in
  ∃ st, execute farm_with_cache e three_tasks inverted_schedule = Some st ∧
    (1%nat ∉ invoked st) ∧ invoked st = [2; 0]%nat ∧
    results st !! 1%nat = Some (Some v) ∧
    ∀ err rs, (err, rs) ∈ called st → rs !! 1%nat = Some (Some v).
Proof.
  intros e v.
  destruct (execute farm_with_cache e three_tasks inverted_schedule) as [st|] eqn:Hexec;
    [|by vm_compute in Hexec].
  exists st.
  destruct (cache_hit_bypasses_worker farm_with_cache e three_tasks inverted_schedule
              st 1%nat (task_of "B" "y=2;")
              (JSON.Text (JSON.JObj [("code", JSON.JStr "cached")])) Hexec
              eq_refl eq_refl eq_refl) as [Hni Hv].
  destruct (Hv v eq_refl) as [Hres Hcalled].
  vm_compute in Hexec. injection Hexec as <-.
  split_and!; [done|done|done| |done].
  apply Hres. reflexivity.
Defined.

(** ** The cache does not answer *)

(** A task whose cache read is rejected, or that runs without a cache, is
    handed to [this.worker] exactly once, and what the worker makes of it is
    the content of its slot. *)
Lemma miss_is_computed_once d e tasks schedule st i t :
  execute d e tasks schedule = Some st → tasks !! i = Some t →
  misses d e i → pending st !! i ≠ Some KGet →
  i ∈ invoked st ∧ NoDup (invoked st) ∧
  (pending st !! i = None → slot (results st) i = computed d e i t).
Proof.
  intros Hexec Ht Hmiss Hpast.
  pose proof (execute_invariant _ _ _ _ _ Hexec) as Hinv.
  pose proof (lookup_lt_Some _ _ _ Ht) as Hi.
  pose proof (inv_tasks _ _ _ _ _ Hinv i t Ht) as Hok. unfold task_ok in Hok.
  split_and!.
  - destruct (pending st !! i) as [k|].
    + destruct Hok as (_ & _ & _ & Hinvk). apply Hinvk. congruence.
    + rewrite decide_True in Hok by done. tauto.
  - by apply (inv_invoked_once _ _ _ _ _ Hinv).
  - intros Hnone. rewrite Hnone in Hok. rewrite decide_True in Hok by done.
    destruct Hok as [-> _]. by apply outcome_misses.
Qed.

(** A task without an outcome keeps the callback from ever being invoked. *)
Lemma no_outcome_no_callback d e tasks schedule st i t :
  execute d e tasks schedule = Some st → tasks !! i = Some t →
  outcome d e i t = None →
  slot (results st) i = None ∧ called st = [].
Proof.
  intros Hexec Ht Hnone.
  pose proof (execute_invariant _ _ _ _ _ Hexec) as Hinv.
  pose proof (lookup_lt_Some _ _ _ Ht) as Hi.
  pose proof (inv_tasks _ _ _ _ _ Hinv i t Ht) as Hok. unfold task_ok in Hok.
  split.
  - destruct (pending st !! i) as [k|]; [tauto|].
    rewrite decide_True in Hok by done. destruct Hok as [-> _]. done.
  - destruct (invariant_called d e tasks st Hinv) as [[Hc _]|[_ Hzero]]; [done|].
    destruct (invariant_complete d e tasks st Hinv Hzero) as (_ & Hall & _).
    destruct (Hall i t Ht) as (v & Hv & _). congruence.
Qed.

(** C3, where the code departs from it. When the cache read of a task is
    fulfilled with data that [JSON.parse] rejects, the task is not handed
    to [this.worker] in any store of any execution, its slot stays empty
    and the callback is not invoked: [enqueue] is the handler of a rejected
    read only. *)
Theorem garbled_blob_is_not_recomputed d e tasks schedule st i t bytes :
  execute d e tasks schedule = Some st → tasks !! i = Some t →
  truthy (cache d) = true → cacache_get e i = Some (JSON.Garbled bytes) →
  (i ∉ invoked st) ∧ slot (results st) i = None ∧ called st = [].
Proof.
  intros Hexec Ht Hc Hget.
  destruct (fulfilled_read d e tasks schedule st i t _ Hexec Ht Hc Hget)
    as [Hni _].
  split; [done|].
  eapply no_outcome_no_callback; [done|done|].
  unfold outcome. by rewrite Hc, Hget.
Qed.

Lemma garbled_blob_is_not_recomputed_witness :
  execute inline_with_cache (sample_environment first_garbled) one_task [0%nat]
    = Some {| toRun := 1; results := []; called := []; pending := ∅;
              installed := None; invoked := []; puts := [] |} ∧
  (0%nat ∉ @nil nat) ∧ slot [] 0 = None ∧ @nil (value * list (option value)) = [].
Proof.
  split; [vm_compute; reflexivity|].
  apply (garbled_blob_is_not_recomputed inline_with_cache
           (sample_environment first_garbled) one_task [0%nat]
           {| toRun := 1; results := []; called := []; pending := ∅;
              installed := None; invoked := []; puts := [] |}
           0%nat (task_of "A" "x=1;") "{").
  - vm_compute. reflexivity.
  - reflexivity.
  - reflexivity.
  - reflexivity.
Defined.

(** ** The completion callback *)

(** In every store of every execution the callback has been invoked at most
    once, and if so every task has its result in its slot. *)
Lemma callback_at_most_once d e tasks schedule st :
  execute d e tasks schedule = Some st →
  (length (called st) ≤ 1)%nat ∧
  (∀ err rs, (err, rs) ∈ called st →
     pending st = ∅ ∧ rs = results st ∧
     ∀ i, (i < length tasks)%nat → is_Some (slot (results st) i)).
Proof.
  intros Hexec.
  pose proof (execute_invariant _ _ _ _ _ Hexec) as Hinv.
  destruct (invariant_called d e tasks st Hinv) as [[Hc _]|[Hc Hzero]]; rewrite Hc.
  - split; [simpl; lia|]. intros err rs Hin. by apply elem_of_nil in Hin.
  - split; [simpl; lia|]. intros err rs Hin.
    apply list_elem_of_singleton in Hin. injection Hin as -> ->.
    destruct (invariant_complete d e tasks st Hinv Hzero) as (_ & Hall & Hq).
    split_and!; [done|done|].
    intros i Hi. destruct (lookup_lt_is_Some_2 tasks i Hi) as [t Ht].
    destruct (Hall i t Ht) as (v & _ & Hv). exists v. by apply slot_Some.
Qed.

(** Once nothing is waiting, the callback has been invoked exactly once if
    every task has an outcome. *)
Lemma callback_exactly_once d e tasks schedule st :
  execute d e tasks schedule = Some st → quiescent st →
  (∀ i t, tasks !! i = Some t → is_Some (outcome d e i t)) →
  called st = [(VNull, outcomes d e tasks)].
Proof.
  intros Hexec Hq Hall.
  pose proof (execute_invariant _ _ _ _ _ Hexec) as Hinv.
  destruct (invariant_quiescent d e tasks st Hinv Hq) as (_ & Hcalled & _).
  by apply Hcalled.
Qed.

(** C6, where the code departs from it. The callback is never invoked
    twice, and never before every slot is recorded; but it is invoked zero
    times, in every store of every execution, for a batch in which the
    cache read of some task is fulfilled with data that [JSON.parse]
    rejects. *)
Theorem callback_is_lost_after_garbled_read d e tasks schedule st :
  execute d e tasks schedule = Some st →
  (length (called st) ≤ 1)%nat ∧
  (∀ err rs, (err, rs) ∈ called st →
     ∀ i, (i < length tasks)%nat → is_Some (slot (results st) i)) ∧
  (∀ i t bytes, tasks !! i = Some t → truthy (cache d) = true →
     cacache_get e i = Some (JSON.Garbled bytes) → called st = []).
Proof.
  intros Hexec.
  destruct (callback_at_most_once d e tasks schedule st Hexec) as [Hle Hall].
  split_and!; [done| |].
  - intros err rs Hin. by destruct (Hall err rs Hin) as (_ & _ & H).
  - intros i t bytes Ht Hc Hget.
    eapply no_outcome_no_callback; [done|done|].
    unfold outcome. by rewrite Hc, Hget.
Qed.

Lemma callback_is_lost_after_garbled_read_witness :
  let st := {| toRun := 1;
               results := [None; Some (VObj [("code", VStr "y=2;")])];
               called := [];
               pending := ∅;
               installed := Some InlineWorker;
               invoked := [1%nat];
               puts := [(cache inline_with_cache, VStr "B",
                         Some (JSON.JObj [("code", JSON.JStr "y=2;")]))] |} in
  execute inline_with_cache (sample_environment first_garbled) two_tasks
    [0; 1; 1]%nat = Some st ∧
  quiescent st ∧ called st = [].
Proof.
  intros st.
  assert (Hexec : execute inline_with_cache (sample_environment first_garbled)
            two_tasks [0; 1; 1]%nat = Some st) by (vm_compute; reflexivity).
  split_and!; [exact Hexec|reflexivity|].
  destruct (callback_is_lost_after_garbled_read _ _ _ _ _ Hexec) as (_ & _ & Hlost).
  apply (Hlost 0%nat (task_of "A" "x=1;") "{"); reflexivity.
Defined.

(** ** The cache write *)









(** ** Failure isolation *)

Lemma on_worker_error d error data :
  truthy error = true →
  on_worker d error data = Return (Deliver (VObj [("error", error)])).
Proof.
  intros Herr. unfold on_worker. rewrite Herr.
  destruct (truthy (cache d)); [|done]. simpl. by rewrite Herr.
Qed.

(** An error of the worker becomes the result [{ error }] of its task. *)
Lemma compute_error_outcome d e i t ex :
  misses d e i → compute_error d e i t = Some ex →
  outcome d e i t = Some (VObj [("error", ex)]).
Proof.
  intros Hmiss. rewrite (outcome_misses d e i t Hmiss).
  unfold compute_error, computed, inline. destruct (choose d).
  - destruct (truthy (fst _)) eqn:Herr; [|done]. intros [= <-].
    by rewrite on_worker_error.
  - destruct (minify e (VObj t)) as [r|errors]; [done|].
    destruct (truthy errors) eqn:Herr; [|done]. intros [= <-].
    by rewrite on_worker_error.
Qed.

(** The outcome of a task depends on nothing but the task and how its own
    asynchronous operations settle. *)
Lemma outcome_agree d e e' tasks tasks' i j t :
  agree_except i e e' tasks tasks' → j ≠ i →
  outcome d e' j t = outcome d e j t.
Proof.
  intros (Hmin & Henc & Hrest) Hne. destruct (Hrest j Hne) as (_ & Hget & Hfarm).
  unfold outcome, computed, inline, request. by rewrite Hmin, Henc, Hget, Hfarm.
Qed.

(** C5, where the code departs from it. Whenever the callback is invoked,
    the batch is complete: the error argument is [null], never an error of
    the batch, and the array holds the entry of every task. An error that
    the worker reports for a task is the entry [{ error }] of that task,
    and the entries of the other tasks are what they are in any batch that
    differs from this one at that task only. Every execution can be
    continued until nothing is waiting, and then every task that has an
    entry has it in its slot. But the batch has a third way to end: when
    some task has no entry, the callback has not been invoked, neither
    with the results nor with an error, although the other tasks are
    recorded. *)
Theorem batch_may_end_unreported d e tasks schedule st :
  execute d e tasks schedule = Some st →
  (∀ err rs, (err, rs) ∈ called st →
     err = VNull ∧ length rs = length tasks ∧ rs = entries d e tasks ∧
     ∀ i, (i < length tasks)%nat → is_Some (slot rs i)) ∧
  (∀ i t ex, tasks !! i = Some t → misses d e i →
     compute_error d e i t = Some ex →
     entry d e i t = Some (VObj [("error", ex)]) ∧
     ∀ e' tasks' j t', agree_except i e e' tasks tasks' → j ≠ i →
       tasks !! j = Some t' →
       tasks' !! j = Some t' ∧ entry d e' j t' = entry d e j t') ∧
  (∃ more st', execute d e tasks (schedule ++ more) = Some st' ∧ quiescent st') ∧
  (quiescent st →
     (∀ i t, tasks !! i = Some t → slot (results st) i = entry d e i t) ∧
     called st = if complete d e tasks then [(VNull, entries d e tasks)] else []).
Proof.
  intros Hexec. split_and!.
  - intros err rs Hin.
    destruct (invocation_carries_entries _ _ _ _ _ _ _ Hexec Hin)
      as (Herr & Hlen & Hrs & Hall).
    split_and!; [done|done|done|].
    intros i Hi. destruct (lookup_lt_is_Some_2 tasks i Hi) as [t Ht].
    destruct (Hall i t Ht) as (v & _ & Hv). exists v. by apply slot_Some.
  - intros i t ex Ht Hmiss Hce. split.
    + rewrite <- outcome_entry. by apply compute_error_outcome.
    + intros e' tasks' j t' Hagree Hne Hj. split.
      * destruct Hagree as (_ & _ & Hrest). destruct (Hrest j Hne) as (-> & _). done.
      * rewrite <- !outcome_entry. by eapply outcome_agree.
  - by apply (execution_comes_to_rest d e tasks schedule st).
  - intros Hq. by apply (called_at_rest d e tasks schedule st).
Qed.

Lemma batch_may_end_unreported_witness :
  let e := sample_environment first_garbled in
  ∃ st,
    execute inline_with_cache e faulty_tasks [0; 1; 2; 2]%nat = Some st ∧
    quiescent st ∧
    results st = [None; Some (VObj [("error", syntax_error)]);
                  Some (VObj [("code", VStr "z=3;")])] ∧
    called st = [].
Proof.
  intros e.
  destruct (execute inline_with_cache e faulty_tasks [0; 1; 2; 2]%nat)
    as [st|] eqn:Hexec; [|by vm_compute in Hexec].
  exists st.
  assert (Hq : quiescent st) by (vm_compute in Hexec; by injection Hexec as <-).
  destruct (batch_may_end_unreported _ _ _ _ _ Hexec) as (_ & _ & _ & Hrest).
  destruct (Hrest Hq) as [_ Hcalled].
  split_and!; [done|done| |].
  - vm_compute in Hexec. by injection Hexec as <-.
  - rewrite Hcalled. by vm_compute.
Defined.

(** ** Inline execution and the worker farm *)









(** ** The request of the worker farm *)

(** C8, as the code has it. With a positive worker count, [enqueue] hands
    the farm [JSON.stringify(task, encode)], the text of the whole task
    object; for a replacer that only tags regular expressions and
    functions, this text is an object that has the [cacheKey] of the task
    among its members. *)
Theorem request_carries_cacheKey d e t i st key :
  0 < workers d → tagging (encode e) →
  (installed st = None ∨ installed st = Some FarmWorker) →
  assoc "cacheKey" t = Some (VStr key) →
  pending (enqueue d e t i st).1 !! i
    = Some (KFarm (JSON.stringify_with (encode e) (VObj t))) ∧
  ∃ members,
    JSON.stringify_with (encode e) (VObj t) = Some (JSON.JObj members) ∧
    assoc "cacheKey" members = Some (JSON.JStr key).
Proof.
  intros Hw Htag Hinst Hkey. split.
  - unfold enqueue, worker, choose.
    replace (0 <? workers d) with true by (symmetry; apply Z.ltb_lt; lia).
    destruct Hinst as [-> | ->]; simpl; by rewrite lookup_insert_eq.
  - by apply stringify_with_object.
Qed.

Lemma request_carries_cacheKey_witness :
  let e := sample_environment nothing_cached in
  let st := (runTasks farm_without_cache e []).1 in
  pending (enqueue farm_without_cache e (task_of "A" "x=1;") 0 st).1 !! 0%nat
    = Some (KFarm (Some (JSON.JObj [("cacheKey", JSON.JStr "A");
                                    ("input", JSON.JStr "x=1;")]))) ∧
  ∃ members,
    JSON.stringify_with tagging_encode (VObj (task_of "A" "x=1;"))
      = Some (JSON.JObj members) ∧
    assoc "cacheKey" members = Some (JSON.JStr "A").
Proof.
  intros e st.
  apply (request_carries_cacheKey farm_without_cache e (task_of "A" "x=1;") 0 st "A").
  - reflexivity.
  - apply tagging_encode_tagging.
  - left. reflexivity.
  - reflexivity.
Defined.

(** The reading of C8 in which the cache key is left out of the request
    fails for the replacer that only tags. *)
Lemma request_includes_cacheKey :
  ¬ request_excludes_cacheKey (sample_environment nothing_cached) (task_of "A" "x=1;").
Proof.
  intros H.
  specialize (H [("cacheKey", JSON.JStr "A"); ("input", JSON.JStr "x=1;")] eq_refl).
  discriminate H.
Qed.

(** ** The constructor *)

Lemma enqueue_inline_any c w e t i st :
  w ≤ 0 →
  enqueue {| cache := c; workers := w |} e t i st
  = enqueue {| cache := c; workers := 0 |} e t i st.
Proof.
  intros Hw. unfold enqueue, worker, choose. simpl.
  by replace (0 <? w) with false by (symmetry; apply Z.ltb_ge; lia).
Qed.

Lemma fire_inline_any c w e tasks i st :
  w ≤ 0 →
  fire {| cache := c; workers := w |} e tasks i st
  = fire {| cache := c; workers := 0 |} e tasks i st.
Proof.
  intros Hw. unfold fire. destruct (tasks !! i) as [t|]; [|done].
  destruct (pending st !! i) as [[|req|result]|]; try done.
  destruct (cacache_get e i); [done|]. by rewrite enqueue_inline_any.
Qed.

Lemma run_inline_any c w e tasks schedule st :
  w ≤ 0 →
  run {| cache := c; workers := w |} e tasks schedule st
  = run {| cache := c; workers := 0 |} e tasks schedule st.
Proof.
  intros Hw. revert st. induction schedule as [|i schedule IH]; intros st; simpl; [done|].
  rewrite fire_inline_any by done.
  by destruct (fire {| cache := c; workers := 0 |} e tasks i st).
Qed.

Lemma forEach_inline_any c w e n tasks st :
  w ≤ 0 →
  forEach {| cache := c; workers := w |} e n tasks st
  = forEach {| cache := c; workers := 0 |} e n tasks st.
Proof.
  intros Hw. revert n st. induction tasks as [|t tasks IH]; intros n st; simpl; [done|].
  unfold dispatch. simpl. rewrite enqueue_inline_any by done.
  destruct (truthy c).
  - apply IH.
  - destruct (enqueue {| cache := c; workers := 0 |} e t n st) as [st' [ex|]]; [done|].
    apply IH.
Qed.

(** A dispatcher whose worker count is not positive behaves like one whose
    worker count is zero. *)
Lemma execute_inline_any d e tasks schedule :
  workers d ≤ 0 →
  execute d e tasks schedule = execute (with_workers d 0) e tasks schedule.
Proof.
  destruct d as [c w]. unfold with_workers, execute. simpl. intros Hw.
  rewrite run_inline_any by done. f_equal. f_equal.
  destruct tasks as [|t tasks]; [done|]. unfold runTasks.
  by apply forEach_inline_any.
Qed.

(** C9, as the code has it. The constructor of the dispatcher checks
    nothing: given a negative worker count it returns a dispatcher that
    keeps the count (bounded by the number of processors minus one), takes
    the inline worker, and executes every batch as a dispatcher with worker
    count zero does. The plugin validates its options against its schema
    only; what the schema accepts reaches this constructor unchanged. *)
Theorem negative_workers_run_inline p c w :
  w < 0 →
  ∃ d, constructor p (VObj [("cache", c); ("workers", VNum w)]) = Return d ∧
       workers d = Z.min w (Z.of_nat (cpus p) - 1) ∧ workers d < 0 ∧
       choose d = InlineWorker ∧
       (∀ e tasks schedule,
          execute d e tasks schedule = execute (with_workers d 0) e tasks schedule) ∧
       (∀ valid options,
          options = VObj [("parallel", VObj [("cache", c); ("workers", VNum w)])] →
          valid options = true →
          plugin_dispatcher p valid options = Return d).
Proof.
  intros Hw.
  set (d := {| cache := if is_true c
                        then findCacheDir p "uglifyjs-webpack-plugin" else c;
               workers := Z.min w (Z.of_nat (cpus p) - 1) |}).
  assert (Hd : constructor p (VObj [("cache", c); ("workers", VNum w)]) = Return d).
  { unfold constructor, number_or_zero. simpl.
    destruct (w =? 0) eqn:Hz; [lia|done]. }
  exists d. split_and!.
  - done.
  - done.
  - simpl. lia.
  - unfold choose. simpl.
    by replace (0 <? Z.min w (Z.of_nat (cpus p) - 1)) with false
      by (symmetry; apply Z.ltb_ge; lia).
  - intros e tasks schedule. apply execute_inline_any. simpl. lia.
  - intros valid options -> Hvalid. unfold plugin_dispatcher, plugin_parallel.
    rewrite Hvalid. exact Hd.
Qed.

Lemma negative_workers_run_inline_witness :
  ∃ d, constructor sample_platform
         (VObj [("cache", VBool false); ("workers", VNum (-1))]) = Return d ∧
       d = {| cache := VBool false; workers := -1 |} ∧
       called <$> execute d (sample_environment nothing_cached) one_task []
         = Some [(VNull, [Some (VObj [("code", VStr "x=1;")])])].
Proof.
  destruct (negative_workers_run_inline sample_platform (VBool false) (-1))
    as (d & Hd & _ & _ & _ & Hexec & _); [lia|].
  exists d. split; [exact Hd|].
  vm_compute in Hd. injection Hd as <-.
  split; [reflexivity|].
  rewrite Hexec. vm_compute. reflexivity.
Defined.

(** The reading of C9 in which construction fails for a negative worker
    count does not hold: the constructor returns a dispatcher. *)
Lemma negative_workers_are_accepted : ¬ rejects_negative_workers sample_platform.
Proof.
  intros H.
  apply (H (VBool false) (-1) {| cache := VBool false; workers := -1 |}); [lia|].
  reflexivity.
Qed.

(** C10, as the code has it. [true] is treated like [{ cache: true,
    workers: true }], which gives the cache directory found for the plugin
    and one worker less than there are processors. [false] and a missing argument
    give a falsy cache and the smaller of zero and one less than the
    number of processors as the worker count: zero on a machine that
    reports a processor, and minus one on a machine that reports none. In
    both cases the worker is the inline worker. *)
Theorem constructor_of_boolean p :
  constructor p (VBool true)
    = constructor p (VObj [("cache", VBool true); ("workers", VBool true)]) ∧
  constructor p (VBool true)
    = Return {| cache := findCacheDir p "uglifyjs-webpack-plugin";
                workers := Z.of_nat (cpus p) - 1 |} ∧
  constructor p (VBool false)
    = Return {| cache := VBool false;
                workers := Z.min 0 (Z.of_nat (cpus p) - 1) |} ∧
  constructor p VUndefined
    = Return {| cache := VUndefined;
                workers := Z.min 0 (Z.of_nat (cpus p) - 1) |} ∧
  ∀ d, constructor p (VBool false) = Return d ∨ constructor p VUndefined = Return d →
       truthy (cache d) = false ∧ choose d = InlineWorker ∧
       ((1 ≤ cpus p)%nat → workers d = 0) ∧
       (cpus p = 0%nat → workers d = -1).
Proof.
  assert (Hfalse : constructor p (VBool false)
            = Return {| cache := VBool false;
                        workers := Z.min 0 (Z.of_nat (cpus p) - 1) |}).
  { by unfold constructor, number_or_zero. }
  assert (Hundef : constructor p VUndefined
            = Return {| cache := VUndefined;
                        workers := Z.min 0 (Z.of_nat (cpus p) - 1) |}).
  { by unfold constructor, number_or_zero. }
  split_and!; [done|done|done|done|].
  intros d [Hd|Hd]; rewrite ?Hfalse, ?Hundef in Hd; injection Hd as <-;
    unfold choose; simpl.
  - split_and!; [done| |lia|lia].
    by replace (0 <? Z.min 0 (Z.of_nat (cpus p) - 1)) with false
      by (symmetry; apply Z.ltb_ge; lia).
  - split_and!; [done| |lia|lia].
    by replace (0 <? Z.min 0 (Z.of_nat (cpus p) - 1)) with false
      by (symmetry; apply Z.ltb_ge; lia).
Qed.

Lemma constructor_of_boolean_witness :
  constructor sample_platform (VBool true)
    = Return {| cache := VStr "node_modules/.cache/uglifyjs-webpack-plugin";
                workers := 3 |} ∧
  constructor sample_platform (VBool false)
    = Return {| cache := VBool false; workers := 0 |} ∧
  constructor no_processors VUndefined
    = Return {| cache := VUndefined; workers := -1 |}.
Proof.
  destruct (constructor_of_boolean sample_platform) as (_ & Htrue & Hfalse & _).
  destruct (constructor_of_boolean no_processors) as (_ & _ & _ & Hundef & _).
  split_and!; [exact Htrue|exact Hfalse|exact Hundef].
Defined.

(** The claim fails on a machine that reports no processor: the worker
    count for [false] is minus one. *)
Lemma no_processor_gives_a_negative_count : ¬ false_gives_zero_workers no_processors.
Proof.
  intros H.
  specialize (H {| cache := VBool false; workers := -1 |} (or_introl eq_refl)).
  discriminate H.
Qed.

(** * Further properties of the dispatcher *)

(** ** The worker farm is created lazily *)

Section lifecycle.
Context (d : dispatcher) (e : environment) (tasks : list task).
Implicit Types (st : state) (i : nat) (t : task).

Lemma worker_log t i st :
  installed (worker d e t i st).1 = Some (default (choose d) (installed st)) ∧
  invoked (worker d e t i st).1 = invoked st ++ [i].
Proof.
  unfold worker. destruct (default (choose d) (installed st)); simpl; [done|].
  destruct (inline d e t) as [[r|r blob]|ex]; done.
Qed.

Lemma worker_tracked t i st :
  (i < length tasks)%nat → tracked tasks st → tracked tasks (worker d e t i st).1.
Proof.
  intros Hlt [_ Hin]. destruct (worker_log t i st) as [Hi Hv].
  unfold tracked. rewrite Hi, Hv. split.
  - split; [done|]. intros Hnil. by destruct (app_cons_not_nil _ _ _ (eq_sym Hnil)).
  - intros j Hj. apply elem_of_app in Hj as [Hj|Hj]; [by apply Hin|].
    apply list_elem_of_singleton in Hj as ->. done.
Qed.

Lemma fire_tracked i st st' :
  tracked tasks st → fire d e tasks i st = Some st' → tracked tasks st'.
Proof.
  intros Htr. unfold fire. destruct (tasks !! i) as [t|] eqn:Ht; [|done].
  pose proof (lookup_lt_Some _ _ _ Ht) as Hlt.
  destruct (pending st !! i) as [k|]; [|done]. intros [= <-].
  destruct k as [|req|result].
  - destruct (cacache_get e i) as [data|].
    + by destruct (JSON.parse data).
    + by apply worker_tracked.
  - by destruct (on_worker d _ _) as [[r|r blob]|ex].
  - by destruct (cacache_put e i).
Qed.

Lemma run_tracked schedule st st' :
  tracked tasks st → run d e tasks schedule st = Some st' → tracked tasks st'.
Proof.
  revert st. induction schedule as [|i schedule IH]; intros st Htr; simpl.
  - by intros [= <-].
  - destruct (fire d e tasks i st) as [st1|] eqn:Hfire; [|done].
    apply IH. by eapply fire_tracked.
Qed.

Lemma forEach_tracked n rest st :
  (n + length rest ≤ length tasks)%nat →
  tracked tasks st → tracked tasks (forEach d e n rest st).1.
Proof.
  revert n st. induction rest as [|t rest IH]; intros n st Hlen Htr; simpl in *; [done|].
  assert (Hd : tracked tasks (dispatch d e t n st).1).
  { unfold dispatch. destruct (truthy (cache d)); [done|].
    apply worker_tracked; [lia|done]. }
  destruct (dispatch d e t n st) as [st1 [ex|]]; [done|]. apply IH; [lia|done].
Qed.

End lifecycle.

Lemma execute_tracked d e tasks schedule st :
  execute d e tasks schedule = Some st → tracked tasks st.
Proof.
  unfold execute. apply run_tracked.
  destruct tasks as [|t tasks].
  - split; [done|]. intros j Hj. by apply elem_of_nil in Hj.
  - unfold runTasks. apply forEach_tracked; [simpl; lia|].
    split; [done|]. intros j Hj. by apply elem_of_nil in Hj.
Qed.

(** X1. [exit] ends a worker farm exactly when the worker count is positive
    and some task of the batch was handed to [this.worker]: for a
    non-positive worker count, and for a batch that the cache answered
    entirely, no farm was created and [exit] does nothing. *)
Theorem exit_ends_the_farm_iff_created d e tasks schedule st :
  execute d e tasks schedule = Some st →
  (exit st = true ↔ 0 < workers d ∧ invoked st ≠ []) ∧
  ((∀ i, (i < length tasks)%nat →
      truthy (cache d) = true ∧ is_Some (cacache_get e i)) →
   exit st = false).
Proof.
  intros Hexec.
  pose proof (execute_invariant _ _ _ _ _ Hexec) as Hinv.
  destruct (execute_tracked _ _ _ _ _ Hexec) as [Htr Hbatch].
  assert (Hiff : exit st = true ↔ 0 < workers d ∧ invoked st ≠ []).
  { unfold exit.
    destruct (inv_installed _ _ _ _ _ Hinv) as [Hnone|Hsome].
    - rewrite Hnone. split; [done|]. intros [_ Hne]. destruct Hne. by apply Htr.
    - rewrite Hsome. unfold choose. destruct (0 <? workers d) eqn:Hw.
      + apply Z.ltb_lt in Hw. split; [|done]. intros _. split; [done|].
        intros Hnil. apply Htr in Hnil. congruence.
      + apply Z.ltb_ge in Hw. split; [done|]. intros [Hpos _]. lia. }
  split; [done|].
  intros Hall. destruct (exit st) eqn:Hexit; [|done]. exfalso.
  destruct Hiff as [Hiff _]. destruct (Hiff eq_refl) as [_ Hne].
  assert (Hex : ∃ i, i ∈ invoked st).
  { destruct (invoked st) as [|i rest]; [done|]. exists i. apply list_elem_of_here. }
  destruct Hex as [i Hin].
  assert (Hi : (i < length tasks)%nat) by (by apply Hbatch).
  destruct (lookup_lt_is_Some_2 tasks i Hi) as [t Ht].
  destruct (Hall i Hi) as [Hc [data Hget]].
  by destruct (fulfilled_read d e tasks schedule st i t data Hexec Ht Hc Hget).
Qed.

Lemma exit_ends_the_farm_iff_created_witness :
  let e := sample_environment second_cached in
  ∃ st st',
    execute farm_with_cache e three_tasks inverted_schedule = Some st ∧
    exit st = true ∧ invoked st ≠ [] ∧
    execute inline_with_cache e three_tasks inline_schedule = Some st' ∧
    exit st' = false.
Proof.
  intros e.
  destruct (execute farm_with_cache e three_tasks inverted_schedule)
    as [st|] eqn:Hexec; [|by vm_compute in Hexec].
  destruct (execute inline_with_cache e three_tasks inline_schedule)
    as [st'|] eqn:Hexec'; [|by vm_compute in Hexec'].
  exists st, st'.
  destruct (exit_ends_the_farm_iff_created _ _ _ _ _ Hexec) as [Hiff _].
  destruct (exit_ends_the_farm_iff_created _ _ _ _ _ Hexec') as [Hiff' _].
  assert (Hne : invoked st ≠ []).
  { vm_compute in Hexec. injection Hexec as <-. done. }
  split_and!; [done| |done|done|].
  - apply Hiff. split; [reflexivity|exact Hne].
  - destruct (exit st') eqn:Hx; [|done].
    destruct Hiff' as [Hiff' _]. destruct (Hiff' eq_refl) as [Hw _].
    simpl in Hw. lia.
Defined.

(** ** The constructor *)

Lemma constructor_returns p parallel d :
  constructor p parallel = Return d →
  ∃ w, workers d = if is_true w then Z.of_nat (cpus p) - 1
                   else Z.min (number_or_zero p w) (Z.of_nat (cpus p) - 1).
Proof.
  unfold constructor.
  destruct parallel as [| |b|n|s|source|source|elems|props]; simpl;
    try discriminate; intros [= <-]; simpl.
  all: try (by exists VUndefined).
  - by exists (VBool b).
  - by exists (default VUndefined (assoc "workers" props)).
Qed.

(** X2. Whatever its argument, the constructor never configures more
    workers than there are processors minus one; on a machine with a
    single processor (or none reported) every dispatcher therefore takes
    the inline worker. *)
Theorem workers_never_exceed_processors p parallel d :
  constructor p parallel = Return d →
  workers d ≤ Z.of_nat (cpus p) - 1 ∧
  ((cpus p ≤ 1)%nat → choose d = InlineWorker).
Proof.
  intros Hd. destruct (constructor_returns p parallel d Hd) as [w Hw].
  assert (Hle : workers d ≤ Z.of_nat (cpus p) - 1).
  { rewrite Hw. destruct (is_true w); lia. }
  split; [done|]. intros Hone. unfold choose.
  by replace (0 <? workers d) with false by (symmetry; apply Z.ltb_ge; lia).
Qed.

Lemma workers_never_exceed_processors_witness :
  ∃ d, constructor sample_platform
         (VObj [("cache", VBool false); ("workers", VNum 64)]) = Return d ∧
       workers d = 3 ∧ workers d ≤ Z.of_nat (cpus sample_platform) - 1.
Proof.
  destruct (constructor sample_platform
              (VObj [("cache", VBool false); ("workers", VNum 64)]))
    as [d|ex] eqn:Hd; [|by vm_compute in Hd].
  exists d. split; [done|].
  destruct (workers_never_exceed_processors _ _ _ Hd) as [Hle _].
  split; [|exact Hle].
  vm_compute in Hd. by injection Hd as <-.
Defined.


(** ** What is written to the cache *)

Section writes.
Context (d : dispatcher) (e : environment) (tasks : list task).
Implicit Types (st : state) (i : nat) (t : task).

Lemma on_worker_Store error data r blob :
  on_worker d error data = Return (Store r blob) →
  truthy (cache d) = true ∧ truthy error = false ∧ r = data ∧
  blob = JSON.stringify data ∧
  ∃ err, get data "error" = Return err ∧ truthy err = false.
Proof.
  unfold on_worker. destruct (truthy (cache d)); [|done].
  destruct (truthy error) eqn:Herr.
  - simpl. by rewrite Herr.
  - destruct (get data "error") as [err|ex] eqn:Hget; [|done].
    destruct (truthy err) eqn:Ht; simpl; [done|].
    intros [= <- <-]. eauto 10.
Qed.

Lemma inline_Store t r blob :
  inline d e t = Return (Store r blob) →
  truthy (cache d) = true ∧ blob = JSON.stringify r ∧
  ∃ err, get r "error" = Return err ∧ truthy err = false.
Proof.
  unfold inline. destruct (minify e (VObj t)) as [result|errors].
  - destruct (on_worker d VNull result) as [a|ex] eqn:Hw.
    + intros [= ->]. apply on_worker_Store in Hw as (Hc & _ & -> & -> & Herr). done.
    + intros Hw'. apply on_worker_Store in Hw' as (_ & _ & _ & _ & err & Hget & _).
      discriminate Hget.
  - intros Hw. apply on_worker_Store in Hw as (_ & _ & _ & _ & err & Hget & _).
    discriminate Hget.
Qed.

Lemma enqueue_puts i t st :
  tasks !! i = Some t → misses d e i →
  default (choose d) (installed st) = choose d →
  Forall (put_ok d e tasks) (puts st) →
  Forall (put_ok d e tasks) (puts (enqueue d e t i st).1).
Proof.
  intros Ht Hmiss Hkind Hputs. unfold enqueue, worker. rewrite Hkind.
  destruct (choose d) eqn:Hchoose; simpl; [done|].
  destruct (inline d e t) as [[r|r blob]|ex] eqn:Hinl; simpl; [done| |done].
  apply Forall_app. split; [done|]. apply Forall_singleton.
  destruct (inline_Store t r blob Hinl) as (Hc & -> & err & Hget & Herr).
  exists i, t, r, err. split_and!; try done.
  unfold computed. by rewrite Hchoose, Hinl.
Qed.

Lemma fire_puts i st st' :
  invariant d e tasks (length tasks) st →
  Forall (put_ok d e tasks) (puts st) →
  fire d e tasks i st = Some st' →
  Forall (put_ok d e tasks) (puts st').
Proof.
  intros Hinv Hputs. unfold fire.
  destruct (tasks !! i) as [t|] eqn:Ht; [|done].
  destruct (pending st !! i) as [k|] eqn:Hk; [|done]. intros [= <-].
  pose proof (inv_tasks _ _ _ _ _ Hinv i t Ht) as Hok. unfold task_ok in Hok.
  rewrite Hk in Hok. destruct Hok as (_ & _ & Hkont & _).
  destruct k as [|req|result]; simpl in Hkont.
  - destruct (cacache_get e i) as [data|] eqn:Hget.
    + by destruct (JSON.parse data).
    + apply enqueue_puts; try done.
      * unfold misses. by intros _.
      * simpl. by destruct (inv_installed _ _ _ _ _ Hinv) as [-> | ->].
  - destruct Hkont as (Hchoose & -> & Hmiss).
    destruct (on_worker d _ _) as [[r|r blob]|ex] eqn:Hw; simpl; [done| |done].
    apply Forall_app. split; [done|]. apply Forall_singleton.
    pose proof Hw as Hw'.
    apply on_worker_Store in Hw' as (Hc & _ & Hr & -> & err & Hget & Herr).
    exists i, t, r, err. subst r. split_and!; try done.
    unfold computed. by rewrite Hchoose, Hw.
  - by destruct (cacache_put e i).
Qed.

Lemma run_puts schedule st st' :
  invariant d e tasks (length tasks) st →
  Forall (put_ok d e tasks) (puts st) →
  run d e tasks schedule st = Some st' →
  Forall (put_ok d e tasks) (puts st').
Proof.
  revert st. induction schedule as [|i schedule IH]; intros st Hinv Hputs; simpl.
  - by intros [= <-].
  - destruct (fire d e tasks i st) as [st1|] eqn:Hfire; [|done].
    apply IH; [by eapply fire_invariant|by eapply fire_puts].
Qed.

Lemma forEach_puts rest n st :
  (∀ j t, rest !! j = Some t → tasks !! (n + j)%nat = Some t) →
  invariant d e tasks n st →
  Forall (put_ok d e tasks) (puts st) →
  Forall (put_ok d e tasks) (puts (forEach d e n rest st).1).
Proof.
  revert n st. induction rest as [|t rest IH]; intros n st Hrest Hinv Hputs; simpl; [done|].
  assert (Ht : tasks !! n = Some t).
  { specialize (Hrest 0%nat t eq_refl). by rewrite Nat.add_0_r in Hrest. }
  destruct (dispatch_invariant d e tasks n t st Hinv Ht) as [Hinv' Hnone].
  assert (Hputs' : Forall (put_ok d e tasks) (puts (dispatch d e t n st).1)).
  { unfold dispatch. destruct (truthy (cache d)) eqn:Hc; [done|].
    apply enqueue_puts; try done.
    - unfold misses. congruence.
    - by destruct (inv_installed _ _ _ _ _ Hinv) as [-> | ->]. }
  destruct (dispatch d e t n st) as [st1 [ex|]]; simpl in *; [done|].
  apply IH; [|done|done].
  intros j tj Hj. specialize (Hrest (S j) tj Hj).
  by replace (S n + j)%nat with (n + S j)%nat by lia.
Qed.

End writes.

Lemma runTasks_initial d e tasks :
  tasks ≠ [] →
  runTasks d e tasks
  = forEach d e 0 tasks
      {| toRun := Z.of_nat (length tasks); results := []; called := [];
         pending := ∅; installed := None; invoked := []; puts := [] |} ∧
  invariant d e tasks 0
      {| toRun := Z.of_nat (length tasks); results := []; called := [];
         pending := ∅; installed := None; invoked := []; puts := [] |}.
Proof.
  intros Hne. destruct tasks as [|t0 rest]; [done|]. split; [done|].
  split; simpl; try done.
  - lia.
  - intros i t Ht. unfold task_ok. cbn [pending results invoked]. rewrite lookup_empty.
    case_decide; [lia|]. split; [done|]. apply not_elem_of_nil.
  - intros i Hi. rewrite lookup_empty in Hi. by destruct Hi.
  - by left.
  - constructor.
Qed.

Lemma execute_puts d e tasks schedule st :
  execute d e tasks schedule = Some st → Forall (put_ok d e tasks) (puts st).
Proof.
  unfold execute. apply run_puts; [apply runTasks_invariant|].
  destruct (decide (tasks = [])) as [->|Hne]; [done|].
  destruct (runTasks_initial d e tasks Hne) as [-> Hinv].
  by apply forEach_puts.
Qed.

(** X4. Every call of [cacache.put] made for a batch is for a task of the
    batch that missed the cache: it is keyed by the [cacheKey] of that
    task, and its data is [JSON.stringify] of the result computed for the
    task, a result whose [error] is falsy. So a result with an error, and a
    result that came out of the cache, is never written; and without a
    cache nothing is written at all. *)
Theorem cache_writes_are_computed_results d e tasks schedule st :
  execute d e tasks schedule = Some st →
  (∀ c key data, (c, key, data) ∈ puts st →
     ∃ i t r err,
       tasks !! i = Some t ∧ misses d e i ∧ outcome d e i t = Some r ∧
       get r "error" = Return err ∧ truthy err = false ∧
       c = cache d ∧ key = cacheKey t ∧ data = JSON.stringify r) ∧
  (truthy (cache d) = false → puts st = []).
Proof.
  intros Hexec. pose proof (execute_puts _ _ _ _ _ Hexec) as Hputs.
  rewrite Forall_forall in Hputs. split.
  - intros c key data Hin.
    destruct (Hputs _ Hin) as (i & t & r & err & Ht & Hmiss & Hc & Hcomp & Hget & Herr & Heq).
    injection Heq as -> -> ->. exists i, t, r, err.
    split_and!; try done. by rewrite outcome_misses.
  - intros Hc. destruct (puts st) as [|p rest]; [done|].
    destruct (Hputs p) as (i & t & r & err & _ & _ & Hc' & _); [apply list_elem_of_here|].
    congruence.
Qed.

Lemma cache_writes_are_computed_results_witness :
  let e := sample_environment second_cached in
  ∃ st, execute farm_with_cache e three_tasks inverted_schedule = Some st ∧
    puts st = [(cache farm_with_cache, VStr "C",
                Some (JSON.JObj [("code", JSON.JStr "z=3;")]));
               (cache farm_with_cache, VStr "A",
                Some (JSON.JObj [("code", JSON.JStr "x=1;")]))] ∧
    ∀ c key data, (c, key, data) ∈ puts st →
      ∃ i t r err,
        three_tasks !! i = Some t ∧ misses farm_with_cache e i ∧
        outcome farm_with_cache e i t = Some r ∧
        get r "error" = Return err ∧ truthy err = false ∧
        c = cache farm_with_cache ∧ key = cacheKey t ∧ data = JSON.stringify r.
Proof.
  intros e.
  destruct (execute farm_with_cache e three_tasks inverted_schedule)
    as [st|] eqn:Hexec; [|by vm_compute in Hexec].
  exists st. split; [done|].
  destruct (cache_writes_are_computed_results _ _ _ _ _ Hexec) as [Hall _].
  split; [|exact Hall].
  vm_compute in Hexec. by injection Hexec as <-.
Defined.

(** ** A result survives the cache *)

(** X5. A result whose properties are plain JSON data or [undefined]
    survives the cache. The text that [runTasks] writes for it is one that
    [JSON.parse] accepts, and every property read gives on the parsed value
    what it gives on the result; so in a batch whose cache read for a task
    returns that text, the task is not handed to the worker and the parsed
    value is its entry in what the callback receives. *)
Theorem result_survives_the_cache props :
  NoDup props.*1 → record_like props = true →
  ∃ doc r,
    JSON.stringify (VObj props) = Some doc ∧
    JSON.parse (JSON.Text doc) = Some r ∧
    (∀ key, get r key = get (VObj props) key) ∧
    ∀ d e tasks schedule st i t,
      truthy (cache d) = true → tasks !! i = Some t →
      cacache_get e i = Some (JSON.Text doc) →
      execute d e tasks schedule = Some st →
      (i ∉ invoked st) ∧
      ∀ err rs, (err, rs) ∈ called st → rs !! i = Some (Some r).
Proof.
  intros Hnd Hrec.
  destruct (stringify_record props Hnd Hrec) as (members & Hs & Hreads).
  exists (JSON.JObj members), (JSON.value_of (JSON.JObj members)).
  split_and!; [done|done|done|].
  intros d e tasks schedule st i t Hc Ht Hget Hexec.
  destruct (fulfilled_read d e tasks schedule st i t _ Hexec Ht Hc Hget) as [Hni Hv].
  split; [done|]. by apply (Hv _ eq_refl).
Qed.

Lemma result_survives_the_cache_witness :
  ∃ doc r,
    JSON.stringify (VObj sample_result) = Some doc ∧
    JSON.parse (JSON.Text doc) = Some r ∧
    get r "code" = Return (VStr "x=1;") ∧ get r "error" = Return VUndefined.
Proof.
  destruct (result_survives_the_cache sample_result) as (doc & r & Hs & Hp & Hreads & _).
  - apply (bool_decide_unpack _). vm_compute. exact I.
  - reflexivity.
  - exists doc, r. split_and!; [done|done| |]; by rewrite Hreads.
Defined.

(** ** When the callback is invoked *)

Section timing.
Context (d : dispatcher) (e : environment).
Implicit Types (st : state) (n : nat) (t : task) (tasks rest : list task).

Lemma dispatch_no_cache t n st :
  truthy (cache d) = false →
  (dispatch d e t n st).2 = None ∧
  invoked (dispatch d e t n st).1 = invoked st ++ [n].
Proof.
  intros Hc. unfold dispatch. rewrite Hc. unfold enqueue.
  destruct (worker_log d e t n st) as [_ Hv]. split; [|done].
  unfold worker. destruct (default (choose d) (installed st)); [done|].
  by destruct (inline_no_cache d e t Hc) as [r ->].
Qed.

Lemma forEach_no_cache rest n st :
  truthy (cache d) = false →
  invoked (forEach d e n rest st).1 = invoked st ++ seq n (length rest).
Proof.
  intros Hc. revert n st. induction rest as [|t rest IH]; intros n st; simpl.
  - by rewrite app_nil_r.
  - destruct (dispatch_no_cache t n st Hc) as [Hnone Hv].
    destruct (dispatch d e t n st) as [st1 [ex|]]; simpl in *; [done|].
    rewrite IH, Hv. by rewrite <- app_assoc.
Qed.

(** While [forEach] only parks continuations, nothing is recorded. *)
Lemma forEach_parks rest n st :
  truthy (cache d) = true ∨ default (choose d) (installed st) = FarmWorker →
  results (forEach d e n rest st).1 = results st ∧
  called (forEach d e n rest st).1 = called st ∧
  toRun (forEach d e n rest st).1 = toRun st ∧
  (truthy (cache d) = true → invoked (forEach d e n rest st).1 = invoked st).
Proof.
  revert n st. induction rest as [|t rest IH]; intros n st Hpark; simpl; [done|].
  unfold dispatch. destruct (truthy (cache d)) eqn:Hc.
  - destruct (IH (S n) (wait n KGet st) (or_introl eq_refl)) as (H1 & H2 & H3 & H4).
    rewrite H1, H2, H3. split_and!; first [done | intros _; by rewrite H4].
  - destruct Hpark as [|Hfarm]; [done|].
    unfold enqueue, worker. rewrite Hfarm.
    match goal with |- context [forEach d e (S n) rest ?s] =>
      destruct (IH (S n) s (or_intror eq_refl)) as (H1 & H2 & H3 & _) end.
    rewrite H1, H2, H3. done.
Qed.

End timing.

(** The batch of a dispatcher without cache and without workers. *)
Lemma inline_run d e tasks :
  truthy (cache d) = false → workers d ≤ 0 →
  (runTasks d e tasks).2 = None ∧
  quiescent (runTasks d e tasks).1 ∧
  invoked (runTasks d e tasks).1 = seq 0 (length tasks) ∧
  (∀ i t, tasks !! i = Some t → is_Some (outcome d e i t)) ∧
  called (runTasks d e tasks).1 = [(VNull, outcomes d e tasks)].
Proof.
  intros Hc Hw.
  destruct (runTasks_invariant d e tasks) as [Hinv Hnone].
  assert (Hchoose : choose d = InlineWorker).
  { unfold choose. by replace (0 <? workers d) with false
      by (symmetry; apply Z.ltb_ge; lia). }
  assert (Hq : quiescent (runTasks d e tasks).1).
  { apply map_eq. intros i. rewrite lookup_empty.
    destruct (pending (runTasks d e tasks).1 !! i) as [k|] eqn:Hk; [|done].
    assert (Hi : (i < length tasks)%nat) by (apply (inv_dom _ _ _ _ _ Hinv); eauto).
    destruct (lookup_lt_is_Some_2 tasks i Hi) as [t Ht].
    pose proof (inv_tasks _ _ _ _ _ Hinv i t Ht) as Hok. unfold task_ok in Hok.
    rewrite Hk in Hok. destruct Hok as (_ & _ & Hkont & _).
    destruct k; simpl in Hkont; [congruence| |]; destruct Hkont as [Hx _]; congruence. }
  assert (Hall : ∀ i t, tasks !! i = Some t → is_Some (outcome d e i t)).
  { intros i t Ht. unfold outcome, computed. rewrite Hc, Hchoose.
    destruct (inline_no_cache d e t Hc) as [r ->]. by eexists. }
  split_and!; [done|done| |done|].
  - destruct tasks as [|t0 rest]; [done|]. unfold runTasks.
    by rewrite forEach_no_cache.
  - destruct (invariant_quiescent d e tasks _ Hinv Hq) as (_ & Hcalled & _).
    by apply Hcalled.
Qed.

(** X6. Without a cache and with a worker count that is not positive,
    [runTasks] has finished the batch by the time it returns: every task
    was handed to the inline worker, in the order of the batch, no
    continuation is waiting, and the callback has been invoked, once, with
    the result of every task. *)
Theorem inline_batch_completes_before_return d e tasks :
  truthy (cache d) = false → workers d ≤ 0 →
  (runTasks d e tasks).2 = None ∧
  quiescent (runTasks d e tasks).1 ∧
  invoked (runTasks d e tasks).1 = seq 0 (length tasks) ∧
  (∀ i t, tasks !! i = Some t → is_Some (outcome d e i t)) ∧
  called (runTasks d e tasks).1 = [(VNull, outcomes d e tasks)].
Proof. apply inline_run. Qed.

Lemma inline_batch_completes_before_return_witness :
  let e := sample_environment nothing_cached in
  invoked (runTasks inline_without_cache e faulty_tasks).1 = [0; 1; 2]%nat ∧
  called (runTasks inline_without_cache e faulty_tasks).1
    = [(VNull, [Some (VObj [("code", VStr "x=1;")]);
                Some (VObj [("error", syntax_error)]);
                Some (VObj [("code", VStr "z=3;")])])].
Proof.
  intros e.
  destruct (inline_batch_completes_before_return inline_without_cache e faulty_tasks)
    as (_ & _ & Hv & _ & Hcalled); [reflexivity|simpl; lia|].
  split; [exact Hv|]. rewrite Hcalled. vm_compute. reflexivity.
Defined.

(** X7. With a cache, or with a positive worker count, [runTasks] returns
    from a batch that is not empty before anything is recorded: the
    callback has not been invoked and [results] is empty; with a cache, no
    task has been handed to the worker either. *)
Theorem deferred_batch_returns_first d e tasks :
  tasks ≠ [] → truthy (cache d) = true ∨ 0 < workers d →
  called (runTasks d e tasks).1 = [] ∧
  results (runTasks d e tasks).1 = [] ∧
  toRun (runTasks d e tasks).1 = Z.of_nat (length tasks) ∧
  (truthy (cache d) = true → invoked (runTasks d e tasks).1 = []).
Proof.
  intros Hne Hdef. destruct (runTasks_initial d e tasks Hne) as [-> _].
  assert (Hpark : truthy (cache d) = true ∨ default (choose d) None = FarmWorker).
  { destruct Hdef as [Hc|Hw]; [by left|right]. simpl. unfold choose.
    by replace (0 <? workers d) with true by (symmetry; apply Z.ltb_lt; lia). }
  match goal with |- context [forEach d e 0 tasks ?s] =>
    destruct (forEach_parks d e tasks 0%nat s Hpark) as (H1 & H2 & H3 & H4) end.
  rewrite H1, H2, H3. split_and!; try done.
Qed.

Lemma deferred_batch_returns_first_witness :
  let e := sample_environment second_cached in
  called (runTasks farm_with_cache e three_tasks).1 = [] ∧
  results (runTasks farm_with_cache e three_tasks).1 = [] ∧
  toRun (runTasks farm_with_cache e three_tasks).1 = 3 ∧
  invoked (runTasks farm_with_cache e three_tasks).1 = [].
Proof.
  intros e.
  destruct (deferred_batch_returns_first farm_with_cache e three_tasks)
    as (Hc & Hr & Ht & Hv); [done|by left|].
  split_and!; [done|done|done|]. by apply Hv.
Defined.

(** ** Every batch is finite *)

Section bound.
Context (d : dispatcher) (e : environment) (tasks : list task).
Implicit Types (st : state) (n i : nat) (t : task).

Lemma dispatch_weight n t st :
  pending st !! n = None →
  (weight (dispatch d e t n st).1 ≤ weight st + 3)%nat.
Proof.
  intros Hnone. unfold dispatch, weight.
  pose proof (weigh_insert (pending st) n KGet Hnone) as Hget.
  pose proof (λ r, weigh_insert (pending st) n (KFarm r) Hnone) as Hfarm.
  pose proof (λ r, weigh_insert (pending st) n (KPut r) Hnone) as Hput.
  simpl in Hget, Hfarm, Hput.
  destruct (truthy (cache d)); simpl; [lia|].
  unfold enqueue, worker. destruct (default (choose d) (installed st)); simpl.
  - rewrite Hfarm. lia.
  - destruct (inline d e t) as [[r|r blob]|ex]; simpl; [lia| |lia].
    rewrite Hput. lia.
Qed.

Lemma forEach_weight rest n st :
  (∀ j t, rest !! j = Some t → tasks !! (n + j)%nat = Some t) →
  invariant d e tasks n st →
  (weight (forEach d e n rest st).1 ≤ weight st + 3 * length rest)%nat.
Proof.
  revert n st. induction rest as [|t rest IH]; intros n st Hrest Hinv; simpl; [lia|].
  assert (Ht : tasks !! n = Some t).
  { specialize (Hrest 0%nat t eq_refl). by rewrite Nat.add_0_r in Hrest. }
  assert (Hnone : pending st !! n = None).
  { pose proof (inv_tasks _ _ _ _ _ Hinv n t Ht) as Hok. unfold task_ok in Hok.
    destruct (pending st !! n); [lia|done]. }
  destruct (dispatch_invariant d e tasks n t st Hinv Ht) as [Hinv' _].
  pose proof (dispatch_weight n t st Hnone) as Hw.
  destruct (dispatch d e t n st) as [st1 [ex|]]; simpl in *; [lia|].
  assert (Hrest' : ∀ j tj, rest !! j = Some tj → tasks !! (S n + j)%nat = Some tj).
  { intros j tj Hj. specialize (Hrest (S j) tj Hj).
    by replace (S n + j)%nat with (n + S j)%nat by lia. }
  specialize (IH (S n) st1 Hrest' Hinv'). lia.
Qed.

Lemma run_weight schedule st st' :
  run d e tasks schedule st = Some st' →
  (length schedule + weight st' ≤ weight st)%nat.
Proof.
  revert st. induction schedule as [|i schedule IH]; intros st; simpl.
  - intros [= <-]. lia.
  - destruct (fire d e tasks i st) as [st1|] eqn:Hfire; [|done].
    intros Hrun. specialize (IH st1 Hrun).
    pose proof (fire_weight d e tasks i st st1 Hfire). lia.
Qed.

End bound.

(** X8. A batch takes at most three continuations per task (the cache
    read, the answer of the farm, the cache write): no execution is longer
    than three times the batch, and every execution can be continued until
    no continuation is waiting. *)
Theorem at_most_three_steps_per_task d e tasks schedule st :
  execute d e tasks schedule = Some st →
  (length schedule ≤ 3 * length tasks)%nat ∧
  ∃ more st', execute d e tasks (schedule ++ more) = Some st' ∧ quiescent st'.
Proof.
  intros Hexec. split; [|by eapply execution_comes_to_rest].
  unfold execute in Hexec. pose proof (run_weight _ _ _ _ _ _ Hexec) as Hrun.
  assert (Hinit : (weight (runTasks d e tasks).1 ≤ 3 * length tasks)%nat); [|lia].
  destruct (decide (tasks = [])) as [->|Hne]; [done|].
  destruct (runTasks_initial d e tasks Hne) as [-> Hinv].
  pose proof (forEach_weight d e tasks tasks 0%nat _ (λ j t H, H) Hinv) as Hw.
  assert (Hzero : weigh (∅ : gmap nat kont) = 0%nat) by apply map_fold_empty.
  unfold weight in Hw at 2. simpl in Hw. rewrite Hzero in Hw. lia.
Qed.

Lemma at_most_three_steps_per_task_witness :
  let e := sample_environment second_cached in
  is_Some (execute farm_with_cache e three_tasks inverted_schedule) ∧
  (length inverted_schedule ≤ 3 * length three_tasks)%nat.
Proof.
  intros e.
  destruct (execute farm_with_cache e three_tasks inverted_schedule)
    as [st|] eqn:Hexec; [|by vm_compute in Hexec].
  split; [by eexists|].
  by destruct (at_most_three_steps_per_task _ _ _ _ _ Hexec) as [Hlen _].
Defined.

(** ** After the callback *)

(** X9. With a worker farm, once the callback has been invoked the batch
    is over: no continuation is left that could run, so the array that the
    callback received is not written again and the callback is not invoked
    a second time. With a farm the callback is invoked from a continuation
    of the cache or of the farm, never from within the [try] block of the
    inline worker. *)
Theorem results_are_final_after_callback d e tasks schedule st err rs :
  0 < workers d →
  execute d e tasks schedule = Some st → (err, rs) ∈ called st →
  rs = results st ∧
  (∀ i, fire d e tasks i st = None) ∧
  ∀ more st', execute d e tasks (schedule ++ more) = Some st' →
    more = [] ∧ st' = st.
Proof.
  intros _ Hexec Hin.
  destruct (callback_at_most_once d e tasks schedule st Hexec) as [_ Hall].
  destruct (Hall err rs Hin) as (Hq & Hrs & _).
  assert (Hfire : ∀ i, fire d e tasks i st = None).
  { intros i. unfold fire. rewrite Hq, lookup_empty. by destruct (tasks !! i). }
  split_and!; [done|done|].
  intros more st'. unfold execute in *. rewrite run_app, Hexec.
  destruct more as [|i more]; simpl.
  - by intros [= <-].
  - by rewrite Hfire.
Qed.

Lemma results_are_final_after_callback_witness :
  let e := sample_environment second_cached in
  ∃ st rs, execute farm_with_cache e three_tasks inverted_schedule = Some st ∧
    (VNull, rs) ∈ called st ∧ rs = results st ∧
    ∀ i, fire farm_with_cache e three_tasks i st = None.
Proof.
  intros e.
  destruct (execute farm_with_cache e three_tasks inverted_schedule)
    as [st|] eqn:Hexec; [|by vm_compute in Hexec].
  exists st, (results st).
  assert (Hin : (VNull, results st) ∈ called st).
  { vm_compute in Hexec. injection Hexec as <-. apply list_elem_of_here. }
  destruct (results_are_final_after_callback farm_with_cache _ _ _ _ _ _ eq_refl Hexec Hin)
    as (_ & Hf & _).
  done.
Defined.

(** * Properties of the plugin *)

(** ** buildError *)

Lemma and_then_Return {A B} (c : completion A) (k : A → completion B) b :
  and_then c k = Return b → ∃ a, c = Return a ∧ k a = Return b.
Proof. destruct c as [a|ex]; simpl; [eauto|done]. Qed.




(** ** buildWarnings *)

Section warnings.
Context (exec : string → option position_tag) (file : string) (map : consumer)
  (warningsFilter : value → completion value) (requestShortener : shortener).

Lemma kept_inv tag original w text :
  exec w = Some tag →
  originalPositionFor map (VNum (tag_line tag)) (VNum (tag_column tag))
    = Return original →
  kept exec file map warningsFilter requestShortener w text →
  truthy original = true ∧
  ∃ source keep,
    get original "source" = Return source ∧
    truthy source && differs_from source file = true ∧
    warningsFilter source = Return keep ∧ truthy keep = true.
Proof.
  intros Hexec Horig (tag' & original' & source & short & oline & ocolumn & Hk).
  destruct Hk as (Hexec' & Horig' & Hto & Hsource & Hts & Hdiff & (keep & Hfilter & Htk) & _).
  rewrite Hexec in Hexec'. injection Hexec' as <-.
  rewrite Horig in Horig'. injection Horig' as <-.
  split; [done|]. exists source, keep. by rewrite Hts, Hdiff.
Qed.

Lemma reduce_warnings_Return acc warnings out :
  reduce_warnings exec file map warningsFilter requestShortener acc warnings
    = Return out →
  Forall (λ w, is_Some (exec w)) warnings ∧
  ∃ texts, out = acc ++ omap id texts ∧
    Forall2 (rewritten exec file map warningsFilter requestShortener) warnings texts.
Proof.
  revert acc. induction warnings as [|w warnings IH]; intros acc; simpl.
  - intros [= <-]. split; [done|]. exists []. rewrite app_nil_r. by split.
  - destruct (exec w) as [tag|] eqn:Hexec; [|done]. intros H.
    apply and_then_Return in H as (original & Horig & H).
    apply and_then_Return in H as (source & Hsource & H).
    apply and_then_Return in H as (keep & Hkeep & H).
    apply and_then_Return in H as (acc' & Hacc & H).
    destruct (IH acc' H) as (Hall & texts & -> & Htexts).
    split; [constructor; eauto|].
    destruct (truthy keep) eqn:Htk.
    + apply and_then_Return in Hacc as (short & Hshort & Hacc).
      apply and_then_Return in Hacc as (oline & Holine & Hacc).
      apply and_then_Return in Hacc as (ocolumn & Hocolumn & Hacc).
      injection Hacc as <-.
      eexists (Some _ :: texts). simpl. rewrite <- app_assoc.
      split; [done|]. constructor; [|done]. simpl.
      destruct (truthy source && differs_from source file) eqn:Hcond;
        [|injection Hkeep as <-; done].
      apply andb_prop in Hcond as [Hts Hdiff].
      destruct (truthy original) eqn:Hto;
        [|injection Hsource as <-; congruence].
      exists tag, original, source, short, oline, ocolumn.
      split_and!; try done. by exists keep.
    + injection Hacc as <-. exists (None :: texts). simpl.
      split; [done|]. constructor; [|done]. simpl.
      intros text Hkept.
      destruct (kept_inv tag original w text Hexec Horig Hkept)
        as (Hto & source' & keep' & Hsource' & Hcond & Hfilter & Htk').
      rewrite Hto, Hsource' in Hsource. injection Hsource as <-.
      rewrite Hcond, Hfilter in Hkeep. injection Hkeep as <-. congruence.
Qed.

End warnings.

(** X11. With a source map, [buildWarnings] goes through the warnings in
    order and returns exactly one text for each warning that qualifies and
    none for the others. A warning qualifies when the map resolves its
    position to a source other than the file itself that [warningsFilter]
    accepts; its text is the warning without its position, followed by the
    original position. Without a source map the warnings are returned as
    they are, and [warningsFilter] is not asked. *)
Theorem buildWarnings_keeps_mapped_warnings exec warnings file sourceMap
    warningsFilter requestShortener out :
  buildWarnings exec warnings file sourceMap warningsFilter requestShortener
    = Return out →
  match sourceMap with
  | None => out = warnings
  | Some map =>
      ∃ texts,
        Forall2 (rewritten exec file map warningsFilter requestShortener)
          warnings texts ∧
        out = omap id texts
  end.
Proof.
  unfold buildWarnings. destruct sourceMap as [map|]; [|by intros [= <-]].
  intros H. apply reduce_warnings_Return in H as (_ & texts & -> & Htexts).
  by exists texts.
Qed.

Lemma buildWarnings_keeps_mapped_warnings_witness :
  ∃ texts,
    buildWarnings mixed_exec mixed_warnings "main.js" (Some mixed_consumer)
      sample_filter (Some (λ v, Return v))
    = Return ["Dropping unused variable a [src/a.js:10,2]"] ∧
    Forall2 (rewritten mixed_exec "main.js" mixed_consumer sample_filter
               (Some (λ v, Return v)))
      mixed_warnings texts ∧
    omap id texts = ["Dropping unused variable a [src/a.js:10,2]"].
Proof.
  assert (H : buildWarnings mixed_exec mixed_warnings "main.js" (Some mixed_consumer)
            sample_filter (Some (λ v, Return v))
          = Return ["Dropping unused variable a [src/a.js:10,2]"])
    by (vm_compute; reflexivity).
  destruct (buildWarnings_keeps_mapped_warnings _ _ _ (Some mixed_consumer) _ _ _ H)
    as (texts & Htexts & Hout).
  exists texts. split_and!; [exact H|exact Htexts|by rewrite <- Hout].
Defined.

(** X12. With a source map, a warning in which [warningRegex] finds no
    position makes [buildWarnings] throw, whatever the other warnings are;
    without a source map the same warnings are returned. *)
Theorem buildWarnings_needs_positions exec warnings file map warningsFilter
    requestShortener w :
  w ∈ warnings → exec w = None →
  (∃ ex, buildWarnings exec warnings file (Some map) warningsFilter requestShortener
         = Throw ex) ∧
  buildWarnings exec warnings file None warningsFilter requestShortener
    = Return warnings.
Proof.
  intros Hin Hnone. split; [|done]. unfold buildWarnings.
  destruct (reduce_warnings exec file map warningsFilter requestShortener [] warnings)
    as [out|ex] eqn:H; [|eauto].
  apply reduce_warnings_Return in H as (Hall & _).
  rewrite Forall_forall in Hall. destruct (Hall w Hin) as [tag Htag]. congruence.
Qed.

Lemma buildWarnings_needs_positions_witness :
  buildWarnings sample_exec ["Dropping unused variable a [main.js:1,4]"; "Side effects"]
    "main.js" (Some sample_consumer) (λ _, Return (VBool true)) (Some (λ v, Return v))
  = Throw TypeError.
Proof.
  destruct (buildWarnings_needs_positions sample_exec
              ["Dropping unused variable a [main.js:1,4]"; "Side effects"]
              "main.js" sample_consumer (λ _, Return (VBool true))
              (Some (λ v, Return v)) "Side effects") as [[ex Hex] _].
  - apply list_elem_of_further, list_elem_of_here.
  - reflexivity.
  - rewrite Hex. vm_compute in Hex. by injection Hex as <-.
Defined.

(** ** The constructor of the plugin *)

Lemma assoc_define q key v props :
  assoc q (define key v props) = if String.eqb key q then Some v else assoc q props.
Proof.
  induction props as [|[k x] props IH]; simpl; [done|].
  destruct (String.eqb k key) eqn:Hk; simpl.
  - apply String.eqb_eq in Hk as ->. by destruct (String.eqb key q).
  - rewrite IH. destruct (String.eqb k q) eqn:Hq; [|done].
    apply String.eqb_eq in Hq as ->. by rewrite String.eqb_sym, Hk.
Qed.

Lemma assoc_absent {A} q (props : list (string * A)) :
  q ∉ props.*1 → assoc q props = None.
Proof.
  induction props as [|[k x] props IH]; simpl; [done|].
  intros Hq. apply not_elem_of_cons in Hq as [Hne Hq].
  destruct (String.eqb k q) eqn:Hk; [|by apply IH].
  apply String.eqb_eq in Hk. congruence.
Qed.

(** In a spread the properties of the second object win. *)
Lemma assoc_spread q more base :
  NoDup more.*1 →
  assoc q (spread base more)
  = match assoc q more with
    | Some v => Some v
    | None => assoc q base
    end.
Proof.
  unfold spread. revert base.
  induction more as [|[k v] more IH]; intros base Hnd; simpl; [done|].
  apply NoDup_cons in Hnd as [Hk Hnd]. rewrite (IH _ Hnd), assoc_define.
  destruct (String.eqb k q) eqn:Hq.
  - apply String.eqb_eq in Hq as <-. by rewrite (assoc_absent k more Hk).
  - done.
Qed.

(** X13. The options for uglify that the constructor keeps hold every
    option of the user as given. That includes [output]: an [output] of
    the user replaces the default [output] as a whole, so the default
    pattern for [comments] is there only when the user gives no [output]
    at all. *)
Theorem user_options_replace_the_defaults valid options this props :
  UglifyJsPlugin valid options = Return this →
  get (or_default options (VObj [])) "uglifyOptions" = Return (VObj props) →
  NoDup props.*1 →
  (∀ key v, assoc key props = Some v → get (uglifyOptions this) key = Return v) ∧
  (assoc "output" props = None →
     get (uglifyOptions this) "output"
     = Return (VObj [("comments", default_comments)])).
Proof.
  unfold UglifyJsPlugin. intros Hthis Hget Hnd.
  destruct (valid (or_default options (VObj []))); [|done].
  rewrite Hget in Hthis. simpl in Hthis.
  apply and_then_Return in Hthis as (t & _ & Hthis).
  apply and_then_Return in Hthis as (w & _ & Hthis).
  apply and_then_Return in Hthis as (x & _ & Hthis).
  apply and_then_Return in Hthis as (s & _ & Hthis).
  apply and_then_Return in Hthis as (p & _ & Hthis).
  injection Hthis as <-. simpl. split.
  - intros key v Hkey. by rewrite (assoc_spread _ _ _ Hnd), Hkey.
  - intros Hnone. by rewrite (assoc_spread _ _ _ Hnd), Hnone.
Qed.

Lemma user_options_replace_the_defaults_witness :
  ∃ this,
    UglifyJsPlugin (λ _, true)
      (VObj [("uglifyOptions",
              VObj [("ecma", VNum 6); ("output", VObj [("beautify", VBool true)])])])
    = Return this ∧
    get (uglifyOptions this) "output" = Return (VObj [("beautify", VBool true)]) ∧
    get (uglifyOptions this) "ecma" = Return (VNum 6).
Proof.
  eexists. split; [reflexivity|].
  match goal with
  | |- get (uglifyOptions ?this) _ = _ ∧ _ =>
      destruct (user_options_replace_the_defaults (λ _, true)
                  (VObj [("uglifyOptions",
                          VObj [("ecma", VNum 6);
                                ("output", VObj [("beautify", VBool true)])])])
                  this
                  [("ecma", VNum 6); ("output", VObj [("beautify", VBool true)])])
        as [Hkeep _]
  end.
  - reflexivity.
  - reflexivity.
  - apply (bool_decide_unpack _). vm_compute. exact I.
  - split; apply Hkeep; reflexivity.
Defined.

(** ** The preparation of the tasks *)

Section preparation.
Context (h : host) (e : environment) (this : plugin) (outputPath : value)
        (requestShortener : shortener).

Lemma report_Return error file sm b b' :
  report error file sm requestShortener b = Return b' →
  ∃ err, b' = with_comp (push_error err (comp b)) b.
Proof.
  unfold report. intros H. apply and_then_Return in H as (err & _ & H).
  injection H as <-. eauto.
Qed.

Lemma prepare_Return file b b' :
  uglifiedAssets b = ∅ → prepare h e this outputPath requestShortener file b = Return b' →
  uglifiedAssets b' = ∅ ∧ assets (comp b') = assets (comp b) ∧
  ((∃ p, tasks_built b' = tasks_built b ++ [p] ∧ p_file p = file ∧
         well_prepared h e this outputPath p ∧ comp b' = comp b) ∨
   (∃ err, tasks_built b' = tasks_built b ∧ comp b' = push_error err (comp b))).
Proof.
  intros Hempty. unfold prepare, is_uglified. rewrite Hempty.
  replace (match assets (comp b) !! file with
           | Some o => bool_decide (o ∈ (∅ : gset nat))
           | None => false
           end) with false by (by destruct (assets (comp b) !! file)).
  destruct (read_asset h this (asset (comp b) file)) as [[[input inputSourceMap] sm]|error].
  - destruct (comments_file h this file) as [commentsFile|error].
    + intros [= <-]. simpl. split_and!; [done|done|]. left. by eexists.
    + intros H. apply report_Return in H as [err ->]. simpl.
      split_and!; [done|done|]. right. by eexists.
  - intros H. apply report_Return in H as [err ->]. simpl.
    split_and!; [done|done|]. right. by eexists.
Qed.

Lemma prepare_all_Return files b b' :
  uglifiedAssets b = ∅ → prepare_all h e this outputPath requestShortener files b = Return b' →
  uglifiedAssets b' = ∅ ∧ assets (comp b') = assets (comp b) ∧
  ∃ new reported,
    tasks_built b' = tasks_built b ++ new ∧
    errors (comp b') = errors (comp b) ++ reported ∧
    (length new + length reported = length files)%nat ∧
    map p_file new `sublist_of` files ∧
    Forall (well_prepared h e this outputPath) new.
Proof.
  revert b. induction files as [|file files IH]; intros b Hempty; simpl.
  - intros [= <-]. split_and!; [done|done|]. exists [], [].
    rewrite !app_nil_r. split_and!; [done|done|done|done|constructor].
  - intros H. apply and_then_Return in H as (b1 & H1 & H).
    apply prepare_Return in H1 as (Hempty1 & Hassets1 & Hcase); [|done].
    destruct (IH b1 Hempty1 H) as (Hempty' & Hassets' & new & reported & Ht & He & Hlen & Hsub & Hall).
    split_and!; [done|congruence|].
    destruct Hcase as [(p & Htasks & Hfile & Hwell & Hcomp)|(err & Htasks & Hcomp)].
    + exists (p :: new), reported. rewrite Ht, Htasks, <- app_assoc. simpl.
      split_and!; [done|congruence|lia| |by constructor].
      rewrite Hfile. by apply sublist_skip.
    + exists new, (err :: reported). rewrite Ht, Htasks, He, Hcomp. simpl.
      rewrite <- app_assoc. simpl.
      split_and!; [done|done|lia| |done].
      by apply sublist_cons.
Qed.

End preparation.

Lemma optimize_chunk_assets_Return h pf e this outputPath context chunks c d b st :
  optimize_chunk_assets h pf e this outputPath context chunks c = Return (d, b, st) →
  constructor pf (parallel this) = Return d ∧
  prepare_all h e this outputPath (RequestShortener h context) (files_of h chunks c)
    {| comp := c; tasks_built := []; uglifiedAssets := ∅ |} = Return b ∧
  st = (runTasks d e (map p_task (tasks_built b))).1.
Proof.
  unfold optimize_chunk_assets. intros H.
  apply and_then_Return in H as (d' & Hd & H).
  apply and_then_Return in H as (b' & Hb & H).
  by injection H as <- <- <-.
Qed.

(** X14. When the handler gets to [runTasks], every file that it went
    through, a file of two chunks twice, has given one task or else one
    error of the compilation: no file is passed over, since the set of
    uglified assets is still empty. The tasks are in the order of the
    files, and no asset has been replaced. *)
Theorem every_file_gives_a_task_or_an_error
    h pf e this outputPath context chunks c d b st :
  optimize_chunk_assets h pf e this outputPath context chunks c = Return (d, b, st) →
  uglifiedAssets b = ∅ ∧ assets (comp b) = assets c ∧
  (∃ reported,
     errors (comp b) = errors c ++ reported ∧
     (length (tasks_built b) + length reported
      = length (files_of h chunks c))%nat) ∧
  map p_file (tasks_built b) `sublist_of` files_of h chunks c.
Proof.
  intros H. apply optimize_chunk_assets_Return in H as (_ & H & _).
  apply prepare_all_Return in H as (He & Ha & new & reported & Ht & Herr & Hlen & Hsub & _);
    [|done].
  simpl in *. subst. split_and!; [done|done| |done]. by exists reported.
Qed.

Lemma every_file_gives_a_task_or_an_error_witness :
  ∃ d b st,
    optimize_chunk_assets sample_host sample_platform (sample_environment nothing_cached)
      (sample_plugin VUndefined) (VStr "dist") (VStr "/app") sample_chunks
      sample_compilation = Return (d, b, st) ∧
    files_of sample_host sample_chunks sample_compilation
      = ["main.js"; "main.js"; "vendor.js"] ∧
    map p_file (tasks_built b) = ["main.js"; "main.js"] ∧
    uglifiedAssets b = ∅ ∧
    ∃ reported, errors (comp b) = [] ++ reported ∧
                (length (tasks_built b) + length reported = 3)%nat.
Proof.
  destruct (optimize_chunk_assets sample_host sample_platform
              (sample_environment nothing_cached) (sample_plugin VUndefined)
              (VStr "dist") (VStr "/app") sample_chunks sample_compilation)
    as [[[d b] st]|ex] eqn:H; [|by vm_compute in H].
  exists d, b, st. split; [done|].
  destruct (every_file_gives_a_task_or_an_error _ _ _ _ _ _ _ _ _ _ _ H)
    as (Hempty & _ & Hcount & _).
  split_and!; [by vm_compute| |exact Hempty|exact Hcount].
  vm_compute in H. by injection H as <- <- <-.
Defined.

(** ** The cache key of a task *)

(** X15. The cache key of every task that the handler passes to the
    dispatcher is the text of a JSON object whose member [input] is the
    source text of the file and whose member [path] is the output path
    with the name of the file. So the keys of two tasks that differ in the
    source text or in the file are texts of different documents. *)
Theorem cache_key_holds_input_and_path
    h pf e this outputPath context chunks c d b st p input :
  optimize_chunk_assets h pf e this outputPath context chunks c = Return (d, b, st) →
  tagging (encode e) →
  p ∈ tasks_built b → p_input p = VStr input →
  ∃ members,
    cacheKey (p_task p) = VStr (JSON_text h (JSON.JObj members)) ∧
    assoc "input" members = Some (JSON.JStr input) ∧
    assoc "path" members
    = Some (JSON.JStr (ToString outputPath +:+ "/" +:+ p_file p)).
Proof.
  intros H Htag Hp Hinput. apply optimize_chunk_assets_Return in H as (_ & H & _).
  apply prepare_all_Return in H as (_ & _ & new & reported & Ht & _ & _ & _ & Hall);
    [|done].
  simpl in Ht. subst new. rewrite Forall_forall in Hall.
  rewrite (Hall p Hp). unfold task_object, cacheKey, cache_key. simpl.
  rewrite Hinput.
  destruct (stringify_with_object (encode e)
              [("uglify-es", (versions h).1);
               ("uglifyjs-webpack-plugin", (versions h).2);
               ("uglifyjs-webpack-plugin-options", options_value this);
               ("path", VStr (ToString outputPath +:+ "/" +:+ p_file p));
               ("input", VStr input)] "input" input Htag eq_refl)
    as (members & Hs & Hin).
  destruct (stringify_with_object (encode e)
              [("uglify-es", (versions h).1);
               ("uglifyjs-webpack-plugin", (versions h).2);
               ("uglifyjs-webpack-plugin-options", options_value this);
               ("path", VStr (ToString outputPath +:+ "/" +:+ p_file p));
               ("input", VStr input)] "path"
              (ToString outputPath +:+ "/" +:+ p_file p) Htag eq_refl)
    as (members' & Hs' & Hpath).
  rewrite Hs in Hs'. injection Hs' as <-. rewrite Hs.
  by exists members.
Qed.

Lemma cache_key_holds_input_and_path_witness :
  ∃ d b st p members,
    optimize_chunk_assets sample_host sample_platform (sample_environment nothing_cached)
      (sample_plugin VUndefined) (VStr "dist") (VStr "/app") sample_chunks
      sample_compilation = Return (d, b, st) ∧
    tasks_built b !! 0%nat = Some p ∧
    cacheKey (p_task p) = VStr (sample_text (JSON.JObj members)) ∧
    assoc "input" members = Some (JSON.JStr "x=1;") ∧
    assoc "path" members = Some (JSON.JStr "dist/main.js").
Proof.
  destruct (optimize_chunk_assets sample_host sample_platform
              (sample_environment nothing_cached) (sample_plugin VUndefined)
              (VStr "dist") (VStr "/app") sample_chunks sample_compilation)
    as [[[d b] st]|ex] eqn:H; [|by vm_compute in H].
  destruct (tasks_built b !! 0%nat) as [p|] eqn:Hp;
    [|vm_compute in H; injection H as <- <- <-; by vm_compute in Hp].
  assert (Hinput : p_input p = VStr "x=1;").
  { vm_compute in H. injection H as <- <- <-. vm_compute in Hp. by injection Hp as <-. }
  assert (Hfile : p_file p = "main.js").
  { vm_compute in H. injection H as <- <- <-. vm_compute in Hp. by injection Hp as <-. }
  destruct (cache_key_holds_input_and_path sample_host _ _ _ (VStr "dist") _ _ _ _ _ _
              p "x=1;" H tagging_encode_tagging)
    as (members & Hkey & Hin & Hpath);
    [by eapply list_elem_of_lookup_2|done|].
  exists d, b, st, p, members. rewrite Hfile in Hpath. done.
Defined.

(** ** The callback of runTasks *)

(** X16. The callback passes the compilation where [buildError] expects
    the request shortener. So the error of a result is reported only when
    it cannot be mapped to an original source: when it has a line, the
    source map of the task has an original position for it with a source,
    and the compilation has no method [shorten], the processing of the
    result throws a TypeError, whatever the request shortener of the
    plugin is, and the error of the result is not added to the errors of
    the compilation. *)
Theorem mapped_error_is_not_reported
    h this requestShortener p r b map line col original source :
  truthy (r_error r) = true →
  get (r_error r) "line" = Return line → truthy line = true →
  get (r_error r) "col" = Return col →
  p_sourceMap p = Some map →
  originalPositionFor map line col = Return original → truthy original = true →
  get original "source" = Return source → truthy source = true →
  compilation_shorten (comp b) = None →
  process h this requestShortener p r b = Throw TypeError.
Proof.
  intros Herr Hline Htl Hcol Hmap Hpos Hto Hsource Hts Hshorten.
  unfold process, report, buildError.
  rewrite Herr, Hline. simpl. rewrite Htl, Hcol. simpl.
  rewrite Hmap, Hpos. simpl. rewrite Hto, Hsource. simpl. rewrite Hts.
  assert (Hmessage : ∃ message, get (r_error r) "message" = Return message).
  { destruct (r_error r); simpl in *; eauto; discriminate. }
  destruct Hmessage as [message ->]. simpl. by rewrite Hshorten.
Qed.

Lemma mapped_error_is_not_reported_witness :
  process sample_host (sample_plugin VUndefined) (RequestShortener sample_host (VStr "/app"))
    mapped_task failed_result
    {| comp := sample_compilation; tasks_built := [mapped_task]; uglifiedAssets := ∅ |}
  = Throw TypeError.
Proof.
  apply (mapped_error_is_not_reported _ _ _ _ _ _ sample_consumer (VNum 1) (VNum 2)
           (VObj [("source", VStr "src/a.js"); ("line", VNum 10); ("column", VNum 2)])
           (VStr "src/a.js")); reflexivity.
Defined.

Section callback.
Context (h : host) (this : plugin) (requestShortener : shortener).

Lemma write_comments_spec name commentsSource c :
  errors (write_comments name commentsSource c) = errors c ∧
  warnings (write_comments name commentsSource c) = warnings c ∧
  (fresh c ≤ fresh (write_comments name commentsSource c))%nat ∧
  (∀ other, is_Some (assets c !! other) →
            is_Some (assets (write_comments name commentsSource c) !! other)).
Proof.
  unfold write_comments. destruct (assets c !! name) as [o|] eqn:Ho.
  - destruct (is_concat (objects c o)); simpl; split_and!; try done; try lia.
    intros other Hother. destruct (decide (other = name)) as [->|Hne].
    + rewrite lookup_insert_eq. eauto.
    + by rewrite lookup_insert_ne.
  - simpl. split_and!; try done; try lia.
    intros other Hother. destruct (decide (other = name)) as [->|Hne].
    + rewrite lookup_insert_eq. eauto.
    + by rewrite lookup_insert_ne.
Qed.

(** The two things that [extract] may do. *)
Lemma extract_Return commentsFile extractedComments outputSource c out c' :
  extract h this commentsFile extractedComments outputSource c = Return (out, c') →
  (out = outputSource ∨ ∃ banner, out = ConcatSource [inl banner; inr outputSource]) ∧
  (c' = c ∨
   (truthy commentsFile = true ∧ extractedComments ≠ [] ∧
    c' = write_comments (ToString commentsFile) (comments_source extractedComments) c)).
Proof.
  unfold extract. destruct (truthy commentsFile); simpl.
  - case_bool_decide as Hnil; simpl.
    + intros [= <- <-]. split; by left.
    + intros H. apply and_then_Return in H as (banner & _ & H).
      injection H as <- <-. split; [|by right].
      destruct banner as [text|]; [right; by eexists|by left].
  - intros [= <- <-]. split; by left.
Qed.

Lemma extract_writes commentsFile extractedComments outputSource c out c' :
  truthy commentsFile = true → extractedComments ≠ [] →
  extract h this commentsFile extractedComments outputSource c = Return (out, c') →
  c' = write_comments (ToString commentsFile) (comments_source extractedComments) c.
Proof.
  unfold extract. intros -> Hne. rewrite bool_decide_false by done. simpl.
  intros H. apply and_then_Return in H as (banner & _ & H). by injection H as <- <-.
Qed.

Lemma warn_Return p r b b' :
  warn h this requestShortener p r b = Return b' →
  b' = b ∨ ∃ w, b' = with_comp (push_warning w (comp b)) b.
Proof.
  unfold warn. destruct (r_warnings r) as [ws|]; [|intros [= <-]; by left].
  intros H. apply and_then_Return in H as (warnArr & _ & H).
  injection H as <-. case_bool_decide; [by left|right; by eexists].
Qed.

Lemma process_Return_ok p r b b' :
  truthy (r_error r) = false →
  process h this requestShortener p r b = Return b' →
  ∃ output out c1 b1,
    output_of p r output ∧
    extract h this (p_commentsFile p) (r_extractedComments r) output (comp b)
      = Return (out, c1) ∧
    b1 = replace_asset (p_file p) out (with_comp c1 b) ∧
    (b' = b1 ∨ ∃ w, b' = with_comp (push_warning w (comp b1)) b1).
Proof.
  intros Herr. unfold process. rewrite Herr. intros H.
  apply and_then_Return in H as (output & Hout & H).
  apply and_then_Return in H as ([out c1] & Hext & H).
  apply warn_Return in H.
  exists output, out, c1, (replace_asset (p_file p) out (with_comp c1 b)).
  split_and!; [|done|done|done].
  unfold output_of. destruct (truthy (r_map r)).
  - apply and_then_Return in Hout as (map & _ & Hout). injection Hout as <-. eauto.
  - by injection Hout as <-.
Qed.

End callback.

Section results.
Context (h : host) (this : plugin) (requestShortener : shortener).

Lemma failures_cons slot results :
  failures (slot :: results)
  = ((if from_option (λ r, truthy (r_error r)) false slot then 1 else 0)
     + failures results)%nat.
Proof.
  unfold failures. rewrite filter_cons.
  destruct (from_option (λ r, truthy (r_error r)) false slot) eqn:Hs.
  - by rewrite decide_True.
  - by rewrite decide_False.
Qed.

(** What one result changes. *)
Lemma process_Return p r b b' :
  process h this requestShortener p r b = Return b' →
  tasks_built b' = tasks_built b ∧
  (∃ reported,
     errors (comp b') = errors (comp b) ++ reported ∧
     length reported = if truthy (r_error r) then 1%nat else 0%nat) ∧
  (length (warnings (comp b'))
   ≤ length (warnings (comp b)) + if truthy (r_error r) then 0 else 1)%nat ∧
  (∀ name, is_Some (assets (comp b) !! name) → is_Some (assets (comp b') !! name)).
Proof.
  destruct (truthy (r_error r)) eqn:Herr.
  - unfold process. rewrite Herr. intros H.
    apply report_Return in H as [err ->]. simpl.
    split_and!; [done|by exists [err]|lia|done].
  - intros H. apply process_Return_ok in H as (output & out & c1 & b1 & _ & Hext & Hb1 & Hb');
      [|done].
    apply extract_Return in Hext as [_ Hc1].
    assert (Hkeep : errors c1 = errors (comp b) ∧ warnings c1 = warnings (comp b) ∧
                    ∀ name, is_Some (assets (comp b) !! name) → is_Some (assets c1 !! name)).
    { destruct Hc1 as [->|(_ & _ & ->)]; [done|].
      destruct (write_comments_spec (ToString (p_commentsFile p))
                  (comments_source (r_extractedComments r)) (comp b))
        as (He & Hw & _ & Ha). done. }
    destruct Hkeep as (He & Hw & Ha).
    assert (Hb1' : tasks_built b1 = tasks_built b ∧ errors (comp b1) = errors (comp b) ∧
                   warnings (comp b1) = warnings (comp b) ∧
                   ∀ name, is_Some (assets (comp b) !! name) →
                           is_Some (assets (comp b1) !! name)).
    { subst b1. simpl. split_and!; [done|done|done|].
      intros name Hname. destruct (decide (name = p_file p)) as [->|Hne].
      - rewrite lookup_insert_eq. eauto.
      - rewrite lookup_insert_ne by done. by apply Ha. }
    destruct Hb1' as (Ht1 & He1 & Hw1 & Ha1).
    destruct Hb' as [->|[w ->]]; simpl; rewrite ?length_app, ?Ht1, ?He1, ?Hw1; simpl.
    + split_and!; [done| |lia|done]. exists []. by rewrite app_nil_r.
    + split_and!; [done| |lia|done]. exists []. by rewrite app_nil_r.
Qed.

Lemma process_all_Return results index b b' :
  process_all h this requestShortener index results b = Return b' →
  tasks_built b' = tasks_built b ∧
  (∃ reported,
     errors (comp b') = errors (comp b) ++ reported ∧
     length reported = failures results) ∧
  (length (warnings (comp b')) + failures results
   ≤ length (warnings (comp b)) + length results)%nat ∧
  (∀ name, is_Some (assets (comp b) !! name) → is_Some (assets (comp b') !! name)).
Proof.
  revert index b. induction results as [|[r|] results IH]; intros index b; simpl.
  - intros [= <-]. split_and!; [done| |unfold failures; simpl; lia|done].
    exists []. by rewrite app_nil_r.
  - rewrite failures_cons. simpl.
    destruct (tasks_built b !! index) as [p|]; [|done].
    intros H. apply and_then_Return in H as (b1 & H1 & H).
    apply process_Return in H1 as (Ht1 & (rep1 & He1 & Hl1) & Hw1 & Ha1).
    apply IH in H as (Ht & (rep & He & Hl) & Hw & Ha).
    split_and!; [congruence| | |by eauto].
    + exists (rep1 ++ rep). rewrite He, He1, <- app_assoc, length_app.
      split; [done|]. rewrite Hl1, Hl. by destruct (truthy (r_error r)).
    + destruct (truthy (r_error r)); lia.
  - rewrite failures_cons. simpl. intros H.
    apply IH in H as (Ht & He & Hw & Ha). split_and!; [done|done|lia|done].
Qed.

End results.

(** X17. When the callback gets to [callback()], it has added one error
    to the compilation for each result with an error, after the errors
    that were there, and at most one warning for each other result; a
    result with an error does not stop the results after it. No asset has
    been removed, and the list of tasks is as it was. *)
Theorem each_failure_is_reported_once
    h this requestShortener tasksError results b b' :
  finish h this requestShortener tasksError results b = Return (b', true) →
  tasks_built b' = tasks_built b ∧
  (∃ reported,
     errors (comp b') = errors (comp b) ++ reported ∧
     length reported = failures results) ∧
  (length (warnings (comp b')) + failures results
   ≤ length (warnings (comp b)) + length results)%nat ∧
  (∀ name, is_Some (assets (comp b) !! name) → is_Some (assets (comp b') !! name)).
Proof.
  unfold finish. destruct (truthy tasksError); [done|].
  intros H. apply and_then_Return in H as (b1 & H1 & H). injection H as <-.
  by eapply process_all_Return.
Qed.

Lemma each_failure_is_reported_once_witness :
  ∃ b',
    finish sample_host (sample_plugin (VBool true))
      (RequestShortener sample_host (VStr "/app")) VNull
      [Some failed_result; Some commented_result] sample_build
    = Return (b', true) ∧
    length (errors (comp sample_build)) = 1%nat ∧
    length (errors (comp b')) = 2%nat ∧ (length (warnings (comp b')) ≤ 1)%nat.
Proof.
  destruct (finish sample_host (sample_plugin (VBool true))
              (RequestShortener sample_host (VStr "/app")) VNull
              [Some failed_result; Some commented_result] sample_build)
    as [[b' ok]|ex] eqn:H; [|by vm_compute in H].
  assert (Hok : ok = true) by (vm_compute in H; by injection H as <- <-).
  subst ok. exists b'. split; [done|].
  destruct (each_failure_is_reported_once _ _ _ _ _ _ _ H)
    as (_ & (reported & He & Hl) & Hw & _).
  rewrite He, length_app, Hl. split_and!; [by vm_compute|by vm_compute|].
  replace (failures [Some failed_result; Some commented_result]) with 1%nat in Hw
    by (by vm_compute).
  replace (length (warnings (comp sample_build))) with 0%nat in Hw by (by vm_compute).
  simpl in Hw. lia.
Defined.

(** X18. A result without error replaces the asset of its file by a new
    object, which is recorded as uglified: the source made of the code of
    the result, with the source map of the result when it has one, and
    behind a banner or not. That holds also when the extracted comments
    were written under the name of the file itself: the output then takes
    their place. The errors of the compilation stay as they are. *)
Theorem output_replaces_the_asset h this requestShortener p r b b' :
  truthy (r_error r) = false →
  process h this requestShortener p r b = Return b' →
  ∃ o output,
    assets (comp b') !! p_file p = Some o ∧
    (fresh (comp b) ≤ o)%nat ∧ o ∈ uglifiedAssets b' ∧
    output_of p r output ∧
    (objects (comp b') o = output ∨
     ∃ banner, objects (comp b') o = ConcatSource [inl banner; inr output]) ∧
    errors (comp b') = errors (comp b).
Proof.
  intros Herr H.
  apply process_Return_ok in H as (output & out & c1 & b1 & Hout & Hext & Hb1 & Hb');
    [|done].
  apply extract_Return in Hext as [Hbanner Hc1].
  assert (Hc : (fresh (comp b) ≤ fresh c1)%nat ∧ errors c1 = errors (comp b)).
  { destruct Hc1 as [->|(_ & _ & ->)]; [done|].
    destruct (write_comments_spec (ToString (p_commentsFile p))
                (comments_source (r_extractedComments r)) (comp b))
      as (He & _ & Hf & _). done. }
  destruct Hc as [Hfresh He].
  exists (fresh c1), output.
  assert (Hb : assets (comp b') = assets (comp b1) ∧ objects (comp b') = objects (comp b1) ∧
               uglifiedAssets b' = uglifiedAssets b1 ∧ errors (comp b') = errors (comp b1)).
  { by destruct Hb' as [->|[w ->]]. }
  destruct Hb as (-> & -> & -> & ->). subst b1. simpl.
  rewrite lookup_insert_eq, decide_True by done.
  split_and!; [done|done| |done| |done].
  { apply elem_of_union_l. by apply elem_of_singleton. }
  destruct Hbanner as [->|[banner ->]]; [by left|right; by eexists].
Qed.

Lemma output_replaces_the_asset_witness :
  ∃ p b' o,
    tasks_built sample_build !! 0%nat = Some p ∧
    process sample_host (sample_plugin (VBool true))
      (RequestShortener sample_host (VStr "/app")) p commented_result sample_build
    = Return b' ∧
    assets (comp b') !! "main.js" = Some o ∧ (3 ≤ o)%nat ∧
    objects (comp b') o
    = ConcatSource [inl ("/*! For license information please see main.js.LICENSE */"
                         +:+ newline);
                    inr (RawSource (VStr "x=1;"))].
Proof.
  destruct (tasks_built sample_build !! 0%nat) as [p|] eqn:Hp; [|by vm_compute in Hp].
  assert (Hfile : p_file p = "main.js") by (vm_compute in Hp; by injection Hp as <-).
  destruct (process sample_host (sample_plugin (VBool true))
              (RequestShortener sample_host (VStr "/app")) p commented_result sample_build)
    as [b'|ex] eqn:H; [|vm_compute in Hp; injection Hp as <-; by vm_compute in H].
  destruct (output_replaces_the_asset _ _ _ p commented_result sample_build b' eq_refl H)
    as (o & output & Ho & Hfresh & _ & _ & _ & _).
  exists p, b', o. rewrite Hfile in Ho.
  split_and!; [done|done|done|exact Hfresh|].
  vm_compute in Hp. injection Hp as <-. vm_compute in H. injection H as <-.
  vm_compute in Ho. injection Ho as <-. vm_compute. reflexivity.
Defined.

(** X19. Where the name of the comments file holds a [ConcatSource], the
    extracted comments are added to that object, after a newline: the
    asset is not replaced. So every other name of the compilation that
    holds the same object shows the comments as well. *)
Theorem comments_are_appended_in_place
    h this requestShortener p r b b' o children :
  truthy (r_error r) = false →
  truthy (p_commentsFile p) = true → r_extractedComments r ≠ [] →
  assets (comp b) !! ToString (p_commentsFile p) = Some o →
  objects (comp b) o = ConcatSource children →
  (o < fresh (comp b))%nat →
  process h this requestShortener p r b = Return b' →
  objects (comp b') o
  = ConcatSource (children ++ [inl newline;
                               inr (comments_source (r_extractedComments r))]) ∧
  ∀ name, name ≠ p_file p → assets (comp b) !! name = Some o →
          assets (comp b') !! name = Some o.
Proof.
  intros Herr Hcf Hcomments Ho Hconcat Hlt H.
  apply process_Return_ok in H as (output & out & c1 & b1 & _ & Hext & Hb1 & Hb');
    [|done].
  apply extract_writes in Hext as ->; [|done|done].
  assert (Hb : assets (comp b') = assets (comp b1) ∧ objects (comp b') = objects (comp b1)).
  { by destruct Hb' as [->|[w ->]]. }
  destruct Hb as (-> & ->). subst b1. unfold write_comments. rewrite Ho, Hconcat. simpl.
  rewrite decide_False by lia. rewrite decide_True by done. rewrite Hconcat.
  split; [done|].
  intros name Hne Hname. by rewrite lookup_insert_ne.
Qed.

Lemma comments_are_appended_in_place_witness :
  ∃ p b',
    tasks_built sample_build !! 0%nat = Some p ∧
    process sample_host (sample_plugin (VBool true))
      (RequestShortener sample_host (VStr "/app")) p commented_result sample_build
    = Return b' ∧
    asset (comp b') "licenses.txt"
    = Some (ConcatSource [inl "MIT"; inl newline;
                          inr (RawSource (VStr ("/*! MIT */" +:+ newline)))]).
Proof.
  destruct (tasks_built sample_build !! 0%nat) as [p|] eqn:Hp; [|by vm_compute in Hp].
  assert (Hfile : p_file p = "main.js") by (vm_compute in Hp; by injection Hp as <-).
  assert (Hcf : p_commentsFile p = VStr "main.js.LICENSE")
    by (vm_compute in Hp; by injection Hp as <-).
  destruct (process sample_host (sample_plugin (VBool true))
              (RequestShortener sample_host (VStr "/app")) p commented_result sample_build)
    as [b'|ex] eqn:H; [|vm_compute in Hp; injection Hp as <-; by vm_compute in H].
  destruct (comments_are_appended_in_place sample_host (sample_plugin (VBool true))
              (RequestShortener sample_host (VStr "/app")) p commented_result
              sample_build b' 2%nat [inl "MIT"]) as [Hobject Hnames].
  - reflexivity.
  - by rewrite Hcf.
  - done.
  - rewrite Hcf. by vm_compute.
  - reflexivity.
  - vm_compute. lia.
  - exact H.
  - exists p, b'. split_and!; [done|done|].
    unfold asset. rewrite (Hnames "licenses.txt"); [|by rewrite Hfile|by vm_compute].
    simpl. by rewrite Hobject.
Defined.

(** ** The handler and the dispatcher *)

Lemma outcome_minified d e i t :
  truthy (cache d) = false → workers d ≤ 0 →
  outcome d e i t = Some (minified e t).
Proof.
  intros Hc Hw. unfold outcome, computed, choose. rewrite Hc.
  replace (0 <? workers d) with false by (symmetry; apply Z.ltb_ge; lia).
  unfold inline, minified.
  destruct (minify e (VObj t)) as [result|errors];
    rewrite on_worker_no_cache by done; simpl; [done|].
  by destruct (truthy errors).
Qed.

Lemma default_dispatcher pf parallel d :
  parallel = VUndefined ∨ parallel = VBool false →
  constructor pf parallel = Return d →
  truthy (cache d) = false ∧ workers d ≤ 0.
Proof.
  intros [-> | ->]; unfold constructor; simpl; intros [= <-]; simpl.
  - split; [done|]. unfold number_or_zero. simpl. lia.
  - split; [done|]. unfold number_or_zero. simpl. lia.
Qed.

(** X20. With the option [parallel] left out, or [false], the handler
    minifies in its own process: by the time [runTasks] returns, the
    callback has been invoked, once, without error and with one result for
    each task in the order of the tasks, and that result is what [minify]
    returned for the task, or what it threw, under [error]. *)
Theorem build_without_parallel_is_sequential
    h pf e this outputPath context chunks c d b st :
  parallel this = VUndefined ∨ parallel this = VBool false →
  optimize_chunk_assets h pf e this outputPath context chunks c = Return (d, b, st) →
  called st
  = [(VNull, map (λ p, Some (minified e (p_task p))) (tasks_built b))].
Proof.
  intros Hpar H. apply optimize_chunk_assets_Return in H as (Hd & _ & ->).
  destruct (default_dispatcher _ _ _ Hpar Hd) as [Hc Hw].
  destruct (inline_run d e (map p_task (tasks_built b)) Hc Hw) as (_ & _ & _ & _ & ->).
  do 2 f_equal. unfold outcomes. apply list_eq. intros i.
  rewrite list_lookup_imap, !list_lookup_fmap.
  destruct (tasks_built b !! i) as [p|]; simpl; [|done].
  by rewrite outcome_minified.
Qed.

Lemma build_without_parallel_is_sequential_witness :
  ∃ d b st,
    optimize_chunk_assets sample_host sample_platform (sample_environment nothing_cached)
      (sample_plugin VUndefined) (VStr "dist") (VStr "/app") sample_chunks
      sample_compilation = Return (d, b, st) ∧
    called st = [(VNull, [Some (VObj [("code", VStr "x=1;")]);
                          Some (VObj [("code", VStr "x=1;")])])].
Proof.
  destruct (optimize_chunk_assets sample_host sample_platform
              (sample_environment nothing_cached) (sample_plugin VUndefined)
              (VStr "dist") (VStr "/app") sample_chunks sample_compilation)
    as [[[d b] st]|ex] eqn:H; [|by vm_compute in H].
  exists d, b, st. split; [done|].
  rewrite (build_without_parallel_is_sequential sample_host sample_platform
             (sample_environment nothing_cached) (sample_plugin VUndefined)
             (VStr "dist") (VStr "/app") sample_chunks sample_compilation d b st
             (or_introl eq_refl) H).
  vm_compute in H. injection H as <- <- <-. by vm_compute.
Defined.

(** ** What a result leaves alone *)

Lemma write_comments_frame name commentsSource c :
  (∀ other, other ≠ name →
     assets (write_comments name commentsSource c) !! other = assets c !! other) ∧
  (∀ o, (o < fresh c)%nat → assets c !! name ≠ Some o →
     objects (write_comments name commentsSource c) o = objects c o).
Proof.
  unfold write_comments. destruct (assets c !! name) as [o'|] eqn:Ho.
  - destruct (is_concat (objects c o')); simpl; split.
    + done.
    + intros o Hlt Hne. rewrite decide_False; [done|congruence].
    + intros other Hne. by rewrite lookup_insert_ne.
    + intros o Hlt Hne. rewrite decide_False; [done|lia].
  - simpl. split.
    + intros other Hne. by rewrite lookup_insert_ne.
    + intros o Hlt Hne. rewrite decide_False; [done|lia].
Qed.

(** X21. The processing of a result changes no asset under another name
    than the file of the task and its comments file, and no object that
    was there before, the object of the comments file apart. *)
Theorem result_touches_only_its_files h this requestShortener p r b b' :
  process h this requestShortener p r b = Return b' →
  (∀ name, name ≠ p_file p → name ≠ ToString (p_commentsFile p) →
     assets (comp b') !! name = assets (comp b) !! name) ∧
  (∀ o, (o < fresh (comp b))%nat →
     assets (comp b) !! ToString (p_commentsFile p) ≠ Some o →
     objects (comp b') o = objects (comp b) o).
Proof.
  destruct (truthy (r_error r)) eqn:Herr.
  - unfold process. rewrite Herr. intros H.
    apply report_Return in H as [err ->]. done.
  - intros H.
    apply process_Return_ok in H as (output & out & c1 & b1 & _ & Hext & Hb1 & Hb');
      [|done].
    apply extract_Return in Hext as [_ Hc1].
    assert (Hc : (fresh (comp b) ≤ fresh c1)%nat ∧
                 (∀ name, name ≠ ToString (p_commentsFile p) →
                    assets c1 !! name = assets (comp b) !! name) ∧
                 (∀ o, (o < fresh (comp b))%nat →
                    assets (comp b) !! ToString (p_commentsFile p) ≠ Some o →
                    objects c1 o = objects (comp b) o)).
    { destruct Hc1 as [->|(_ & _ & ->)]; [done|].
      destruct (write_comments_spec (ToString (p_commentsFile p))
                  (comments_source (r_extractedComments r)) (comp b))
        as (_ & _ & Hf & _).
      destruct (write_comments_frame (ToString (p_commentsFile p))
                  (comments_source (r_extractedComments r)) (comp b)) as [Ha Ho].
      done. }
    destruct Hc as (Hfresh & Ha & Ho).
    assert (Hb : assets (comp b') = assets (comp b1) ∧
                 objects (comp b') = objects (comp b1)).
    { by destruct Hb' as [->|[w ->]]. }
    destruct Hb as (-> & ->). subst b1. simpl. split.
    + intros name Hfile Hcf. rewrite lookup_insert_ne by done. by apply Ha.
    + intros o Hlt Hne. rewrite decide_False by lia. by apply Ho.
Qed.

Lemma result_touches_only_its_files_witness :
  ∃ p b',
    tasks_built sample_build !! 0%nat = Some p ∧
    process sample_host (sample_plugin (VBool true))
      (RequestShortener sample_host (VStr "/app")) p commented_result sample_build
    = Return b' ∧
    asset (comp b') "style.css" = Some (RawSource (VStr "body{}")).
Proof.
  destruct (tasks_built sample_build !! 0%nat) as [p|] eqn:Hp; [|by vm_compute in Hp].
  assert (Hfile : p_file p = "main.js") by (vm_compute in Hp; by injection Hp as <-).
  assert (Hcf : p_commentsFile p = VStr "main.js.LICENSE")
    by (vm_compute in Hp; by injection Hp as <-).
  destruct (process sample_host (sample_plugin (VBool true))
              (RequestShortener sample_host (VStr "/app")) p commented_result sample_build)
    as [b'|ex] eqn:H; [|vm_compute in Hp; injection Hp as <-; by vm_compute in H].
  destruct (result_touches_only_its_files _ _ _ _ _ _ _ H) as [Hnames Hobjects].
  exists p, b'. split_and!; [done|done|].
  unfold asset. rewrite Hnames; [|by rewrite Hfile|by rewrite Hcf].
  replace (assets (comp sample_build) !! "style.css") with (Some 1%nat)
    by (by vm_compute).
  simpl. rewrite Hobjects; [by vm_compute|vm_compute; lia|].
  rewrite Hcf. by vm_compute.
Defined.

(** ** Warnings without source maps *)

Section unmapped.
Context (h : host) (e : environment) (this : plugin) (outputPath : value)
        (requestShortener : shortener).
Hypothesis no_source_maps : truthy (sourceMap this) = false.

Lemma prepare_unmapped file b b' :
  Forall (λ p, p_sourceMap p = None) (tasks_built b) →
  prepare h e this outputPath requestShortener file b = Return b' →
  Forall (λ p, p_sourceMap p = None) (tasks_built b').
Proof.
  intros Hall. unfold prepare. destruct (is_uglified b file); [by intros [= <-]|].
  unfold read_asset. rewrite no_source_maps.
  destruct (asset (comp b) file) as [a|]; simpl.
  - destruct (asset_source h a) as [input|error]; simpl.
    + destruct (comments_file h this file) as [commentsFile|error].
      * intros [= <-]. simpl. apply Forall_app. split; [done|]. by repeat constructor.
      * intros H. by apply report_Return in H as [err ->].
    + intros H. by apply report_Return in H as [err ->].
  - intros H. by apply report_Return in H as [err ->].
Qed.

Lemma prepare_all_unmapped files b b' :
  Forall (λ p, p_sourceMap p = None) (tasks_built b) →
  prepare_all h e this outputPath requestShortener files b = Return b' →
  Forall (λ p, p_sourceMap p = None) (tasks_built b').
Proof.
  revert b. induction files as [|file files IH]; intros b Hall; simpl.
  - by intros [= <-].
  - intros H. apply and_then_Return in H as (b1 & H1 & H).
    eapply IH; [|done]. by eapply prepare_unmapped.
Qed.

End unmapped.

(** X22. Without the option [sourceMap] no task of the handler has a
    source map, and then the warnings of a result are not filtered: when
    the processing of a result without error and with warnings returns,
    it has added one warning to the compilation, made of all the warnings
    of the result as they are. [warningsFilter] is not consulted. *)
Theorem warnings_are_unfiltered_without_source_maps
    h pf e this outputPath context chunks c d b st p :
  truthy (sourceMap this) = false →
  optimize_chunk_assets h pf e this outputPath context chunks c = Return (d, b, st) →
  p ∈ tasks_built b →
  p_sourceMap p = None ∧
  ∀ requestShortener r b0 b' ws,
    truthy (r_error r) = false → r_warnings r = Some ws → ws ≠ [] →
    process h this requestShortener p r b0 = Return b' →
    warnings (comp b')
    = warnings (comp b0)
      ++ [Error (p_file p +:+ " from UglifyJs" +:+ newline
                 +:+ String.concat newline ws)].
Proof.
  intros Hsm H Hp. apply optimize_chunk_assets_Return in H as (_ & H & _).
  apply prepare_all_unmapped in H; [|done|by constructor].
  rewrite Forall_forall in H. specialize (H p Hp). split; [done|].
  intros requestShortener r b0 b' ws Herr Hws Hne. unfold process. rewrite Herr.
  intros Hb'. apply and_then_Return in Hb' as (output & _ & Hb').
  apply and_then_Return in Hb' as ([out c1] & Hext & Hb').
  unfold warn, buildWarnings in Hb'. rewrite Hws, H in Hb'. simpl in Hb'.
  rewrite bool_decide_false in Hb' by done. injection Hb' as <-. simpl.
  apply extract_Return in Hext as [_ [->|(_ & _ & ->)]]; [done|].
  simpl. f_equal.
  by destruct (write_comments_spec (ToString (p_commentsFile p))
                 (comments_source (r_extractedComments r)) (comp b0)) as (_ & -> & _).
Qed.

Lemma warnings_are_unfiltered_without_source_maps_witness :
  ∃ d b st p,
    optimize_chunk_assets sample_host sample_platform (sample_environment nothing_cached)
      (sample_plugin VUndefined) (VStr "dist") (VStr "/app") sample_chunks
      sample_compilation = Return (d, b, st) ∧
    tasks_built b !! 0%nat = Some p ∧ p_sourceMap p = None.
Proof.
  destruct (optimize_chunk_assets sample_host sample_platform
              (sample_environment nothing_cached) (sample_plugin VUndefined)
              (VStr "dist") (VStr "/app") sample_chunks sample_compilation)
    as [[[d b] st]|ex] eqn:H; [|by vm_compute in H].
  destruct (tasks_built b !! 0%nat) as [p|] eqn:Hp;
    [|vm_compute in H; injection H as <- <- <-; by vm_compute in Hp].
  exists d, b, st, p. split_and!; [done|done|].
  apply (warnings_are_unfiltered_without_source_maps sample_host sample_platform
           (sample_environment nothing_cached) (sample_plugin VUndefined)
           (VStr "dist") (VStr "/app") sample_chunks sample_compilation d b st p
           eq_refl H).
  by eapply list_elem_of_lookup_2.
Defined.

(** ** The whole handler *)

Lemma failures_le results : (failures results ≤ length results)%nat.
Proof. unfold failures. apply length_filter. Qed.

(** X23. With the option [parallel] left out, or [false], every file that
    the handler goes through is accounted for when the callback of the
    dispatcher returns: webpack's callback has been called, and the files
    are as many as the errors added to the compilation and the results
    without error together. *)
Theorem every_file_is_minified_or_reported
    h pf e this outputPath context chunks c d b st err results typed b' ok :
  parallel this = VUndefined ∨ parallel this = VBool false →
  optimize_chunk_assets h pf e this outputPath context chunks c = Return (d, b, st) →
  (err, results) ∈ called st →
  results_of results = Some typed →
  finish h this (RequestShortener h context) err typed b = Return (b', ok) →
  ok = true ∧
  ∃ reported,
    errors (comp b') = errors c ++ reported ∧
    (length reported + (length typed - failures typed)
     = length (files_of h chunks c))%nat.
Proof.
  intros Hpar H Hin Htyped Hfinish.
  apply optimize_chunk_assets_Return in H as (Hd & Hb & ->).
  destruct (default_dispatcher _ _ _ Hpar Hd) as [Hc Hw].
  destruct (inline_run d e (map p_task (tasks_built b)) Hc Hw) as (_ & _ & _ & _ & Hcalled).
  rewrite Hcalled in Hin. apply list_elem_of_singleton in Hin. injection Hin as -> ->.
  apply prepare_all_Return in Hb
    as (_ & _ & new & reported1 & Ht & He1 & Hlen & _ & _); [|done].
  simpl in Ht, He1. subst new.
  assert (Hlength : length typed = length (tasks_built b)).
  { unfold results_of in Htyped. apply length_mapM in Htyped.
    unfold outcomes in Htyped. by rewrite length_imap, length_map in Htyped. }
  unfold finish in Hfinish. simpl in Hfinish.
  apply and_then_Return in Hfinish as (b1 & Hall & Hfinish). injection Hfinish as <- <-.
  apply process_all_Return in Hall as (_ & (reported2 & He2 & Hl2) & _ & _).
  split; [done|]. exists (reported1 ++ reported2).
  rewrite He2, He1, <- app_assoc, length_app. split; [done|].
  pose proof (failures_le typed). lia.
Qed.

Lemma every_file_is_minified_or_reported_witness :
  ∃ d b st results typed b',
    optimize_chunk_assets sample_host sample_platform complete_environment
      (sample_plugin (VBool true)) (VStr "dist") (VStr "/app") sample_chunks
      sample_compilation = Return (d, b, st) ∧
    called st = [(VNull, results)] ∧
    results_of results = Some typed ∧
    finish sample_host (sample_plugin (VBool true))
      (RequestShortener sample_host (VStr "/app")) VNull typed b = Return (b', true) ∧
    length (errors (comp b')) = 1%nat ∧ length typed = 2%nat ∧
    failures typed = 0%nat.
Proof.
  destruct (optimize_chunk_assets sample_host sample_platform complete_environment
              (sample_plugin (VBool true)) (VStr "dist") (VStr "/app") sample_chunks
              sample_compilation)
    as [[[d b] st]|ex] eqn:H; [|by vm_compute in H].
  assert (Hcalled : ∃ results, called st = [(VNull, results)]).
  { vm_compute in H. injection H as <- <- <-. by eexists. }
  destruct Hcalled as [results Hcalled].
  destruct (results_of results) as [typed|] eqn:Htyped;
    [|vm_compute in H; injection H as <- <- <-; injection Hcalled as <-;
      by vm_compute in Htyped].
  assert (Hcount : length typed = 2%nat ∧ failures typed = 0%nat).
  { vm_compute in H. injection H as <- <- <-. injection Hcalled as <-.
    vm_compute in Htyped. injection Htyped as <-. by vm_compute. }
  destruct (finish sample_host (sample_plugin (VBool true))
              (RequestShortener sample_host (VStr "/app")) VNull typed b)
    as [[b' ok]|ex] eqn:Hfinish;
    [|vm_compute in H; injection H as <- <- <-; injection Hcalled as <-;
      vm_compute in Htyped; injection Htyped as <-; by vm_compute in Hfinish].
  destruct (every_file_is_minified_or_reported sample_host sample_platform
              complete_environment (sample_plugin (VBool true)) (VStr "dist")
              (VStr "/app") sample_chunks sample_compilation d b st VNull results
              typed b' ok (or_introl eq_refl) H)
    as (-> & reported & He & Hl); [rewrite Hcalled; apply list_elem_of_here|done|done|].
  exists d, b, st, results, typed, b'. destruct Hcount as [Hlen Hfail].
  split_and!; [done|done|done|done| |done|done].
  rewrite He. rewrite Hlen, Hfail in Hl.
  replace (length (files_of sample_host sample_chunks sample_compilation)) with 3%nat
    in Hl by (by vm_compute).
  simpl. lia.
Defined.
